(** * TorchMD_GN: a shallow embedding of [torchmdnet/models/torchmd_gn.py]

    The development follows the three classes of the source file,
    [CFConv], [InteractionBlock] and [TorchMD_GN], one module each, and
    keeps their method names ([CFConv.forward],
    [InteractionBlock.reset_parameters], ...; [__init__] is [new]).

    Conventions.
    - A floating-point tensor element is a real number ([R]); a
      two-dimensional tensor [[N, F]] is the list of its [N] rows, each a
      list of [F] reals.  Rounding is not represented.
    - Integer tensors: atomic numbers [z] are [Z] ([torch.long]); molecule
      ids ([batch]) and edge indices are [nat].
    - A raised Python exception is the left summand of [result].
    - Module parameters are mutated in place by [reset_parameters]; here
      every such method returns the updated object, and the random number
      generator is threaded explicitly.
    - What the file imports from other packages ([radius_graph], [scatter],
      [ase.data.atomic_masses], [torch.autograd.grad]) and from
      [torchmdnet.models.utils] ([CosineCutoff], [NeighborEmbedding],
      [rbf_class_mapping], [act_class_mapping]) is either written out from
      its documented behaviour or taken as the field of a class
      ([Generator], [Utils], [Packages], and [Format] for the text of
      [__repr__]). *)

From Stdlib Require Import Reals Lra Lia ZArith String Ascii FunctionalExtensionality.
From stdpp Require Import base list strings pretty.

Local Open Scope R_scope.

(** ** Python exceptions *)

Record exn := Raise { exn_class : string; exn_msg : string }.

Definition result (A : Type) : Type := exn + A.

Definition AssertionError (msg : string) : exn := Raise "AssertionError" msg.
Definition IndexError (msg : string) : exn := Raise "IndexError" msg.
Definition RuntimeError (msg : string) : exn := Raise "RuntimeError" msg.

Definition raise {A : Type} (e : exn) : result A := inl e.
Definition ok {A : Type} (a : A) : result A := inr a.

Definition rbind {A B : Type} (m : result A) (k : A -> result B) : result B :=
  match m with
  | inl e => inl e
  | inr a => k a
  end.

Notation "'let*' x ':=' m 'in' k" := (rbind m (fun x => k))
  (at level 10, x pattern, m at level 100, k at level 200).

(** [assert cond, msg] *)
Definition assert (cond : bool) (msg : string) : result unit :=
  if cond then ok tt else raise (AssertionError msg).

Fixpoint rmapM {A B : Type} (f : A -> result B) (l : list A) : result (list B) :=
  match l with
  | [] => ok []
  | x :: l' => let* y := f x in let* ys := rmapM f l' in ok (y :: ys)
  end.

(** ** Tensors *)

Definition vec : Type := list R.

Definition zeros (n : nat) : vec := replicate n 0.

(** Elementwise binary operation on two rows, with PyTorch's broadcasting
    of a dimension of size one. *)
Definition bop (op : R -> R -> R) (a b : vec) : vec :=
  match a, b with
  | [s], _ => map (op s) b
  | _, [t] => map (fun x => op x t) a
  | _, _ => zip_with op a b
  end.

Definition badd : vec -> vec -> vec := bop Rplus.
Definition bsub : vec -> vec -> vec := bop Rminus.
Definition bmul : vec -> vec -> vec := bop Rmult.
Definition bdiv : vec -> vec -> vec := bop Rdiv.

(** The Python operators [+], [-], [*], [/] on [[N, F]] tensors, row by
    row. *)
Definition tadd : list vec -> list vec -> list vec := zip_with badd.
Definition tsub : list vec -> list vec -> list vec := zip_with bsub.
Definition tmul : list vec -> list vec -> list vec := zip_with bmul.
Definition tdiv : list vec -> list vec -> list vec := zip_with bdiv.

(** Addition of two rows of the same width (no broadcasting), as done by
    the in-place accumulation of [scatter_add_]. *)
Definition vadd : vec -> vec -> vec := zip_with Rplus.

Definition sum_vec (v : vec) : R := foldr Rplus 0 v.
Definition dot (a b : vec) : R := sum_vec (zip_with Rmult a b).

(** [v.norm(dim=-1)] *)
Definition norm (v : vec) : R := sqrt (dot v v).

(** [t[idx]] for an index tensor produced inside the forward pass.  An
    index past the end yields the empty row; PyTorch raises there. *)
Definition index_select {A : Type} `{Inhabited A} (t : list A) (idx : list nat) : list A :=
  map (fun i => t !!! i) idx.

(** [t[mask]] for a boolean mask: the shapes must agree. *)
Fixpoint mask_filter {A : Type} (mask : list bool) (t : list A) : list A :=
  match mask, t with
  | m :: mask', x :: t' => if m then x :: mask_filter mask' t' else mask_filter mask' t'
  | _, _ => []
  end.

Definition mask_select {A : Type} (t : list A) (mask : list bool) : result (list A) :=
  if Nat.eqb (length mask) (length t) then ok (mask_filter mask t)
  else raise (IndexError "The shape of the mask does not match the shape of the indexed tensor").

(** *** [torch_scatter.scatter]

    [scatter(src, index, dim=0, dim_size=None, reduce=...)] on an
    [[E, width]] tensor.  Without [dim_size] the output has
    [index.max() + 1] rows, and no row when [index] is empty. *)

Definition scatter_dim_size (index : list nat) (dim_size : option nat) : nat :=
  match dim_size with
  | Some n => n
  | None => match index with [] => 0%nat | _ => S (max_list index) end
  end.

(** [out.scatter_add_(0, index, src)]: [out[index[e]] += src[e]] for each
    [e] in turn. *)
Definition scatter_add_ (out : list vec) (index : list nat) (src : list vec) : list vec :=
  foldl (fun acc '(i, v) => alter (fun o => vadd o v) i acc) out (zip index src).

Definition scatter_sum (src : list vec) (index : list nat) (width : nat)
    (dim_size : option nat) : list vec :=
  scatter_add_ (replicate (scatter_dim_size index dim_size) (zeros width)) index src.

(** [scatter_mean]: the sum divided by the number of contributions,
    the count being clamped to at least one. *)
Definition scatter_mean (src : list vec) (index : list nat) (width : nat)
    (dim_size : option nat) : list vec :=
  let out := scatter_sum src index width dim_size in
  let ones := map (fun _ => [1]) index in
  let count := scatter_sum ones index 1 (Some (length out)) in
  let count := map (map (Rmax 1)) count in
  tdiv out count.

Definition scatter (src : list vec) (index : list nat) (width : nat)
    (dim_size : option nat) (reduce : string) : list vec :=
  if String.eqb reduce "mean" then scatter_mean src index width dim_size
  else scatter_sum src index width dim_size.

(** Width of a non-empty [[N, F]] tensor. *)
Definition width (t : list vec) : nat := length (hd [] t).

(** ** [torch.nn] layers *)

Record Linear := mkLinear { weight : list vec; bias : option vec }.

Definition out_features (l : Linear) : nat := length (weight l).

(** [nn.Linear.forward] on one row: [x W^T + b]. *)
Definition Linear_forward (l : Linear) (x : vec) : vec :=
  let y := map (fun row => dot row x) (weight l) in
  match bias l with
  | Some b => badd y b
  | None => y
  end.

(** [nn.Embedding.forward]: a table lookup that raises on an index outside
    the table. *)
Definition Embedding_forward (table : list vec) (idx : list Z) : result (list vec) :=
  rmapM (fun i =>
    match (if (0 <=? i)%Z then table !! Z.to_nat i else None) with
    | Some row => ok row
    | None => raise (IndexError "index out of range in self")
    end) idx.

(** [bias.data.fill_(c)] *)
Definition fill_ (c : R) (v : vec) : vec := map (fun _ => c) v.

Definition Linear_fill_bias (c : R) (l : Linear) : Linear :=
  {| weight := weight l; bias := option_map (fill_ c) (bias l) |}.

Definition Linear_set_weight (w : list vec) (l : Linear) : Linear :=
  {| weight := w; bias := bias l |}.

(** [dst.data.copy_(src)] for a destination of shape [[rows, cols]] and a
    two-dimensional source: the source must broadcast to the shape of the
    destination, a dimension of size one being repeated, and the
    destination keeps its shape; otherwise [RuntimeError].  (A source of
    one dimension and [n] elements broadcasts as the single row
    [[1, n]]; a list with rows of different lengths stands for no tensor
    and is refused.) *)
Definition broadcast_row (cols : nat) (row : vec) : vec :=
  if Nat.eqb (length row) cols then row else replicate cols (hd 0 row).

Definition copy_ (rows cols : nat) (src : list vec) : result (list vec) :=
  let r := length src in
  let c := width src in
  if andb (forallb (fun row => Nat.eqb (length row) c) src)
          (andb (orb (Nat.eqb c cols) (Nat.eqb c 1)) (orb (Nat.eqb r rows) (Nat.eqb r 1)))
  then
    let src := map (broadcast_row cols) src in
    ok (if Nat.eqb r rows then src else replicate rows (hd [] src))
  else
    raise (RuntimeError ("The expanded size of the tensor must match the existing size "
                         +:+ "at a non-singleton dimension")).

(** ** The random number generator

    [uniform_ a b n] and [normal_ n] stand for filling a tensor of [n]
    elements from U(a, b) and from N(0, 1); both advance the generator. *)

Class Generator := {
  rng : Type;
  uniform_ : R -> R -> nat -> rng -> vec * rng;
  normal_ : nat -> rng -> vec * rng
}.

Section Init.
Context {gen : Generator}.

Fixpoint fill_rows (draw : nat -> rng -> vec * rng) (rows cols : nat) (g : rng)
    : list vec * rng :=
  match rows with
  | O => ([], g)
  | S r =>
      let '(v, g1) := draw cols g in
      let '(m, g2) := fill_rows draw r cols g1 in
      (v :: m, g2)
  end.

(** [nn.Linear(in_features, out_features, bias)]: weight and bias start
    uniform in [(-1/sqrt(in_features), 1/sqrt(in_features))]. *)
Definition Linear_new (in_features out_features : nat) (with_bias : bool) (g : rng)
    : Linear * rng :=
  let bound := 1 / sqrt (INR in_features) in
  let '(w, g1) := fill_rows (uniform_ (- bound) bound) out_features in_features g in
  if with_bias then
    let '(b, g2) := uniform_ (- bound) bound out_features g1 in
    ({| weight := w; bias := Some b |}, g2)
  else ({| weight := w; bias := None |}, g1).

(** [nn.init.xavier_uniform_(w)]: U(-a, a) with
    [a = sqrt(6 / (fan_in + fan_out))]. *)
Definition xavier_bound (fan_in fan_out : nat) : R :=
  sqrt (6 / INR (fan_in + fan_out)).

Definition xavier_uniform_ (w : list vec) (g : rng) : list vec * rng :=
  let fan_out := length w in
  let fan_in := width w in
  let a := xavier_bound fan_in fan_out in
  fill_rows (uniform_ (- a) a) fan_out fan_in g.

(** [nn.init.xavier_uniform_(l.weight)] on a layer. *)
Definition Linear_xavier (l : Linear) (g : rng) : Linear * rng :=
  let '(w, g1) := xavier_uniform_ (weight l) g in
  (Linear_set_weight w l, g1).

(** [nn.Embedding(num_embeddings, embedding_dim)]: N(0, 1) entries. *)
Definition Embedding_new (num_embeddings embedding_dim : nat) (g : rng)
    : list vec * rng :=
  fill_rows normal_ num_embeddings embedding_dim g.
End Init.

(** ** [class CFConv(MessagePassing)] *)

Module CFConv.

(** [self.net] is the [nn.Sequential] object owned by the enclosing
    interaction block ([self.mlp] there): one object with two names.  It
    is stored once, in the block, and handed to [forward] by the block. *)
Record t := mk { lin1 : Linear; lin2 : Linear; cutoff : R -> R }.

Section Init.
Context {gen : Generator}.

(** [reset_parameters] (lines 250-253) *)
Definition reset_parameters (self : t) (g : rng) : t * rng :=
  let '(l1, g1) := Linear_xavier (lin1 self) g in
  let '(l2, g2) := Linear_xavier (lin2 self) g1 in
  let l2 := Linear_fill_bias 0 l2 in
  ({| lin1 := l1; lin2 := l2; cutoff := cutoff self |}, g2).

(** [__init__] (lines 240-248); [CosineCutoff(cutoff_lower, cutoff_upper)]
    is passed in already built. *)
Definition new (in_channels out_channels num_filters : nat) (cutoff : R -> R)
    (g : rng) : t * rng :=
  let '(l1, g1) := Linear_new in_channels num_filters false g in
  let '(l2, g2) := Linear_new num_filters out_channels true g1 in
  reset_parameters {| lin1 := l1; lin2 := l2; cutoff := cutoff |} g2.
End Init.

(** [message(x_j, W)] (lines 264-265), on the [[E, F]] tensors. *)
Definition message (x_j W : list vec) : list vec := tmul x_j W.

(** [MessagePassing.propagate] with [aggr='add'] and the default flow:
    [x_j = x[edge_index[0]]], and the messages are summed into the row
    [edge_index[1]] of a tensor with as many rows as [x]. *)
Definition propagate (edge_index : list (nat * nat)) (x W : list vec) (F : nat)
    : list vec :=
  let x_j := index_select x (edge_index.*1) in
  scatter_sum (message x_j W) (edge_index.*2) F (Some (length x)).

(** [forward] (lines 255-262) *)
Definition forward (self : t) (net : vec -> vec) (x : list vec)
    (edge_index : list (nat * nat)) (edge_weight : list R) (edge_attr : list vec)
    : list vec :=
  let C := map (cutoff self) edge_weight in
  let W := tmul (map net edge_attr) (map (fun c => [c]) C) in
  let x := map (Linear_forward (lin1 self)) x in
  let x := propagate edge_index x W (out_features (lin1 self)) in
  let x := map (Linear_forward (lin2 self)) x in
  x.

End CFConv.

(** ** [class InteractionBlock(nn.Module)] *)

Module InteractionBlock.

(** [mlp_0], [mlp_1], [mlp_2] are [self.mlp[0]], [self.mlp[1]] and
    [self.mlp[2]]. *)
Record t := mk {
  mlp_0 : Linear;
  mlp_1 : R -> R;
  mlp_2 : Linear;
  conv : CFConv.t;
  act : R -> R;
  lin : Linear
}.

(** [self.mlp(e)] on one row. *)
Definition mlp (self : t) (e : vec) : vec :=
  Linear_forward (mlp_2 self) (map (mlp_1 self) (Linear_forward (mlp_0 self) e)).

Section Init.
Context {gen : Generator}.

(** [reset_parameters] (lines 223-230), statement by statement. *)
Definition reset_parameters (self : t) (g : rng) : t * rng :=
  (* nn.init.xavier_uniform_(self.mlp[0].weight) *)
  let '(m0, g1) := Linear_xavier (mlp_0 self) g in
  (* self.mlp[0].bias.data.fill_(0) *)
  let m0 := Linear_fill_bias 0 m0 in
  (* nn.init.xavier_uniform_(self.mlp[2].weight) *)
  let '(m2, g2) := Linear_xavier (mlp_2 self) g1 in
  (* self.mlp[0].bias.data.fill_(0) *)
  let m0 := Linear_fill_bias 0 m0 in
  (* self.conv.reset_parameters() *)
  let '(c, g3) := CFConv.reset_parameters (conv self) g2 in
  (* nn.init.xavier_uniform_(self.lin.weight) *)
  let '(l, g4) := Linear_xavier (lin self) g3 in
  (* self.lin.bias.data.fill_(0) *)
  let l := Linear_fill_bias 0 l in
  ({| mlp_0 := m0; mlp_1 := mlp_1 self; mlp_2 := m2; conv := c;
      act := act self; lin := l |}, g4).

(** [__init__] (lines 208-221); [activation()] is an elementwise
    function and [cutoff] is [CosineCutoff(cutoff_lower, cutoff_upper)]. *)
Definition new (hidden_channels num_rbf num_filters : nat) (activation : R -> R)
    (cutoff : R -> R) (g : rng) : t * rng :=
  let '(m0, g1) := Linear_new num_rbf num_filters true g in
  let '(m2, g2) := Linear_new num_filters num_filters true g1 in
  let '(c, g3) := CFConv.new hidden_channels hidden_channels num_filters cutoff g2 in
  let '(l, g4) := Linear_new hidden_channels hidden_channels true g3 in
  reset_parameters {| mlp_0 := m0; mlp_1 := activation; mlp_2 := m2; conv := c;
                      act := activation; lin := l |} g4.
End Init.

(** [forward] (lines 232-236) *)
Definition forward (self : t) (x : list vec) (edge_index : list (nat * nat))
    (edge_weight : list R) (edge_attr : list vec) : list vec :=
  let x := CFConv.forward (conv self) (mlp self) x edge_index edge_weight edge_attr in
  let x := map (map (act self)) x in
  let x := map (Linear_forward (lin self)) x in
  x.

End InteractionBlock.


(** ** What the file imports *)

(** Modelled from the spec: the names imported from
    [torchmdnet.models.utils], whose source is not part of this file.
    [CosineCutoff lower upper] is the cutoff envelope, a function of the
    distance; the two registries are Python dicts (association lists in
    insertion order) from an identifier to a radial-basis constructor
    [cls(cutoff_lower, cutoff_upper, num_rbf, trainable)], which yields the
    expansion of a distance into [num_rbf] features, and to an elementwise
    activation; [NeighborEmbedding] is a module with its own parameters. *)
Class Utils {gen : Generator} := {
  CosineCutoff : R -> R -> R -> R;
  rbf_class_mapping : list (string * (R -> R -> nat -> bool -> result (R -> vec)));
  act_class_mapping : list (string * (R -> R));
  NeighborEmbedding : Type;
  NeighborEmbedding_new : nat -> nat -> R -> R -> rng -> result (NeighborEmbedding * rng);
  NeighborEmbedding_forward :
    NeighborEmbedding -> list Z -> list vec -> list (nat * nat) -> list R -> list vec
    -> list vec
}.

(** Other packages: [torch_geometric.nn.radius_graph(pos, r, batch)], whose
    result is the list of the columns [(edge_index[0][e], edge_index[1][e])];
    the table [ase.data.atomic_masses]; and the value computed by
    [torch.autograd.grad(f(x), x, grad_outputs=ones)[0]]. *)
Class Packages := {
  radius_graph : list vec -> R -> list nat -> list (nat * nat);
  atomic_masses : list R;
  autograd_grad : (list vec -> list vec) -> list vec -> list vec
}.

#[global] Instance R_inhabited : Inhabited R := populate 0.

(** Python dicts with string keys, in insertion order. *)
Definition dict_in {V : Type} (k : string) (d : list (string * V)) : bool :=
  existsb (String.eqb k) (d.*1).

Fixpoint dict_get {V : Type} (k : string) (d : list (string * V)) : result V :=
  match d with
  | [] => raise (Raise "KeyError" k)
  | (k', v) :: d' => if String.eqb k k' then ok v else dict_get k d'
  end.

(** [", ".join(d.keys())] *)
Definition join_keys {V : Type} (d : list (string * V)) : string :=
  String.concat ", " (d.*1).

Definition dquote : string := String (ascii_of_nat 34) EmptyString.

(** ** The computation graph seen by [torch.autograd]

    A tensor of the graph is named by the order in which it was created and
    carries the names of all tensors it was computed from. *)

Module Autograd.

Record tensor := mk { id : nat; deps : list nat }.

(** The result of an operation applied to [inputs], created as tensor
    number [n]. *)
Definition apply (inputs : list tensor) (n : nat) : tensor * nat :=
  ({| id := n; deps := flat_map (fun t => id t :: deps t) inputs |}, S n).

(** [torch.autograd.grad(output, input)] with the default
    [allow_unused=False] raises unless [input] is part of the graph that
    computed [output]. *)
Definition used (output input : tensor) : bool :=
  bool_decide (id input ∈ id output :: deps output).

Definition unused_error : exn :=
  RuntimeError ("One of the differentiated Tensors appears to not have been used in the graph. "
                +:+ "Set allow_unused=True if this is the desired behavior.").

End Autograd.

(** ** Formatting

    What an f-string prints for the values of [__repr__]: [str] of a
    [bool] and of an [int] (the decimal numeral, [pretty]) are written
    out; [str] of a [float] and the [__repr__] that [nn.Module] gives the
    neighbour embedding are fields of a class. *)

Definition str_bool (b : bool) : string := if b then "True" else "False".

Class Format {gen : Generator} {utils : Utils} := {
  str_float : R -> string;
  NeighborEmbedding_repr : NeighborEmbedding -> string
}.

(** ** [class TorchMD_GN(nn.Module)] *)

Module TorchMD_GN.

(** The arguments of [__init__]. *)
Record Config := mkConfig {
  cfg_hidden_channels : nat;
  cfg_num_filters : nat;
  cfg_num_interactions : nat;
  cfg_num_rbf : nat;
  cfg_rbf_type : string;
  cfg_trainable_rbf : bool;
  cfg_activation : string;
  cfg_neighbor_embedding : bool;
  cfg_cutoff_lower : R;
  cfg_cutoff_upper : R;
  cfg_readout : string;
  cfg_dipole : bool;
  cfg_mean : option R;
  cfg_std : option R;
  cfg_atomref : option (list vec);
  cfg_derivative : bool;
  cfg_atom_filter : Z
}.

(** The default values of the signature (line 63-67). *)
Definition defaults : Config :=
  {| cfg_hidden_channels := 128; cfg_num_filters := 128; cfg_num_interactions := 6;
     cfg_num_rbf := 50; cfg_rbf_type := "expnorm"; cfg_trainable_rbf := true;
     cfg_activation := "silu"; cfg_neighbor_embedding := true;
     cfg_cutoff_lower := 0; cfg_cutoff_upper := 5; cfg_readout := "add";
     cfg_dipole := false; cfg_mean := None; cfg_std := None; cfg_atomref := None;
     cfg_derivative := false; cfg_atom_filter := 0 |}.

Section Model.
Context {gen : Generator} {utils : Utils} {pkgs : Packages}.

(** The attributes of a constructed model. *)
Record t := mk {
  hidden_channels : nat;
  num_filters : nat;
  num_interactions : nat;
  num_rbf : nat;
  rbf_type : string;
  trainable_rbf : bool;
  activation : string;
  cutoff_lower : R;
  cutoff_upper : R;
  readout : string;
  dipole : bool;
  mean : option R;
  std : option R;
  derivative : bool;
  atom_filter : Z;
  atomic_mass : list R;
  embedding : list vec;
  distance_expansion : R -> vec;
  neighbor_embedding : option NeighborEmbedding;
  interactions : list InteractionBlock.t;
  lin1 : Linear;
  act : R -> R;
  lin2 : Linear;
  initial_atomref : option (list vec);
  atomref : option (list vec)
}.

(** The three assertions that open [__init__] (lines 70-74).  An [assert]
    without a message raises [AssertionError] with an empty message. *)
Definition rbf_message (rbf_type : string) : string :=
  "Unknown RBF type " +:+ dquote +:+ rbf_type +:+ dquote +:+ ". "
  +:+ "Choose from " +:+ join_keys rbf_class_mapping +:+ ".".

Definition activation_message (activation : string) : string :=
  "Unknown activation function " +:+ dquote +:+ activation +:+ dquote +:+ ". "
  +:+ "Choose from " +:+ join_keys act_class_mapping +:+ ".".

Definition check_arguments (cfg : Config) : result unit :=
  let* _ := assert (bool_decide (cfg_readout cfg ∈ ["add"; "sum"; "mean"])) EmptyString in
  let* _ := assert (dict_in (cfg_rbf_type cfg) rbf_class_mapping)
                   (rbf_message (cfg_rbf_type cfg)) in
  let* _ := assert (dict_in (cfg_activation cfg) act_class_mapping)
                   (activation_message (cfg_activation cfg)) in
  ok tt.

Fixpoint reset_interactions (l : list InteractionBlock.t) (g : rng)
    : list InteractionBlock.t * rng :=
  match l with
  | [] => ([], g)
  | interaction :: l' =>
      let '(b, g1) := InteractionBlock.reset_parameters interaction g in
      let '(bs, g2) := reset_interactions l' g1 in
      (b :: bs, g2)
  end.

(** [reset_parameters] (lines 124-133) *)
Definition reset_parameters (self : t) (g : rng) : result (t * rng) :=
  (* self.embedding.reset_parameters() *)
  let '(emb, g1) := fill_rows normal_ (length (embedding self)) (width (embedding self)) g in
  let '(blocks, g2) := reset_interactions (interactions self) g1 in
  let '(l1, g3) := Linear_xavier (lin1 self) g2 in
  let l1 := Linear_fill_bias 0 l1 in
  let '(l2, g4) := Linear_xavier (lin2 self) g3 in
  let l2 := Linear_fill_bias 0 l2 in
  (* if self.atomref is not None:
         self.atomref.weight.data.copy_(self.initial_atomref) *)
  let* aref := match atomref self with
               | Some w =>
                   match initial_atomref self with
                   | Some src =>
                       let* w := copy_ (length w) (width w) src in
                       ok (Some w)
                   | None => raise (Raise "TypeError" "copy_(): argument must be Tensor")
                   end
               | None => ok None
               end in
  ok ({| hidden_channels := hidden_channels self; num_filters := num_filters self;
         num_interactions := num_interactions self; num_rbf := num_rbf self;
         rbf_type := rbf_type self; trainable_rbf := trainable_rbf self;
         activation := activation self; cutoff_lower := cutoff_lower self;
         cutoff_upper := cutoff_upper self; readout := readout self;
         dipole := dipole self; mean := mean self; std := std self;
         derivative := derivative self; atom_filter := atom_filter self;
         atomic_mass := atomic_mass self; embedding := emb;
         distance_expansion := distance_expansion self;
         neighbor_embedding := neighbor_embedding self; interactions := blocks;
         lin1 := l1; act := act self; lin2 := l2;
         initial_atomref := initial_atomref self; atomref := aref |}, g4).

(** The loop of lines 107-110. *)
Fixpoint new_interactions (n : nat) (hidden_channels num_rbf num_filters : nat)
    (act_class : R -> R) (cutoff : R -> R) (g : rng) : list InteractionBlock.t * rng :=
  match n with
  | O => ([], g)
  | S n' =>
      let '(block, g1) :=
        InteractionBlock.new hidden_channels num_rbf num_filters act_class cutoff g in
      let '(blocks, g2) :=
        new_interactions n' hidden_channels num_rbf num_filters act_class cutoff g1 in
      (block :: blocks, g2)
  end.

(** [__init__] (lines 63-122) *)
Definition new (cfg : Config) (g : rng) : result (t * rng) :=
  let* _ := check_arguments cfg in
  let* act_class := dict_get (cfg_activation cfg) act_class_mapping in
  let '(emb, g1) := Embedding_new 100 (cfg_hidden_channels cfg) g in
  let* rbf_class := dict_get (cfg_rbf_type cfg) rbf_class_mapping in
  let* expansion := rbf_class (cfg_cutoff_lower cfg) (cfg_cutoff_upper cfg)
                              (cfg_num_rbf cfg) (cfg_trainable_rbf cfg) in
  let* (ne, g2) :=
    if cfg_neighbor_embedding cfg then
      let* (ne, g2) := NeighborEmbedding_new (cfg_hidden_channels cfg) (cfg_num_rbf cfg)
                          (cfg_cutoff_lower cfg) (cfg_cutoff_upper cfg) g1 in
      ok (Some ne, g2)
    else ok (None, g1) in
  let '(blocks, g3) :=
    new_interactions (cfg_num_interactions cfg) (cfg_hidden_channels cfg)
      (cfg_num_rbf cfg) (cfg_num_filters cfg) act_class
      (CosineCutoff (cfg_cutoff_lower cfg) (cfg_cutoff_upper cfg)) g2 in
  let '(l1, g4) :=
    Linear_new (cfg_hidden_channels cfg) (cfg_hidden_channels cfg / 2) true g3 in
  let '(l2, g5) := Linear_new (cfg_hidden_channels cfg / 2) 1 true g4 in
  (* self.atomref = nn.Embedding(100, 1); self.atomref.weight.data.copy_(atomref) *)
  let* (aref, g5) := match cfg_atomref cfg with
                     | Some src => let '(_, g') := Embedding_new 100 1 g5 in
                                   let* w := copy_ 100 1 src in
                                   ok (Some w, g')
                     | None => ok (None, g5)
                     end in
  let* (self, g6) :=
    reset_parameters
      {| hidden_channels := cfg_hidden_channels cfg; num_filters := cfg_num_filters cfg;
         num_interactions := cfg_num_interactions cfg; num_rbf := cfg_num_rbf cfg;
         rbf_type := cfg_rbf_type cfg; trainable_rbf := cfg_trainable_rbf cfg;
         activation := cfg_activation cfg; cutoff_lower := cfg_cutoff_lower cfg;
         cutoff_upper := cfg_cutoff_upper cfg;
         (* self.readout = 'add' if dipole else readout *)
         readout := if cfg_dipole cfg then "add"%string else cfg_readout cfg;
         dipole := cfg_dipole cfg; mean := cfg_mean cfg; std := cfg_std cfg;
         derivative := cfg_derivative cfg; atom_filter := cfg_atom_filter cfg;
         atomic_mass := atomic_masses; embedding := emb;
         distance_expansion := expansion; neighbor_embedding := ne;
         interactions := blocks; lin1 := l1; act := act_class; lin2 := l2;
         initial_atomref := cfg_atomref cfg; atomref := aref |} g5 in
  ok (self, g6).

(** *** [forward] (lines 135-189)

    The value returned: [out], or the pair [(out, dy)]. *)
Inductive output :=
  | Out (out : list vec)
  | OutDy (out dy : list vec).

(** [(pos[row] - pos[col]).norm(dim=-1)] with [row, col = edge_index]
    (lines 145-146). *)
Definition edge_weights (pos : list vec) (edge_index : list (nat * nat)) : list R :=
  map norm (tsub (index_select pos (edge_index.*1)) (index_select pos (edge_index.*2))).

(** Lines 142-153: embedding, neighbour graph, radial features, the
    optional neighbour embedding and the residual interaction stack. *)
Definition forward_features (self : t) (z : list Z) (pos : list vec) (batch : list nat)
    : result (list vec) :=
  let* h := Embedding_forward (embedding self) z in
  let edge_index := radius_graph pos (cutoff_upper self) batch in
  let edge_weight := edge_weights pos edge_index in
  let edge_attr := map (distance_expansion self) edge_weight in
  let h := match neighbor_embedding self with
           | Some ne => NeighborEmbedding_forward ne z h edge_index edge_weight edge_attr
           | None => h
           end in
  let h := foldl (fun h interaction =>
                    tadd h (InteractionBlock.forward interaction h edge_index
                              edge_weight edge_attr))
                 h (interactions self) in
  ok h.

(** Lines 155-160: drop atoms according to the filter. *)
Definition forward_filter (self : t) (h : list vec) (z : list Z) (pos : list vec)
    (batch : list nat) : result (list vec * list Z * list vec * list nat) :=
  let atom_mask := map (fun zi => (atom_filter self <? zi)%Z) z in
  let* h := mask_select h atom_mask in
  let* z := mask_select z atom_mask in
  let* pos := mask_select pos atom_mask in
  let* batch := mask_select batch atom_mask in
  ok (h, z, pos, batch).

(** Lines 162-165: the output network on the remaining atoms. *)
Definition output_network (self : t) (h : list vec) : list vec :=
  let h := map (Linear_forward (lin1 self)) h in
  let h := map (map (act self)) h in
  let h := map (Linear_forward (lin2 self)) h in
  h.

(** Lines 167-171: the dipole branch. *)
Definition dipole_branch (self : t) (h : list vec) (z : list Z) (pos : list vec)
    (batch : list nat) : list vec :=
  if dipole self then
    (* Get center of mass. *)
    let mass := map (fun m => [m]) (index_select (atomic_mass self) (map Z.to_nat z)) in
    let c := tdiv (scatter_sum (tmul mass pos) batch (width (tmul mass pos)) None)
                  (scatter_sum mass batch 1 None) in
    tmul h (tsub pos (index_select c batch))
  else h.

(** Lines 173-174: [h = h * self.std + self.mean]. *)
Definition rescale (self : t) (h : list vec) : list vec :=
  match dipole self, mean self, std self with
  | false, Some mean, Some std => map (map (fun x => x * std + mean)) h
  | _, _, _ => h
  end.

(** Lines 176-177: [h = h + self.atomref(z)]. *)
Definition reference (self : t) (h : list vec) (z : list Z) : result (list vec) :=
  match dipole self, atomref self with
  | false, Some table =>
      let* ref := Embedding_forward table z in
      ok (tadd h ref)
  | _, _ => ok h
  end.

(** Lines 162-177 together: the per-atom contributions. *)
Definition forward_atoms (self : t) (h : list vec) (z : list Z) (pos : list vec)
    (batch : list nat) : result (list vec) :=
  let h := output_network self h in
  let h := dipole_branch self h z pos batch in
  let h := rescale self h in
  reference self h z.

(** Lines 179-182: the readout over molecules.  Of the reductions of
    [torch_scatter] only those that [__init__] admits are written out. *)
Definition forward_readout (self : t) (h : list vec) (batch : list nat)
    : result (list vec) :=
  let* out :=
    if bool_decide (readout self ∈ ["sum"; "add"; "mean"])
    then ok (scatter h batch (width h) None (readout self))
    else raise (Raise "ValueError" EmptyString) in
  let out := if dipole self then map (fun v => [norm v]) out else out in
  ok out.

(** [out] as computed from the tensors left by the atom filter. *)
Definition forward_out (self : t) (h : list vec) (z : list Z) (pos : list vec)
    (batch : list nat) : result (list vec) :=
  let* h := forward_atoms self h z pos batch in
  forward_readout self h batch.

(** The graph of one call, one tensor per assignment of [forward]; the
    parameters and buffers of the modules are left out.  Returns the
    tensors bound to [out] and to [pos] when line 184 is reached. *)
Fixpoint graph_interactions (k : nat) (h edge_index edge_weight edge_attr : Autograd.tensor)
    (n : nat) : Autograd.tensor * nat :=
  match k with
  | O => (h, n)
  | S k' =>
      (* interaction(h, edge_index, edge_weight, edge_attr) *)
      let '(x, n) := Autograd.apply [h; edge_index; edge_weight; edge_attr] n in
      (* h = h + ... *)
      let '(h, n) := Autograd.apply [h; x] n in
      graph_interactions k' h edge_index edge_weight edge_attr n
  end.

Definition forward_graph (self : t) (batch_given : bool)
    : Autograd.tensor * Autograd.tensor :=
  let n := O in
  let '(z, n) := Autograd.apply [] n in
  let '(pos, n) := Autograd.apply [] n in
  let '(batch, n) := if batch_given then Autograd.apply [] n else Autograd.apply [z] n in
  let '(h, n) := Autograd.apply [z] n in
  let '(edge_index, n) := Autograd.apply [pos; batch] n in
  let '(edge_weight, n) := Autograd.apply [pos; edge_index] n in
  let '(edge_attr, n) := Autograd.apply [edge_weight] n in
  let '(h, n) := match neighbor_embedding self with
                 | Some _ => Autograd.apply [z; h; edge_index; edge_weight; edge_attr] n
                 | None => (h, n)
                 end in
  let '(h, n) := graph_interactions (length (interactions self)) h edge_index
                   edge_weight edge_attr n in
  let '(atom_mask, n) := Autograd.apply [z] n in
  let '(h, n) := Autograd.apply [h; atom_mask] n in
  let '(z, n) := Autograd.apply [z; atom_mask] n in
  let '(pos, n) := Autograd.apply [pos; atom_mask] n in
  let '(batch, n) := Autograd.apply [batch; atom_mask] n in
  let '(h, n) := Autograd.apply [h] n in
  let '(h, n) := Autograd.apply [h] n in
  let '(h, n) := Autograd.apply [h] n in
  let '(h, n) :=
    if dipole self then
      let '(mass, n) := Autograd.apply [z] n in
      let '(c, n) := Autograd.apply [mass; pos; batch] n in
      Autograd.apply [h; pos; c; batch] n
    else (h, n) in
  let '(h, n) :=
    match dipole self, mean self, std self with
    | false, Some _, Some _ => Autograd.apply [h] n
    | _, _, _ => (h, n)
    end in
  let '(h, n) :=
    match dipole self, atomref self with
    | false, Some _ => Autograd.apply [h; z] n
    | _, _ => (h, n)
    end in
  let '(out, n) := Autograd.apply [h; batch] n in
  let '(out, n) := if dipole self then Autograd.apply [out] n else (out, n) in
  (out, pos).

(** Lines 162-189 on the tensors left by the atom filter: [out], and the
    derivative with respect to the tensor then bound to [pos]. *)
Definition forward_result (self : t) (batch_given : bool) (h : list vec) (z : list Z)
    (pos : list vec) (batch : list nat) : result output :=
  let* out := forward_out self h z pos batch in
  if derivative self then
    let '(graph_out, graph_pos) := forward_graph self batch_given in
    if Autograd.used graph_out graph_pos then
      let f := fun p => match forward_out self h z p batch with
                        | inr o => o
                        | inl _ => []
                        end in
      let dy := map (map Ropp) (autograd_grad f pos) in
      ok (OutDy out dy)
    else raise Autograd.unused_error
  else ok (Out out).

Definition forward (self : t) (z : list Z) (pos : list vec) (batch : option (list nat))
    : result output :=
  (* assert z.dim() == 1 and z.dtype == torch.long: by the type of z *)
  let batch_given := bool_decide (is_Some batch) in
  let batch := match batch with
               | None => map (fun _ => O) z
               | Some batch => batch
               end in
  let* h := forward_features self z pos batch in
  let* (h, z, pos, batch) := forward_filter self h z pos batch in
  forward_result self batch_given h z pos batch.

(** [__repr__] (lines 191-204).  [self.neighbor_embedding] is, since line
    102, the module or [None]; [self.__class__.__name__] is the name of
    this class. *)
Section Repr.
Context {fmt : Format}.

Definition __repr__ (self : t) : string :=
  "TorchMD_GN" +:+ "("
  +:+ "hidden_channels=" +:+ pretty (hidden_channels self) +:+ ", "
  +:+ "num_filters=" +:+ pretty (num_filters self) +:+ ", "
  +:+ "num_interactions=" +:+ pretty (num_interactions self) +:+ ", "
  +:+ "num_rbf=" +:+ pretty (num_rbf self) +:+ ", "
  +:+ "rbf_type=" +:+ rbf_type self +:+ ", "
  +:+ "trainable_rbf=" +:+ str_bool (trainable_rbf self) +:+ ", "
  +:+ "activation=" +:+ activation self +:+ ", "
  +:+ "neighbor_embedding="
  +:+ match neighbor_embedding self with
      | Some ne => NeighborEmbedding_repr ne
      | None => "None"
      end +:+ ", "
  +:+ "cutoff_lower=" +:+ str_float (cutoff_lower self) +:+ ", "
  +:+ "cutoff_upper=" +:+ str_float (cutoff_upper self) +:+ ", "
  +:+ "derivative=" +:+ str_bool (derivative self) +:+ ", "
  +:+ "atom_filter=" +:+ pretty (atom_filter self) +:+ ")".
End Repr.

End Model.
End TorchMD_GN.

(** ** The continuous-filter convolution as the specification words it

    The edge set of the specification: ordered pairs (receiver, sender),
    each with its distance and radial features. *)
Record Edge := mkEdge {
  receiver : nat;
  sender : nat;
  distance : R;
  radial_features : vec
}.

(** The tensors [edge_index], [edge_weight] and [edge_attr] of an edge set. *)
Definition edge_index_of (edges : list Edge) : list (nat * nat) :=
  map (fun e => (sender e, receiver e)) edges.
Definition edge_weight_of (edges : list Edge) : list R := map distance edges.
Definition edge_attr_of (edges : list Edge) : list vec := map radial_features edges.

(** A linear projection without and with bias. *)
Definition project (W : list vec) (v : vec) : vec := map (fun row => dot row v) W.
Definition project_bias (W : list vec) (b : vec) (v : vec) : vec :=
  zip_with Rplus (project W v) b.

Section CFConvSpec.
(** The parameters of one block: the two layers of the filter network and
    its nonlinearity, the cutoff envelope, the projection of the sender
    features and the output projection. *)
Variables (W0 : list vec) (b0 : vec) (sigma : R -> R) (W2 : list vec) (b2 : vec).
Variable envelope : R -> R.
Variables (W_in W_out : list vec) (b_out : vec).
Variable num_filters : nat.

(** Step 2: the two-layer transform of the radial features, multiplied
    elementwise by the envelope at the edge's distance. *)
Definition spec_filter (e : Edge) : vec :=
  map (fun f => f * envelope (distance e))
      (project_bias W2 b2 (map sigma (project_bias W0 b0 (radial_features e)))).

(** Steps 3 and 4: the message on an edge. *)
Definition spec_message (x : list vec) (e : Edge) : vec :=
  zip_with Rmult (project W_in (x !!! sender e)) (spec_filter e).

(** Step 5: the sum over the edges with receiver [i]; the zero vector when
    there is none. *)
Definition spec_aggregate (x : list vec) (edges : list Edge) (i : nat) : vec :=
  foldr (zip_with Rplus) (zeros num_filters)
        (map (spec_message x) (filter (fun e => receiver e = i) edges)).

(** Step 6, for every atom. *)
Definition spec_cfconv (x : list vec) (edges : list Edge) : list vec :=
  map (fun i => project_bias W_out b_out (spec_aggregate x edges i)) (seq 0 (length x)).
End CFConvSpec.

(** The shapes of the layers of a block with [num_filters] filters and
    [hidden] channels, as [InteractionBlock.__init__] builds them: the
    projection of the sender features has no bias, the other layers have
    one. *)
Definition block_shape (num_filters hidden : nat) (b : InteractionBlock.t)
    (b0 b2 b_out : vec) : Prop :=
  bias (InteractionBlock.mlp_0 b) = Some b0 /\ length b0 = num_filters /\
  length (weight (InteractionBlock.mlp_0 b)) = num_filters /\
  bias (InteractionBlock.mlp_2 b) = Some b2 /\ length b2 = num_filters /\
  length (weight (InteractionBlock.mlp_2 b)) = num_filters /\
  bias (CFConv.lin1 (InteractionBlock.conv b)) = None /\
  length (weight (CFConv.lin1 (InteractionBlock.conv b))) = num_filters /\
  bias (CFConv.lin2 (InteractionBlock.conv b)) = Some b_out /\
  length b_out = hidden /\
  length (weight (CFConv.lin2 (InteractionBlock.conv b))) = hidden.

(** The rows of [src] sent to row [i]. *)
Definition incoming (i : nat) (index : list nat) (src : list vec) : list vec :=
  (filter (fun p => p.1 = i) (zip index src)).*2.

(** ** A small instance

    A generator whose draws from U(a, b) all fall at three quarters of the
    interval, the cosine cutoff for a lower bound of zero, two radial bases
    and two activations, a neighbour embedding that leaves the features as
    they are, and the radius graph without a bound on the number of
    neighbours. *)
#[global] Instance Rlt_decision (a b : R) : Decision (a < b) := Rlt_dec a b.

Definition example_generator : Generator :=
  {| rng := unit;
     uniform_ := fun a b n g => (replicate n ((a + b) / 2 + (b - a) / 4), g);
     normal_ := fun n g => (replicate n 1, g) |}.

Definition example_cutoff (lower upper d : R) : R :=
  if decide (d < upper) then / 2 * (cos (d * PI / upper) + 1) else 0.

Definition example_gauss (lower upper : R) (num_rbf : nat) (trainable : bool)
    : result (R -> vec) :=
  ok (fun d => map (fun k => exp (- (d - INR k) * (d - INR k))) (seq 0 num_rbf)).

Definition example_expnorm (lower upper : R) (num_rbf : nat) (trainable : bool)
    : result (R -> vec) :=
  ok (fun d => map (fun k => exp (- (exp (- d) - INR k) * (exp (- d) - INR k)))
                   (seq 0 num_rbf)).

Definition example_utils : @Utils example_generator :=
  {| CosineCutoff := example_cutoff;
     rbf_class_mapping := [("gauss"%string, example_gauss);
                           ("expnorm"%string, example_expnorm)];
     act_class_mapping := [("silu"%string, fun x => x / (1 + exp (- x)));
                           ("tanh"%string, tanh)];
     NeighborEmbedding := unit;
     NeighborEmbedding_new := fun _ _ _ _ g => ok (tt, g);
     NeighborEmbedding_forward := fun _ _ h _ _ _ => h |}.

Definition example_radius_graph (pos : list vec) (r : R) (batch : list nat)
    : list (nat * nat) :=
  filter (fun p => p.1 <> p.2 /\ batch !! p.1 = batch !! p.2
                   /\ norm (bsub (pos !!! p.1) (pos !!! p.2)) < r)
         (list_prod (seq 0 (length pos)) (seq 0 (length pos))).

Definition example_packages : Packages :=
  {| radius_graph := example_radius_graph;
     atomic_masses := replicate 119 1;
     autograd_grad := fun _ x => map (map (fun _ => 0)) x |}.

(** The two floats of the examples, as Python prints them, and a neighbour
    embedding without submodules. *)
Definition example_format : @Format example_generator example_utils :=
  {| str_float := fun x => if decide (x < 1) then "0.0"%string else "5.0"%string;
     NeighborEmbedding_repr := fun _ => "NeighborEmbedding()"%string |}.

Definition example_block : InteractionBlock.t :=
  {| InteractionBlock.mlp_0 := {| weight := [[1]; [1]]; bias := Some [0; 0] |};
     InteractionBlock.mlp_1 := tanh;
     InteractionBlock.mlp_2 := {| weight := [[1; 0]; [0; 1]]; bias := Some [0; 0] |};
     InteractionBlock.conv :=
       {| CFConv.lin1 := {| weight := [[1; 0]; [0; 1]]; bias := None |};
          CFConv.lin2 := {| weight := [[1; 0]; [0; 1]]; bias := Some [0; 0] |};
          CFConv.cutoff := example_cutoff 0 5 |};
     InteractionBlock.act := tanh;
     InteractionBlock.lin := {| weight := [[1; 0]; [0; 1]]; bias := Some [0; 0] |} |}.

Definition example_edges : list Edge :=
  [ {| receiver := 0; sender := 1; distance := 1; radial_features := [1] |};
    {| receiver := 1; sender := 0; distance := 1; radial_features := [1] |} ].

Definition example_model (dipole derivative : bool) (mean std : option R)
    (atom_filter : Z) : @TorchMD_GN.t example_generator example_utils :=
  {| TorchMD_GN.hidden_channels := 2; TorchMD_GN.num_filters := 2;
     TorchMD_GN.num_interactions := 1; TorchMD_GN.num_rbf := 1;
     TorchMD_GN.rbf_type := "gauss"; TorchMD_GN.trainable_rbf := true;
     TorchMD_GN.activation := "tanh"; TorchMD_GN.cutoff_lower := 0;
     TorchMD_GN.cutoff_upper := 5; TorchMD_GN.readout := "add";
     TorchMD_GN.dipole := dipole; TorchMD_GN.mean := mean; TorchMD_GN.std := std;
     TorchMD_GN.derivative := derivative; TorchMD_GN.atom_filter := atom_filter;
     TorchMD_GN.atomic_mass := replicate 119 1;
     TorchMD_GN.embedding := replicate 100 [1; 0];
     TorchMD_GN.distance_expansion := fun d => [exp (- d * d)];
     TorchMD_GN.neighbor_embedding :=
       Some (tt : @NeighborEmbedding example_generator example_utils);
     TorchMD_GN.interactions := [example_block];
     TorchMD_GN.lin1 := {| weight := [[1; 1]]; bias := Some [0] |};
     TorchMD_GN.act := tanh;
     TorchMD_GN.lin2 := {| weight := [[1]]; bias := Some [0] |};
     TorchMD_GN.initial_atomref := None; TorchMD_GN.atomref := None |}.

(** Constructor arguments: the defaults with smaller layers and the two
    identifiers registered in [example_utils]. *)
Definition example_config (rbf_type readout : string) (dipole : bool)
    : TorchMD_GN.Config :=
  {| TorchMD_GN.cfg_hidden_channels := 2; TorchMD_GN.cfg_num_filters := 2;
     TorchMD_GN.cfg_num_interactions := 1; TorchMD_GN.cfg_num_rbf := 1;
     TorchMD_GN.cfg_rbf_type := rbf_type; TorchMD_GN.cfg_trainable_rbf := true;
     TorchMD_GN.cfg_activation := "tanh"; TorchMD_GN.cfg_neighbor_embedding := true;
     TorchMD_GN.cfg_cutoff_lower := 0; TorchMD_GN.cfg_cutoff_upper := 5;
     TorchMD_GN.cfg_readout := readout; TorchMD_GN.cfg_dipole := dipole;
     TorchMD_GN.cfg_mean := None; TorchMD_GN.cfg_std := None;
     TorchMD_GN.cfg_atomref := None; TorchMD_GN.cfg_derivative := false;
     TorchMD_GN.cfg_atom_filter := 0 |}.

(** A quarter turn about the third axis. *)
Definition turn_z : list vec := [[0; -1; 0]; [1; 0; 0]; [0; 0; 1]].

(** ** Auxiliary definitions of the statements *)

(** The sum of a list of rows of width [w]. *)
Definition sum_rows (w : nat) (rows : list vec) : vec := foldr vadd (zeros w) rows.

(** The atoms of a call, one record per row of the four tensors. *)
Record Atom := mkAtom {
  atom_features : vec;
  atomic_number : Z;
  position : vec;
  molecule_id : nat
}.

Fixpoint atoms (h : list vec) (z : list Z) (pos : list vec) (batch : list nat)
    : list Atom :=
  match h, z, pos, batch with
  | x :: h', n :: z', p :: pos', b :: batch' =>
      mkAtom x n p b :: atoms h' z' pos' batch'
  | _, _, _, _ => []
  end.

(** The first component of what [forward] returns. *)
Definition out_of (res : TorchMD_GN.output) : list vec :=
  match res with
  | TorchMD_GN.Out out => out
  | TorchMD_GN.OutDy out _ => out
  end.

(** The molecule ids of the atoms that pass the filter of [forward]. *)
Definition remaining_ids (atom_filter : Z) (z : list Z) (batch : option (list nat))
    : list nat :=
  mask_filter (map (fun zi => (atom_filter <? zi)%Z) z)
              (match batch with
               | None => map (fun _ => O) z
               | Some batch => batch
               end).

(** The same constructor arguments with another cutoff window. *)
Definition with_cutoff (lower upper : R) (cfg : TorchMD_GN.Config) : TorchMD_GN.Config :=
  {| TorchMD_GN.cfg_hidden_channels := TorchMD_GN.cfg_hidden_channels cfg;
     TorchMD_GN.cfg_num_filters := TorchMD_GN.cfg_num_filters cfg;
     TorchMD_GN.cfg_num_interactions := TorchMD_GN.cfg_num_interactions cfg;
     TorchMD_GN.cfg_num_rbf := TorchMD_GN.cfg_num_rbf cfg;
     TorchMD_GN.cfg_rbf_type := TorchMD_GN.cfg_rbf_type cfg;
     TorchMD_GN.cfg_trainable_rbf := TorchMD_GN.cfg_trainable_rbf cfg;
     TorchMD_GN.cfg_activation := TorchMD_GN.cfg_activation cfg;
     TorchMD_GN.cfg_neighbor_embedding := TorchMD_GN.cfg_neighbor_embedding cfg;
     TorchMD_GN.cfg_cutoff_lower := lower;
     TorchMD_GN.cfg_cutoff_upper := upper;
     TorchMD_GN.cfg_readout := TorchMD_GN.cfg_readout cfg;
     TorchMD_GN.cfg_dipole := TorchMD_GN.cfg_dipole cfg;
     TorchMD_GN.cfg_mean := TorchMD_GN.cfg_mean cfg;
     TorchMD_GN.cfg_std := TorchMD_GN.cfg_std cfg;
     TorchMD_GN.cfg_atomref := TorchMD_GN.cfg_atomref cfg;
     TorchMD_GN.cfg_derivative := TorchMD_GN.cfg_derivative cfg;
     TorchMD_GN.cfg_atom_filter := TorchMD_GN.cfg_atom_filter cfg |}.

(** The same constructor arguments with another reference table. *)
Definition with_atomref (aref : option (list vec)) (cfg : TorchMD_GN.Config)
    : TorchMD_GN.Config :=
  {| TorchMD_GN.cfg_hidden_channels := TorchMD_GN.cfg_hidden_channels cfg;
     TorchMD_GN.cfg_num_filters := TorchMD_GN.cfg_num_filters cfg;
     TorchMD_GN.cfg_num_interactions := TorchMD_GN.cfg_num_interactions cfg;
     TorchMD_GN.cfg_num_rbf := TorchMD_GN.cfg_num_rbf cfg;
     TorchMD_GN.cfg_rbf_type := TorchMD_GN.cfg_rbf_type cfg;
     TorchMD_GN.cfg_trainable_rbf := TorchMD_GN.cfg_trainable_rbf cfg;
     TorchMD_GN.cfg_activation := TorchMD_GN.cfg_activation cfg;
     TorchMD_GN.cfg_neighbor_embedding := TorchMD_GN.cfg_neighbor_embedding cfg;
     TorchMD_GN.cfg_cutoff_lower := TorchMD_GN.cfg_cutoff_lower cfg;
     TorchMD_GN.cfg_cutoff_upper := TorchMD_GN.cfg_cutoff_upper cfg;
     TorchMD_GN.cfg_readout := TorchMD_GN.cfg_readout cfg;
     TorchMD_GN.cfg_dipole := TorchMD_GN.cfg_dipole cfg;
     TorchMD_GN.cfg_mean := TorchMD_GN.cfg_mean cfg;
     TorchMD_GN.cfg_std := TorchMD_GN.cfg_std cfg;
     TorchMD_GN.cfg_atomref := aref;
     TorchMD_GN.cfg_derivative := TorchMD_GN.cfg_derivative cfg;
     TorchMD_GN.cfg_atom_filter := TorchMD_GN.cfg_atom_filter cfg |}.

Section Updates.
Context {gen : Generator} {utils : Utils}.

(** The same model with other values of [self.mean] and [self.std]. *)
Definition with_mean_std (m s : option R) (self : TorchMD_GN.t) : TorchMD_GN.t :=
  {| TorchMD_GN.hidden_channels := TorchMD_GN.hidden_channels self;
     TorchMD_GN.num_filters := TorchMD_GN.num_filters self;
     TorchMD_GN.num_interactions := TorchMD_GN.num_interactions self;
     TorchMD_GN.num_rbf := TorchMD_GN.num_rbf self;
     TorchMD_GN.rbf_type := TorchMD_GN.rbf_type self;
     TorchMD_GN.trainable_rbf := TorchMD_GN.trainable_rbf self;
     TorchMD_GN.activation := TorchMD_GN.activation self;
     TorchMD_GN.cutoff_lower := TorchMD_GN.cutoff_lower self;
     TorchMD_GN.cutoff_upper := TorchMD_GN.cutoff_upper self;
     TorchMD_GN.readout := TorchMD_GN.readout self;
     TorchMD_GN.dipole := TorchMD_GN.dipole self;
     TorchMD_GN.mean := m; TorchMD_GN.std := s;
     TorchMD_GN.derivative := TorchMD_GN.derivative self;
     TorchMD_GN.atom_filter := TorchMD_GN.atom_filter self;
     TorchMD_GN.atomic_mass := TorchMD_GN.atomic_mass self;
     TorchMD_GN.embedding := TorchMD_GN.embedding self;
     TorchMD_GN.distance_expansion := TorchMD_GN.distance_expansion self;
     TorchMD_GN.neighbor_embedding := TorchMD_GN.neighbor_embedding self;
     TorchMD_GN.interactions := TorchMD_GN.interactions self;
     TorchMD_GN.lin1 := TorchMD_GN.lin1 self; TorchMD_GN.act := TorchMD_GN.act self;
     TorchMD_GN.lin2 := TorchMD_GN.lin2 self;
     TorchMD_GN.initial_atomref := TorchMD_GN.initial_atomref self;
     TorchMD_GN.atomref := TorchMD_GN.atomref self |}.
(** The same model with other values of [self.mean], [self.std] and
    [self.atomref]. *)
Definition with_reference (m s : option R) (aref : option (list vec))
    (self : TorchMD_GN.t) : TorchMD_GN.t :=
  {| TorchMD_GN.hidden_channels := TorchMD_GN.hidden_channels self;
     TorchMD_GN.num_filters := TorchMD_GN.num_filters self;
     TorchMD_GN.num_interactions := TorchMD_GN.num_interactions self;
     TorchMD_GN.num_rbf := TorchMD_GN.num_rbf self;
     TorchMD_GN.rbf_type := TorchMD_GN.rbf_type self;
     TorchMD_GN.trainable_rbf := TorchMD_GN.trainable_rbf self;
     TorchMD_GN.activation := TorchMD_GN.activation self;
     TorchMD_GN.cutoff_lower := TorchMD_GN.cutoff_lower self;
     TorchMD_GN.cutoff_upper := TorchMD_GN.cutoff_upper self;
     TorchMD_GN.readout := TorchMD_GN.readout self;
     TorchMD_GN.dipole := TorchMD_GN.dipole self;
     TorchMD_GN.mean := m;
     TorchMD_GN.std := s;
     TorchMD_GN.derivative := TorchMD_GN.derivative self;
     TorchMD_GN.atom_filter := TorchMD_GN.atom_filter self;
     TorchMD_GN.atomic_mass := TorchMD_GN.atomic_mass self;
     TorchMD_GN.embedding := TorchMD_GN.embedding self;
     TorchMD_GN.distance_expansion := TorchMD_GN.distance_expansion self;
     TorchMD_GN.neighbor_embedding := TorchMD_GN.neighbor_embedding self;
     TorchMD_GN.interactions := TorchMD_GN.interactions self;
     TorchMD_GN.lin1 := TorchMD_GN.lin1 self;
     TorchMD_GN.act := TorchMD_GN.act self;
     TorchMD_GN.lin2 := TorchMD_GN.lin2 self;
     TorchMD_GN.initial_atomref := TorchMD_GN.initial_atomref self;
     TorchMD_GN.atomref := aref |}.

(** The same model with another value of [self.derivative]. *)
Definition with_derivative (d : bool) (self : TorchMD_GN.t) : TorchMD_GN.t :=
  {| TorchMD_GN.hidden_channels := TorchMD_GN.hidden_channels self;
     TorchMD_GN.num_filters := TorchMD_GN.num_filters self;
     TorchMD_GN.num_interactions := TorchMD_GN.num_interactions self;
     TorchMD_GN.num_rbf := TorchMD_GN.num_rbf self;
     TorchMD_GN.rbf_type := TorchMD_GN.rbf_type self;
     TorchMD_GN.trainable_rbf := TorchMD_GN.trainable_rbf self;
     TorchMD_GN.activation := TorchMD_GN.activation self;
     TorchMD_GN.cutoff_lower := TorchMD_GN.cutoff_lower self;
     TorchMD_GN.cutoff_upper := TorchMD_GN.cutoff_upper self;
     TorchMD_GN.readout := TorchMD_GN.readout self;
     TorchMD_GN.dipole := TorchMD_GN.dipole self;
     TorchMD_GN.mean := TorchMD_GN.mean self;
     TorchMD_GN.std := TorchMD_GN.std self;
     TorchMD_GN.derivative := d;
     TorchMD_GN.atom_filter := TorchMD_GN.atom_filter self;
     TorchMD_GN.atomic_mass := TorchMD_GN.atomic_mass self;
     TorchMD_GN.embedding := TorchMD_GN.embedding self;
     TorchMD_GN.distance_expansion := TorchMD_GN.distance_expansion self;
     TorchMD_GN.neighbor_embedding := TorchMD_GN.neighbor_embedding self;
     TorchMD_GN.interactions := TorchMD_GN.interactions self;
     TorchMD_GN.lin1 := TorchMD_GN.lin1 self;
     TorchMD_GN.act := TorchMD_GN.act self;
     TorchMD_GN.lin2 := TorchMD_GN.lin2 self;
     TorchMD_GN.initial_atomref := TorchMD_GN.initial_atomref self;
     TorchMD_GN.atomref := TorchMD_GN.atomref self |}.
End Updates.

(** ** Rigid transforms, relabellings and what is assumed of the imports *)

(** The rigid transform [p |-> M p + t] of a position. *)
Definition rigid (M : list vec) (t : vec) (p : vec) : vec := vadd (project M p) t.

(** A rotation matrix: three rows of three entries, orthonormal columns,
    determinant one. *)
Definition is_rotation (M : list vec) : Prop :=
  exists a b c d e f g h i,
    M = [[a; b; c]; [d; e; f]; [g; h; i]]
    /\ a * a + d * d + g * g = 1 /\ b * b + e * e + h * h = 1
    /\ c * c + f * f + i * i = 1
    /\ a * b + d * e + g * h = 0 /\ a * c + d * f + g * i = 0
    /\ b * c + e * f + h * i = 0
    /\ a * (e * i - f * h) - b * (d * i - f * g) + c * (d * h - e * g) = 1.

(** All rows of a tensor have width [w]. *)
Definition uniform (w : nat) (t : list vec) : Prop := Forall (fun row => length row = w) t.

(** The parameters of [nn.Linear(i, o, bias)]: a weight of [o] rows of [i]
    entries and, with [bias], a bias of [o] entries. *)
Definition Linear_shape (i o : nat) (with_bias : bool) (l : Linear) : Prop :=
  length (weight l) = o /\ uniform i (weight l)
  /\ if with_bias then exists b, bias l = Some b /\ length b = o else bias l = None.

(** The layers of [InteractionBlock(hidden_channels, num_rbf, num_filters,
    ...)] (lines 211-219 and 243-244). *)
Definition block_dims (hidden_channels num_rbf num_filters : nat) (b : InteractionBlock.t)
    : Prop :=
  Linear_shape num_rbf num_filters true (InteractionBlock.mlp_0 b)
  /\ Linear_shape num_filters num_filters true (InteractionBlock.mlp_2 b)
  /\ Linear_shape hidden_channels num_filters false (CFConv.lin1 (InteractionBlock.conv b))
  /\ Linear_shape num_filters hidden_channels true (CFConv.lin2 (InteractionBlock.conv b))
  /\ Linear_shape hidden_channels hidden_channels true (InteractionBlock.lin b).

(** The biases that [InteractionBlock.reset_parameters] fills with zero. *)
Definition block_zero_biases (hidden_channels num_filters : nat) (b : InteractionBlock.t)
    : Prop :=
  bias (InteractionBlock.mlp_0 b) = Some (zeros num_filters)
  /\ bias (CFConv.lin2 (InteractionBlock.conv b)) = Some (zeros hidden_channels)
  /\ bias (InteractionBlock.lin b) = Some (zeros hidden_channels).

(** A generator that fills a tensor of [n] elements with [n] values. *)
Definition generator_lengths {gen : Generator} : Prop :=
  (forall a b n g, length (uniform_ a b n g).1 = n)
  /\ (forall n g, length (normal_ n g).1 = n).

(** The width of [a op b] under broadcasting. *)
Definition bop_len (la lb : nat) : nat :=
  if Nat.eqb la 1 then lb else if Nat.eqb lb 1 then la else Nat.min la lb.

(** The message that [CFConv.forward] computes on one edge, and one row of
    its result. *)
Definition code_message (self : CFConv.t) (net : vec -> vec) (x : list vec) (e : Edge) : vec :=
  bmul (map (Linear_forward (CFConv.lin1 self)) x !!! sender e)
       (bmul (net (radial_features e)) [CFConv.cutoff self (distance e)]).

Definition cfconv_row (self : CFConv.t) (net : vec -> vec) (x : list vec)
    (edges : list Edge) (i : nat) : vec :=
  Linear_forward (CFConv.lin2 self)
    (foldl vadd (zeros (out_features (CFConv.lin1 self)))
       (map (code_message self net x) (filter (fun e => receiver e = i) edges))).

(** The edge set that [forward] builds from [edge_index] (lines 145-147). *)
Definition edges_of (rbf : R -> vec) (pos : list vec) (edge_index : list (nat * nat))
    : list Edge :=
  map (fun p => let d := norm (bsub (pos !!! p.1) (pos !!! p.2)) in
                {| receiver := p.2; sender := p.1; distance := d;
                   radial_features := rbf d |}) edge_index.

Definition edges_in_range (n : nat) (edges : list Edge) : Prop :=
  Forall (fun e => (sender e < n)%nat /\ (receiver e < n)%nat) edges.

(** A relabelling of the atoms is a list [sigma], a permutation of
    [0, ..., n-1]: atom [k] of the relabelled system is atom [sigma[k]] of
    the original one, so a tensor [X] becomes [index_select X sigma].  An
    edge of the relabelled system, read in the original labels: *)
Definition relabel (sigma : list nat) (e : Edge) : Edge :=
  {| receiver := sigma !!! receiver e; sender := sigma !!! sender e;
     distance := distance e; radial_features := radial_features e |}.

Definition relabel_pair (sigma : list nat) (p : nat * nat) : nat * nat :=
  (sigma !!! p.1, sigma !!! p.2).

Definition rmap {A B : Type} (f : A -> B) (m : result A) : result B :=
  match m with
  | inl e => inl e
  | inr a => inr (f a)
  end.

(** [batch], or [zeros_like(z)] when it is omitted (line 137). *)
Definition batch_of (z : list Z) (batch : option (list nat)) : list nat :=
  match batch with
  | None => map (fun _ => O) z
  | Some batch => batch
  end.

(** The relabelling [tau] of the atoms left by the filter, applied to what
    [forward] returns: [out] has one row per molecule and stays, [dy] has
    one row per remaining atom. *)
Definition permute_output (tau : list nat) (res : TorchMD_GN.output) : TorchMD_GN.output :=
  match res with
  | TorchMD_GN.Out out => TorchMD_GN.Out out
  | TorchMD_GN.OutDy out dy => TorchMD_GN.OutDy out (index_select dy tau)
  end.

(** A tensor of the graph created before number [n]. *)
Definition below (n : nat) (t : Autograd.tensor) : Prop :=
  (Autograd.id t < n)%nat /\ Forall (fun d => (d < n)%nat) (Autograd.deps t).

Section Assumptions.
Context {gen : Generator} {utils : Utils} {pkgs : Packages}.

(** The edges returned by [radius_graph] join atoms of the system. *)
Definition radius_graph_in_range : Prop :=
  forall pos r batch,
    Forall (fun p => (p.1 < length pos)%nat /\ (p.2 < length pos)%nat)
           (radius_graph pos r batch).

(** The neighbour graph of a relabelled system is the relabelled neighbour
    graph, as a set of edges. *)
Definition radius_graph_equivariant : Prop :=
  forall sigma pos r batch,
    sigma ≡ₚ seq 0 (length pos) -> length batch = length pos ->
    map (relabel_pair sigma)
        (radius_graph (index_select pos sigma) r (index_select batch sigma))
    ≡ₚ radius_graph pos r batch.

(** The neighbour graph of the transformed positions is that of the
    positions, as a set of edges. *)
Definition radius_graph_rigid (M : list vec) (t : vec) : Prop :=
  forall pos r batch,
    uniform 3 pos ->
    radius_graph (map (rigid M t) pos) r batch ≡ₚ radius_graph pos r batch.

(** The neighbour embedding returns one row per atom, does not depend on
    the order of the edges and commutes with a relabelling of the atoms. *)
Definition neighbor_embedding_equivariant (ne : NeighborEmbedding) : Prop :=
  forall sigma z h edges edges',
    sigma ≡ₚ seq 0 (length z) -> length h = length z ->
    edges_in_range (length z) edges' ->
    map (relabel sigma) edges' ≡ₚ edges ->
    length (NeighborEmbedding_forward ne z h (edge_index_of edges)
              (edge_weight_of edges) (edge_attr_of edges)) = length z
    /\ NeighborEmbedding_forward ne (index_select z sigma) (index_select h sigma)
         (edge_index_of edges') (edge_weight_of edges') (edge_attr_of edges')
       = index_select
           (NeighborEmbedding_forward ne z h (edge_index_of edges)
              (edge_weight_of edges) (edge_attr_of edges)) sigma.

(** The neighbour embedding returns one row per atom. *)
Definition neighbor_embedding_rows (ne : NeighborEmbedding) : Prop :=
  forall z h edge_index edge_weight edge_attr,
    length h = length z ->
    length (NeighborEmbedding_forward ne z h edge_index edge_weight edge_attr) = length z.

(** The parameters of a model with the shapes that lines 98-114 give
    them. *)
Definition model_dims (self : TorchMD_GN.t) : Prop :=
  length (TorchMD_GN.embedding self) = 100%nat
  /\ uniform (TorchMD_GN.hidden_channels self) (TorchMD_GN.embedding self)
  /\ length (TorchMD_GN.interactions self) = TorchMD_GN.num_interactions self
  /\ Forall (block_dims (TorchMD_GN.hidden_channels self) (TorchMD_GN.num_rbf self)
               (TorchMD_GN.num_filters self))
            (TorchMD_GN.interactions self)
  /\ Linear_shape (TorchMD_GN.hidden_channels self) (TorchMD_GN.hidden_channels self / 2)
       true (TorchMD_GN.lin1 self)
  /\ Linear_shape (TorchMD_GN.hidden_channels self / 2) 1 true (TorchMD_GN.lin2 self).

(** The gradient has the shape of its argument and commutes with a
    relabelling of the rows of the argument. *)
Definition autograd_equivariant : Prop :=
  forall (f f' : list vec -> list vec) (tau : list nat) (x : list vec),
    tau ≡ₚ seq 0 (length x) ->
    (forall p, length p = length x -> (forall w, uniform w x -> uniform w p) ->
               f' (index_select p tau) = f p) ->
    length (autograd_grad f x) = length x
    /\ autograd_grad f' (index_select x tau) = index_select (autograd_grad f x) tau.

(** The reference table has one column, as [nn.Embedding(100, 1)]. *)
Definition atomref_uniform (self : TorchMD_GN.t) : Prop :=
  forall table, TorchMD_GN.atomref self = Some table -> uniform 1 table.

(** Lines 142-153 of [forward] as a function of the edge set. *)
Definition features_of_edges (self : TorchMD_GN.t) (z : list Z) (edges : list Edge)
    : result (list vec) :=
  let* h := Embedding_forward (TorchMD_GN.embedding self) z in
  let h := match TorchMD_GN.neighbor_embedding self with
           | Some ne => NeighborEmbedding_forward ne z h (edge_index_of edges)
                          (edge_weight_of edges) (edge_attr_of edges)
           | None => h
           end in
  ok (foldl (fun h b => tadd h (InteractionBlock.forward b h (edge_index_of edges)
                                  (edge_weight_of edges) (edge_attr_of edges)))
            h (TorchMD_GN.interactions self)).
End Assumptions.

(* END-DEFINITIONS *)

(** * Properties *)

(** ** Rows and [scatter] *)

Lemma vadd_swap (o a b : vec) : vadd (vadd o a) b = vadd (vadd o b) a.
Proof.
  unfold vadd. revert a b.
  induction o as [|x o IH]; intros [|y a] [|z b]; simpl; try reflexivity.
  f_equal; [lra | apply IH].
Qed.

Lemma vadd_comm (a b : vec) : vadd a b = vadd b a.
Proof.
  unfold vadd. revert b.
  induction a as [|x a IH]; intros [|y b]; simpl; try reflexivity.
  f_equal; [lra | apply IH].
Qed.

Lemma vadd_assoc (a b c : vec) : vadd a (vadd b c) = vadd (vadd a b) c.
Proof.
  unfold vadd. revert b c.
  induction a as [|x a IH]; intros [|y b] [|z c]; simpl; try reflexivity.
  f_equal; [lra | apply IH].
Qed.

Lemma foldl_vadd_perm (l l' : list vec) :
  l ≡ₚ l' -> forall o, foldl vadd o l = foldl vadd o l'.
Proof.
  induction 1 as [|x l l' _ IH|x y l|l l' l'' _ IH1 _ IH2]; intros o; simpl.
  - reflexivity.
  - apply IH.
  - now rewrite vadd_swap.
  - now rewrite IH1.
Qed.

Lemma foldl_vadd_foldr (l : list vec) (o : vec) :
  foldl vadd o l = foldr vadd o l.
Proof.
  revert o. induction l as [|x l IH]; intros o; simpl; [reflexivity|].
  rewrite IH. clear IH. revert o.
  induction l as [|y l IH]; intros o; simpl.
  - apply vadd_comm.
  - rewrite IH. rewrite !vadd_assoc. f_equal. apply vadd_comm.
Qed.

Lemma scatter_add__lookup (index : list nat) (src out : list vec) (i : nat) :
  scatter_add_ out index src !! i
  = (fun o => foldl vadd o (incoming i index src)) <$> (out !! i).
Proof.
  unfold scatter_add_, incoming.
  revert src out.
  induction index as [|j index IH]; intros [|v src] out; simpl;
    try (destruct (out !! i); reflexivity).
  rewrite IH. destruct (decide (j = i)) as [->|Hne].
  - rewrite filter_cons_True by reflexivity.
    rewrite list_lookup_alter_eq. destruct (out !! i); reflexivity.
  - rewrite filter_cons_False by (simpl; congruence).
    rewrite list_lookup_alter_ne by congruence. reflexivity.
Qed.

Lemma scatter_add__length (index : list nat) (src out : list vec) :
  length (scatter_add_ out index src) = length out.
Proof.
  unfold scatter_add_. revert src out.
  induction index as [|j index IH]; intros [|v src] out; simpl; try reflexivity.
  rewrite IH. apply length_alter.
Qed.

Lemma scatter_sum_length (src : list vec) (index : list nat) (w : nat) (d : option nat) :
  length (scatter_sum src index w d) = scatter_dim_size index d.
Proof.
  unfold scatter_sum. rewrite scatter_add__length. apply length_replicate.
Qed.

Lemma scatter_sum_lookup (src : list vec) (index : list nat) (w : nat) (d : option nat)
    (i : nat) :
  (i < scatter_dim_size index d)%nat ->
  scatter_sum src index w d !! i = Some (foldl vadd (zeros w) (incoming i index src)).
Proof.
  intros Hi. unfold scatter_sum. rewrite scatter_add__lookup.
  rewrite lookup_replicate_2 by exact Hi. reflexivity.
Qed.

(** A tensor is the list of its rows. *)
Lemma list_eq_seq {A : Type} `{Inhabited A} (l : list A) :
  l = map (fun i => l !!! i) (seq 0 (length l)).
Proof.
  apply list_eq. intros i. rewrite list_lookup_fmap.
  destruct (decide (i < length l)%nat) as [Hi|Hi].
  - rewrite lookup_seq_lt by exact Hi. simpl.
    destruct (lookup_lt_is_Some_2 l i Hi) as [x Hx].
    rewrite Hx. f_equal. symmetry. now apply list_lookup_total_correct.
  - rewrite lookup_seq_ge by lia. simpl. apply lookup_ge_None_2. lia.
Qed.

Lemma bop_same_length (op : R -> R -> R) (a b : vec) :
  length a = length b -> bop op a b = zip_with op a b.
Proof.
  destruct a as [|x [|x' a]], b as [|y [|y' b]]; simpl; intros Hl;
    try discriminate; reflexivity.
Qed.

Lemma bop_scalar_r (op : R -> R -> R) (a : vec) (t : R) :
  bop op a [t] = map (fun x => op x t) a.
Proof. destruct a as [|x [|x' a]]; reflexivity. Qed.

Lemma length_project (W : list vec) (v : vec) : length (project W v) = length W.
Proof. unfold project. apply length_map. Qed.

Lemma Linear_forward_bias (l : Linear) (b v : vec) :
  bias l = Some b -> length b = length (weight l) ->
  Linear_forward l v = project_bias (weight l) b v.
Proof.
  intros Hb Hl. unfold Linear_forward, project_bias. rewrite Hb.
  apply bop_same_length. fold (project (weight l) v). rewrite length_project. lia.
Qed.

Lemma Linear_forward_no_bias (l : Linear) (v : vec) :
  bias l = None -> Linear_forward l v = project (weight l) v.
Proof. intros Hb. unfold Linear_forward. now rewrite Hb. Qed.

Lemma length_project_bias (W : list vec) (b v : vec) :
  length b = length W -> length (project_bias W b v) = length W.
Proof.
  intros Hl. unfold project_bias. rewrite length_zip_with, length_project. lia.
Qed.

Section CFConvRefinement.
Variables (F hidden : nat) (b : InteractionBlock.t) (b0 b2 b_out : vec).
Hypothesis Hshape : block_shape F hidden b b0 b2 b_out.

Let W0 := weight (InteractionBlock.mlp_0 b).
Let W2 := weight (InteractionBlock.mlp_2 b).
Let W_in := weight (CFConv.lin1 (InteractionBlock.conv b)).
Let envelope := CFConv.cutoff (InteractionBlock.conv b).
Let sigma := InteractionBlock.mlp_1 b.

Lemma filter_of_edges (edges : list Edge) :
  tmul (map (InteractionBlock.mlp b) (edge_attr_of edges))
       (map (fun c => [c]) (map envelope (edge_weight_of edges)))
  = map (spec_filter W0 b0 sigma W2 b2 envelope) edges.
Proof.
  destruct Hshape as (H0 & L0 & LW0 & H2 & L2 & LW2 & _).
  unfold tmul, edge_attr_of, edge_weight_of.
  induction edges as [|e edges IH]; simpl; [reflexivity|].
  f_equal; [|exact IH].
  unfold bmul. rewrite bop_scalar_r. unfold spec_filter, InteractionBlock.mlp.
  rewrite (Linear_forward_bias (InteractionBlock.mlp_0 b) b0) by (auto; lia).
  rewrite (Linear_forward_bias (InteractionBlock.mlp_2 b) b2) by (auto; lia).
  reflexivity.
Qed.

Lemma length_spec_filter (e : Edge) :
  length (spec_filter W0 b0 sigma W2 b2 envelope e) = F.
Proof.
  destruct Hshape as (H0 & L0 & LW0 & H2 & L2 & LW2 & _).
  unfold spec_filter. rewrite length_map. subst W2.
  rewrite length_project_bias; lia.
Qed.

Lemma messages_of_edges (x : list vec) (edges : list Edge) (i : nat) :
  Forall (fun e => (sender e < length x)%nat) edges ->
  incoming i ((edge_index_of edges).*2)
    (CFConv.message
       (index_select (map (Linear_forward (CFConv.lin1 (InteractionBlock.conv b))) x)
                     ((edge_index_of edges).*1))
       (map (spec_filter W0 b0 sigma W2 b2 envelope) edges))
  = map (spec_message W0 b0 sigma W2 b2 envelope W_in x)
        (filter (fun e => receiver e = i) edges).
Proof.
  pose proof Hshape as (_ & _ & _ & _ & _ & _ & H1 & L1 & _).
  unfold incoming, CFConv.message, tmul, index_select, edge_index_of.
  induction 1 as [|e edges He _ IH]; csimpl; [reflexivity|].
  assert (Hmsg : bmul (map (Linear_forward (CFConv.lin1 (InteractionBlock.conv b))) x
                         !!! sender e)
                      (spec_filter W0 b0 sigma W2 b2 envelope e)
                 = spec_message W0 b0 sigma W2 b2 envelope W_in x e).
  { unfold spec_message.
    rewrite (list_lookup_total_fmap
               (Linear_forward (CFConv.lin1 (InteractionBlock.conv b))) x (sender e))
      by exact He.
    rewrite Linear_forward_no_bias by exact H1.
    unfold bmul. apply bop_same_length.
    rewrite length_project, length_spec_filter. exact L1. }
  destruct (decide (receiver e = i)) as [Hr|Hr].
  - rewrite filter_cons_True by exact Hr.
    rewrite (filter_cons_True (fun e => receiver e = i)) by exact Hr.
    csimpl. now rewrite Hmsg, IH.
  - rewrite filter_cons_False by exact Hr.
    rewrite (filter_cons_False (fun e => receiver e = i)) by exact Hr.
    exact IH.
Qed.

Lemma cfconv_refines (x : list vec) (edges : list Edge) :
  Forall (fun e => (sender e < length x)%nat) edges ->
  CFConv.forward (InteractionBlock.conv b) (InteractionBlock.mlp b) x
    (edge_index_of edges) (edge_weight_of edges) (edge_attr_of edges)
  = spec_cfconv W0 b0 sigma W2 b2 envelope W_in
      (weight (CFConv.lin2 (InteractionBlock.conv b))) b_out F x edges.
Proof.
  intros Hs.
  pose proof Hshape as (_ & _ & _ & _ & _ & _ & H1 & L1 & Ho & Lo & LWo).
  unfold CFConv.forward, CFConv.propagate, spec_cfconv.
  rewrite filter_of_edges. unfold out_features. rewrite L1.
  apply list_eq. intros i. rewrite !list_lookup_fmap.
  destruct (decide (i < length x)%nat) as [Hi|Hi].
  - rewrite scatter_sum_lookup by (simpl; now rewrite length_map).
    rewrite lookup_seq_lt by exact Hi. simpl. f_equal.
    rewrite (Linear_forward_bias _ b_out) by (auto; lia).
    f_equal. rewrite messages_of_edges by exact Hs.
    unfold spec_aggregate. apply foldl_vadd_foldr.
  - rewrite lookup_seq_ge by lia.
    rewrite lookup_ge_None_2; [reflexivity|].
    rewrite scatter_sum_length. simpl. rewrite length_map. lia.
Qed.
End CFConvRefinement.

(** C1. For every block with the shapes that [__init__] gives it, every
    per-atom feature tensor and every edge set over these atoms,
    [CFConv.forward] returns what the six steps of the specification
    describe: the filter of an edge is the two-layer transform of its
    radial features times the cutoff envelope at its distance, the message
    is the elementwise product of the bias-free projection of the sender's
    features with that filter, the messages are summed at their receiver
    (the zero vector when there is none) and the sum is projected, with
    bias, to the output channels. *)
Theorem cfconv_forward_algorithm (F hidden : nat) (b : InteractionBlock.t)
    (b0 b2 b_out : vec) (x : list vec) (edges : list Edge) :
  block_shape F hidden b b0 b2 b_out ->
  Forall (fun e => (sender e < length x)%nat) edges ->
  CFConv.forward (InteractionBlock.conv b) (InteractionBlock.mlp b) x
    (edge_index_of edges) (edge_weight_of edges) (edge_attr_of edges)
  = spec_cfconv (weight (InteractionBlock.mlp_0 b)) b0 (InteractionBlock.mlp_1 b)
      (weight (InteractionBlock.mlp_2 b)) b2 (CFConv.cutoff (InteractionBlock.conv b))
      (weight (CFConv.lin1 (InteractionBlock.conv b)))
      (weight (CFConv.lin2 (InteractionBlock.conv b))) b_out F x edges.
Proof. intros Hshape Hs. now apply (cfconv_refines F hidden b b0 b2 b_out). Qed.

Lemma cfconv_forward_algorithm_witness :
  block_shape 2 2 example_block [0; 0] [0; 0] [0; 0]
  /\ Forall (fun e => (sender e < length [[1; 2]; [3; 4]])%nat) example_edges
  /\ CFConv.forward (InteractionBlock.conv example_block)
       (InteractionBlock.mlp example_block) [[1; 2]; [3; 4]]
       (edge_index_of example_edges) (edge_weight_of example_edges)
       (edge_attr_of example_edges)
     = spec_cfconv [[1]; [1]] [0; 0] tanh [[1; 0]; [0; 1]] [0; 0] (example_cutoff 0 5)
         [[1; 0]; [0; 1]] [[1; 0]; [0; 1]] [0; 0] 2 [[1; 2]; [3; 4]] example_edges.
Proof.
  assert (Hshape : block_shape 2 2 example_block [0; 0] [0; 0] [0; 0])
    by (unfold block_shape; simpl; repeat split; reflexivity).
  assert (Hs : Forall (fun e => (sender e < length [[1; 2]; [3; 4]])%nat) example_edges)
    by (repeat constructor; simpl; lia).
  split; [exact Hshape|]. split; [exact Hs|].
  exact (cfconv_forward_algorithm 2 2 example_block [0; 0] [0; 0] [0; 0]
           [[1; 2]; [3; 4]] example_edges Hshape Hs).
Defined.

(** An atom without incoming edge receives the zero vector. *)
Lemma spec_aggregate_isolated (W0 : list vec) (b0 : vec) (sigma : R -> R) (W2 : list vec)
    (b2 : vec) (envelope : R -> R) (W_in : list vec) (F : nat) (x : list vec)
    (edges : list Edge) (i : nat) :
  Forall (fun e => receiver e <> i) edges ->
  spec_aggregate W0 b0 sigma W2 b2 envelope W_in F x edges i = zeros F.
Proof.
  intros Hno. unfold spec_aggregate.
  replace (filter (fun e => receiver e = i) edges) with (@nil Edge); [reflexivity|].
  symmetry. induction Hno as [|e edges He _ IH]; [reflexivity|].
  now rewrite filter_cons_False.
Qed.

(** ** The model *)

Section Properties.
Context {gen : Generator} {utils : Utils} {pkgs : Packages}.
Import TorchMD_GN.

Lemma reset_parameters_fields (self self' : t) (g g' : rng) :
  reset_parameters self g = inr (self', g') ->
  readout self' = readout self /\ dipole self' = dipole self /\
  mean self' = mean self /\ std self' = std self /\
  derivative self' = derivative self /\ atom_filter self' = atom_filter self.
Proof.
  unfold reset_parameters.
  repeat match goal with
         | |- context [let '(_, _) := ?e in _] => destruct e as [? ?]
         end.
  match goal with
  | |- rbind ?m _ = _ -> _ => destruct m as [e|aref]; simpl; [discriminate|]
  end.
  intros Hr. injection Hr as <- <-. simpl. repeat split; reflexivity.
Qed.

Ltac new_step H :=
  match type of H with
  | rbind ?m _ = _ =>
      let E := fresh "E" in
      destruct m as [?|?] eqn:E; simpl in H; [discriminate H|]
  | (let '(_, _) := ?e in _) = _ =>
      let E := fresh "E" in destruct e as [? ?] eqn:E
  end.

Lemma new_fields (cfg : Config) (g g' : rng) (self : t) :
  new cfg g = inr (self, g') ->
  readout self = (if cfg_dipole cfg then "add"%string else cfg_readout cfg)
  /\ dipole self = cfg_dipole cfg
  /\ mean self = cfg_mean cfg /\ std self = cfg_std cfg
  /\ derivative self = cfg_derivative cfg
  /\ atom_filter self = cfg_atom_filter cfg.
Proof.
  unfold new. intros Hnew.
  repeat new_step Hnew.
  injection Hnew as <- <-.
  match goal with
  | E : reset_parameters ?s ?r = _ |- _ =>
      pose proof (reset_parameters_fields s _ r _ E) as Hf
  end.
  simpl in Hf. exact Hf.
Qed.

Lemma forward_result_mean_std (self : t) (m s : option R) (bg : bool) (h : list vec)
    (z : list Z) (pos : list vec) (batch : list nat) :
  dipole self = true \/ ((m = None \/ s = None) /\ (mean self = None \/ std self = None)) ->
  forward_result (with_mean_std m s self) bg h z pos batch
  = forward_result self bg h z pos batch.
Proof.
  intros Hcase.
  assert (Hresc : forall h', rescale (with_mean_std m s self) h' = rescale self h').
  { intros h'. unfold rescale. cbn [dipole mean std with_mean_std].
    destruct (dipole self), m, s, (mean self), (std self); try reflexivity;
      exfalso; intuition congruence. }
  assert (Hout : forall p, forward_out (with_mean_std m s self) h z p batch
                           = forward_out self h z p batch).
  { intros p. unfold forward_out, forward_atoms. now rewrite Hresc. }
  assert (Hgraph : forward_graph (with_mean_std m s self) bg = forward_graph self bg).
  { unfold forward_graph. cbn [dipole mean std with_mean_std neighbor_embedding
                               interactions atomref].
    destruct (dipole self), m, s, (mean self), (std self); try reflexivity;
      exfalso; intuition congruence. }
  unfold forward_result. rewrite Hgraph, Hout.
  cbn [derivative with_mean_std].
  destruct (forward_out self h z pos batch) as [e|out]; [reflexivity|]. simpl.
  destruct (derivative self); [|reflexivity].
  destruct (forward_graph self bg) as [go gp].
  destruct (Autograd.used go gp); [|reflexivity].
  do 3 f_equal. f_equal.
  apply functional_extensionality. intros p. now rewrite Hout.
Qed.

(** What a call that returns has computed: the features of lines 142-153,
    and [out] from the rows that the atom filter leaves. *)
Lemma forward_inv (self : t) (z : list Z) (pos : list vec) (batch : option (list nat))
    (res : output) :
  forward self z pos batch = ok res ->
  exists h,
    forward_features self z pos (batch_of z batch) = ok h
    /\ forward_out self
         (mask_filter (map (fun zi => (atom_filter self <? zi)%Z) z) h)
         (mask_filter (map (fun zi => (atom_filter self <? zi)%Z) z) z)
         (mask_filter (map (fun zi => (atom_filter self <? zi)%Z) z) pos)
         (remaining_ids (atom_filter self) z batch)
       = ok (out_of res).
Proof.
  unfold forward, remaining_ids, batch_of.
  set (b := match batch with None => map (fun _ => O) z | Some b => b end).
  destruct (forward_features self z pos b) as [e|h]; [discriminate|]. simpl.
  unfold forward_filter, mask_select.
  repeat match goal with
         | |- context [Nat.eqb ?a ?c] => destruct (Nat.eqb a c); simpl; [|discriminate]
         end.
  unfold forward_result.
  match goal with
  | |- rbind ?m _ = _ -> _ => destruct m as [e|out] eqn:Hout; [discriminate|]
  end.
  simpl. intros Hres. exists h. split; [reflexivity|].
  etransitivity; [exact Hout|]. f_equal.
  destruct (derivative self); [|now injection Hres as <-].
  destruct (forward_graph self _) as [go gp].
  destruct (Autograd.used go gp); [|discriminate]. now injection Hres as <-.
Qed.

(** C10. In a model without dipole mode, what [forward] returns is the
    readout of the values of the output network, rescaled to
    [h * std + mean] when both [mean] and [std] are set and left as they
    are when one of them is missing, plus the reference values when there is
    a reference table.  With one of the two missing the whole call, returning
    or raising, is that of the model with neither of them. *)
Theorem rescaling_needs_mean_and_std (self : t) (z : list Z) (pos : list vec)
    (batch : option (list nat)) :
  dipole self = false ->
  (forall res,
     forward self z pos batch = ok res ->
     exists h,
       forward_features self z pos (batch_of z batch) = ok h
       /\ let mask := map (fun zi => (atom_filter self <? zi)%Z) z in
          let ids := remaining_ids (atom_filter self) z batch in
          let y := map (Linear_forward (lin2 self))
                     (map (map (act self))
                        (map (Linear_forward (lin1 self)) (mask_filter mask h))) in
          let x := match mean self, std self with
                   | Some m, Some s => map (map (fun v => v * s + m)) y
                   | _, _ => y
                   end in
          match atomref self with
          | Some table =>
              exists ref,
                Embedding_forward table (mask_filter mask z) = ok ref
                /\ out_of res
                   = scatter (tadd x ref) ids (width (tadd x ref)) None (readout self)
          | None => out_of res = scatter x ids (width x) None (readout self)
          end)
  /\ (mean self = None \/ std self = None ->
      forward self z pos batch = forward (with_mean_std None None self) z pos batch).
Proof.
  intros Hd. split.
  - intros res Hres. destruct (forward_inv self z pos batch res Hres) as (h & Hh & Hout).
    exists h. split; [exact Hh|]. cbv zeta. revert Hout.
    unfold forward_out, forward_atoms, forward_readout, dipole_branch, rescale, reference,
      output_network.
    rewrite Hd.
    set (y := map (Linear_forward (lin2 self)) _).
    set (x := match mean self with Some _ => _ | None => _ end).
    destruct (atomref self) as [table|].
    + destruct (Embedding_forward table _) as [e|ref]; simpl; [discriminate|].
      destruct (bool_decide _); simpl; [|discriminate].
      intros Hout. injection Hout as <-. now exists ref.
    + simpl. destruct (bool_decide _); simpl; [|discriminate].
      intros Hout. now injection Hout as <-.
  - intros Hnone. unfold forward.
    change (forward_features (with_mean_std None None self))
      with (forward_features self).
    destruct (forward_features self z pos _) as [e|h0]; [reflexivity|]. simpl.
    change (forward_filter (with_mean_std None None self))
      with (forward_filter self).
    destruct (forward_filter self h0 z pos _) as [e|[[[h1 z1] pos1] batch1]];
      [reflexivity|]. simpl.
    symmetry. apply forward_result_mean_std. right. auto.
Qed.

(** C5. A model built with [dipole=True] reduces by summation whatever
    [readout] was passed, ["mean"] included: what [forward] returns has one
    row per molecule id, and row [k] is the Euclidean norm of the sum of the
    per-atom vectors of the atoms of molecule [k], the per-atom vector
    being the value of the output network times the position relative to
    the centre of mass of the molecule. *)
Theorem dipole_readout_is_norm_of_sum (cfg : Config) (g g' : rng) (self : t) (z : list Z)
    (pos : list vec) (batch : option (list nat)) (res : output) :
  cfg_dipole cfg = true ->
  new cfg g = inr (self, g') ->
  forward self z pos batch = ok res ->
  readout self = "add"%string
  /\ exists h,
       forward_features self z pos (batch_of z batch) = ok h
       /\ let mask := map (fun zi => (atom_filter self <? zi)%Z) z in
          let zf := mask_filter mask z in
          let posf := mask_filter mask pos in
          let ids := remaining_ids (atom_filter self) z batch in
          let y := map (Linear_forward (lin2 self))
                     (map (map (act self))
                        (map (Linear_forward (lin1 self)) (mask_filter mask h))) in
          let mass := map (fun m => [m])
                        (index_select (atomic_mass self) (map Z.to_nat zf)) in
          let c := tdiv (scatter_sum (tmul mass posf) ids (width (tmul mass posf)) None)
                        (scatter_sum mass ids 1 None) in
          let d := tmul y (tsub posf (index_select c ids)) in
          out_of res = map (fun v => [norm v]) (scatter_sum d ids (width d) None)
          /\ length (out_of res) = scatter_dim_size ids None
          /\ forall k, (k < length (out_of res))%nat ->
               out_of res !! k = Some [norm (sum_rows (width d) (incoming k ids d))].
Proof.
  intros Hd Hnew Hres.
  destruct (new_fields cfg g g' self Hnew) as (Hr & Hdip & _).
  rewrite Hd in Hr, Hdip. split; [exact Hr|].
  destruct (forward_inv self z pos batch res Hres) as (h & Hh & Hout).
  exists h. split; [exact Hh|]. cbv zeta. revert Hout.
  unfold forward_out, forward_atoms, forward_readout, dipole_branch, rescale, reference,
    output_network.
  rewrite Hdip, Hr.
  set (d := tmul _ _). set (ids := remaining_ids (atom_filter self) z batch).
  intros Hout.
  change (ok (map (fun v => [norm v]) (scatter_sum d ids (width d) None))
          = ok (out_of res)) in Hout.
  injection Hout as <-.
  split; [reflexivity|].
  split; [now rewrite length_map, scatter_sum_length|].
  intros k Hk. rewrite length_map, scatter_sum_length in Hk.
  rewrite list_lookup_fmap, scatter_sum_lookup by exact Hk.
  simpl. unfold sum_rows. now rewrite foldl_vadd_foldr.
Qed.

(** *** The atom filter *)

Lemma mask_filter_atoms (k : Z) (h : list vec) (z : list Z) (pos : list vec)
    (batch : list nat) :
  length h = length z -> length pos = length z -> length batch = length z ->
  let mask := map (fun zi => (k <? zi)%Z) z in
  let kept := filter (fun a => (k < atomic_number a)%Z) (atoms h z pos batch) in
  mask_filter mask h = map atom_features kept
  /\ mask_filter mask z = map atomic_number kept
  /\ mask_filter mask pos = map position kept
  /\ mask_filter mask batch = map molecule_id kept.
Proof.
  revert h pos batch.
  induction z as [|n z IH]; intros [|x h] [|p pos] [|b batch] Hh Hp Hb;
    simpl in *; try discriminate; [repeat split; reflexivity|].
  destruct (IH h pos batch) as (H1 & H2 & H3 & H4); [lia..|].
  destruct (Z.ltb_spec k n) as [Hlt|Hge].
  - rewrite filter_cons_True by exact Hlt. simpl.
    now rewrite H1, H2, H3, H4.
  - rewrite filter_cons_False by (simpl; lia).
    now rewrite H1, H2, H3, H4.
Qed.

Lemma mask_select_ok {A : Type} (t : list A) (mask : list bool) :
  length mask = length t -> mask_select t mask = ok (mask_filter mask t).
Proof.
  intros Hl. unfold mask_select. now rewrite (proj2 (Nat.eqb_eq _ _) Hl).
Qed.

(** C6. With [atom_filter = k], the rows of the features, atomic numbers,
    positions and molecule ids that belong to an atom with atomic number
    at most [k] are dropped together, after the interaction stack, and what
    [forward] computes from there on (output network, dipole branch,
    reference correction, readout, derivative) receives the remaining
    atoms only, each of atomic number above [k]. *)
Theorem atom_filter_drops (self : t) (h : list vec) (z : list Z) (pos : list vec)
    (batch : list nat) :
  length h = length z -> length pos = length z -> length batch = length z ->
  let kept := filter (fun a => (atom_filter self < atomic_number a)%Z)
                     (atoms h z pos batch) in
  forward_filter self h z pos batch
  = ok (map atom_features kept, map atomic_number kept, map position kept,
        map molecule_id kept)
  /\ Forall (fun a => (atom_filter self < atomic_number a)%Z) kept
  /\ (forall a, a ∈ atoms h z pos batch -> (atom_filter self < atomic_number a)%Z ->
                a ∈ kept)
  /\ (forward_features self z pos batch = ok h ->
      forward self z pos (Some batch)
      = forward_result self true (map atom_features kept) (map atomic_number kept)
          (map position kept) (map molecule_id kept)).
Proof.
  intros Hh Hp Hb kept.
  destruct (mask_filter_atoms (atom_filter self) h z pos batch Hh Hp Hb)
    as (H1 & H2 & H3 & H4).
  assert (Hfilter : forward_filter self h z pos batch
                    = ok (map atom_features kept, map atomic_number kept,
                          map position kept, map molecule_id kept)).
  { unfold forward_filter.
    rewrite !mask_select_ok by (rewrite length_map; lia). simpl.
    unfold kept. now rewrite H1, H2, H3, H4. }
  split; [exact Hfilter|]. split; [|split].
  - apply Forall_forall. intros a Ha. now apply list_elem_of_filter in Ha.
  - intros a Ha Hz. apply list_elem_of_filter. now split.
  - intros Hf. unfold forward. rewrite Hf. simpl. rewrite Hfilter. reflexivity.
Qed.

(** *** The number of rows of the output *)

Lemma scatter_length (src : list vec) (index : list nat) (w : nat) (reduce : string) :
  length (scatter src index w None reduce) = scatter_dim_size index None.
Proof.
  unfold scatter. destruct (String.eqb reduce "mean"); [|apply scatter_sum_length].
  unfold scatter_mean, tdiv.
  rewrite length_zip_with, length_map, !scatter_sum_length.
  cbn [scatter_dim_size]. rewrite ?scatter_sum_length. cbn [scatter_dim_size]. lia.
Qed.

Lemma forward_readout_length (self : t) (h : list vec) (batch : list nat) (out : list vec) :
  forward_readout self h batch = ok out ->
  length out = scatter_dim_size batch None.
Proof.
  unfold forward_readout.
  destruct (bool_decide _); simpl; [|discriminate].
  intros Hout. injection Hout as <-.
  destruct (dipole self); rewrite ?length_map; apply scatter_length.
Qed.

Lemma forward_filter_batch (self : t) (h h' : list vec) (z z' : list Z)
    (pos pos' : list vec) (batch batch' : list nat) :
  forward_filter self h z pos batch = ok (h', z', pos', batch') ->
  batch' = mask_filter (map (fun zi => (atom_filter self <? zi)%Z) z) batch.
Proof.
  unfold forward_filter, mask_select.
  repeat (destruct (Nat.eqb _ _); simpl; [|discriminate]).
  intros Hx. now injection Hx as <- <- <- <-.
Qed.

Lemma forward_rows (self : t) (z : list Z) (pos : list vec) (batch : option (list nat))
    (res : output) :
  forward self z pos batch = ok res ->
  length (out_of res)
  = scatter_dim_size (remaining_ids (atom_filter self) z batch) None.
Proof.
  unfold forward, remaining_ids.
  destruct (forward_features self z pos _) as [e|h]; [discriminate|]. simpl.
  destruct (forward_filter self h z pos _) as [e|[[[h1 z1] pos1] batch1]] eqn:Hf;
    [discriminate|]. simpl.
  apply forward_filter_batch in Hf. rewrite <- Hf.
  unfold forward_result, forward_out.
  destruct (forward_atoms self h1 z1 pos1 batch1) as [e|h2]; [discriminate|]. simpl.
  destruct (forward_readout self h2 batch1) as [e|out] eqn:Hout; [discriminate|]. simpl.
  apply forward_readout_length in Hout.
  destruct (derivative self).
  - destruct (forward_graph self _) as [go gp].
    destruct (Autograd.used go gp); [|discriminate].
    intros Hres. injection Hres as <-. exact Hout.
  - intros Hres. injection Hres as <-. exact Hout.
Qed.

Lemma max_list_zeros (ids : list nat) : Forall (fun k => k = O) ids -> max_list ids = O.
Proof. induction 1 as [|k ids -> _ IH]; simpl; [reflexivity|exact IH]. Qed.

Lemma mask_filter_Forall {A : Type} (P : A -> Prop) (mask : list bool) (l : list A) :
  Forall P l -> Forall P (mask_filter mask l).
Proof.
  intros Hl. revert mask. induction Hl as [|x l Hx _ IH]; intros [|m mask]; simpl;
    try constructor.
  destruct m; [constructor; [exact Hx|apply IH]|apply IH].
Qed.

(** C8, as the code has it.  The output of a call has one row more than the
    largest molecule id among the atoms that pass the atom filter, and no
    row when none passes.  This is the number of distinct molecule ids when
    the ids of these atoms are exactly [0, ..., M-1], and it is one when
    [molecule_id] is omitted and some atom passes. *)
Theorem output_rows (self : t) (z : list Z) (pos : list vec) (batch : option (list nat))
    (res : output) :
  forward self z pos batch = ok res ->
  let ids := remaining_ids (atom_filter self) z batch in
  length (out_of res) = match ids with [] => O | _ => S (max_list ids) end
  /\ (forall M, (forall k, k ∈ ids <-> (k < M)%nat) ->
        length (out_of res) = M /\ length (remove_dups ids) = M)
  /\ (batch = None -> ids <> [] -> length (out_of res) = 1%nat).
Proof.
  intros Hres ids. pose proof (forward_rows self z pos batch res Hres) as Hlen.
  fold ids in Hlen. cbn [scatter_dim_size] in Hlen.
  split; [exact Hlen|]. split.
  - intros M HM. split.
    + destruct (decide (ids = [])) as [Hnil|Hne].
      * rewrite Hlen, Hnil. destruct M as [|M]; [reflexivity|].
        exfalso. apply (not_elem_of_nil O). rewrite <- Hnil. apply HM. lia.
      * assert (Hlen' : length (out_of res) = S (max_list ids))
          by (destruct ids; [congruence|exact Hlen]).
        pose proof (max_list_elem_of ids Hne) as Hmax. apply HM in Hmax.
        destruct M as [|M]; [lia|].
        assert (HinM : M ∈ ids) by (apply HM; lia).
        apply max_list_elem_of_le in HinM. lia.
    + transitivity (length (seq O M)); [|apply length_seq]. apply Permutation_length.
      apply NoDup_Permutation; [apply NoDup_remove_dups|apply NoDup_seq|].
      intros k. rewrite elem_of_remove_dups, elem_of_seq, HM. lia.
  - intros -> Hne.
    assert (Hlen' : length (out_of res) = S (max_list ids))
      by (destruct ids; [congruence|exact Hlen]).
    rewrite Hlen'. f_equal. apply max_list_zeros. unfold ids, remaining_ids.
    apply mask_filter_Forall. apply Forall_forall.
    intros k Hk. apply list_elem_of_fmap in Hk. now destruct Hk as (? & -> & _).
Qed.

(** *** The graph of a call and the derivative *)

Lemma below_mono (n m : nat) (t : Autograd.tensor) :
  (n <= m)%nat -> below n t -> below m t.
Proof.
  intros Hle [Hid Hdeps]. split; [lia|].
  eapply Forall_impl; [exact Hdeps|]. simpl. intros d Hd. lia.
Qed.

Lemma apply_below (inputs : list Autograd.tensor) (n : nat) :
  Forall (below n) inputs -> below (S n) (Autograd.apply inputs n).1.
Proof.
  intros Hin. split; simpl; [lia|].
  induction Hin as [|t inputs [Hid Hdeps] _ IH]; simpl; [constructor|].
  constructor; [lia|]. apply Forall_app. split; [|exact IH].
  eapply Forall_impl; [exact Hdeps|]. simpl. intros d Hd. lia.
Qed.

Ltac inputs_below :=
  repeat first [ apply Forall_nil_2
               | apply Forall_cons_2;
                 [first [assumption | eapply below_mono; [|eassumption]; lia]|] ].

Lemma graph_interactions_below (k : nat) (h ei ew ea : Autograd.tensor) (n : nat) :
  below n h -> below n ei -> below n ew -> below n ea ->
  let r := graph_interactions k h ei ew ea n in
  below r.2 r.1 /\ (n <= r.2)%nat.
Proof.
  revert h n. induction k as [|k IH]; intros h n Hh Hei Hew Hea; simpl.
  - split; [exact Hh|lia].
  - set (x := (Autograd.apply [h; ei; ew; ea] n).1).
    assert (Hx : below (S n) x) by (apply apply_below; inputs_below).
    set (h' := (Autograd.apply [h; x] (S n)).1).
    assert (Hh' : below (S (S n)) h').
    { apply apply_below. inputs_below. }
    destruct (IH h' (S (S n)) Hh') as [Hb Hle];
      try (eapply below_mono; [|eassumption]; lia).
    split; [exact Hb|]. etransitivity; [|exact Hle]. lia.
Qed.

(** The tensor bound to [pos] by line 159 is part of the graph of [out]
    exactly in dipole mode: without it no later assignment reads [pos]. *)
Lemma filtered_pos_used (self : t) (bg : bool) :
  let r := forward_graph self bg in
  Autograd.used r.1 r.2 = dipole self.
Proof.
  unfold forward_graph.
  destruct bg, (neighbor_embedding self), (dipole self);
    [| destruct (mean self), (std self), (atomref self)
     | | destruct (mean self), (std self), (atomref self)
     | | destruct (mean self), (std self), (atomref self)
     | | destruct (mean self), (std self), (atomref self)];
    cbn -[graph_interactions];
    match goal with
    | |- context [graph_interactions ?k ?h ?ei ?ew ?ea ?n] =>
        let Hb := fresh "Hb" in
        let Hle := fresh "Hle" in
        destruct (graph_interactions_below k h ei ew ea n) as [Hb Hle];
          [split; simpl; [lia|repeat constructor; lia]..|];
        destruct (graph_interactions k h ei ew ea n) as [h' n'];
        simpl in Hb, Hle; destruct Hb as [Hid Hdeps];
        rewrite Forall_forall in Hdeps
    end; cbn; unfold Autograd.used; cbn;
    first [ apply bool_decide_eq_true
          | apply bool_decide_eq_false ];
    rewrite ?elem_of_cons, ?elem_of_app, ?elem_of_cons, ?elem_of_nil;
    repeat (rewrite ?elem_of_cons, ?elem_of_app, ?elem_of_nil);
    try (intuition (try lia);
         match goal with
         | H : _ ∈ Autograd.deps _ |- _ => apply Hdeps in H; lia
         end);
    tauto.
Qed.

(** C2, as the code has it.  With [derivative=True] and without dipole
    mode no call returns: once [out] is computed, [torch.autograd.grad] is
    asked for the derivative with respect to the tensor that line 159 bound
    to [pos], which no later assignment has read, and raises.  In dipole
    mode the pair [(out, dy)] is returned, [dy] being the negated
    derivative of the last stage alone with respect to that tensor. *)
Theorem derivative_without_dipole_raises (self : t) (z : list Z) (pos : list vec)
    (batch : option (list nat)) :
  derivative self = true ->
  (dipole self = false ->
   (exists e, forward self z pos batch = inl e)
   /\ forall bg h zf posf batchf out,
        forward_out self h zf posf batchf = ok out ->
        forward_result self bg h zf posf batchf = raise Autograd.unused_error)
  /\ (dipole self = true ->
      forall bg h zf posf batchf out,
        forward_out self h zf posf batchf = ok out ->
        forward_result self bg h zf posf batchf
        = ok (OutDy out
                (map (map Ropp)
                   (autograd_grad
                      (fun p => match forward_out self h zf p batchf with
                                | inr o => o
                                | inl _ => []
                                end) posf)))).
Proof.
  intros Hder.
  assert (Hres : forall bg h zf posf batchf out,
             forward_out self h zf posf batchf = ok out ->
             forward_result self bg h zf posf batchf
             = if dipole self
               then ok (OutDy out
                          (map (map Ropp)
                             (autograd_grad
                                (fun p => match forward_out self h zf p batchf with
                                          | inr o => o
                                          | inl _ => []
                                          end) posf)))
               else raise Autograd.unused_error).
  { intros bg h zf posf batchf out Hout. unfold forward_result.
    rewrite Hout. simpl. rewrite Hder.
    pose proof (filtered_pos_used self bg) as Hused. simpl in Hused.
    destruct (forward_graph self bg) as [go gp]. simpl in Hused. rewrite Hused.
    reflexivity. }
  split; intros Hdip.
  - split.
    + unfold forward.
      destruct (forward_features self z pos _) as [e|h]; [now exists e|]. simpl.
      destruct (forward_filter self h z pos _) as [e|[[[h1 z1] pos1] batch1]];
        [now exists e|]. simpl.
      destruct (forward_out self h1 z1 pos1 batch1) as [e|out] eqn:Hout.
      * exists e. unfold forward_result. now rewrite Hout.
      * exists Autograd.unused_error. rewrite (Hres _ _ _ _ _ out Hout).
        now rewrite Hdip.
    + intros bg h zf posf batchf out Hout.
      rewrite (Hres _ _ _ _ _ out Hout). now rewrite Hdip.
  - intros bg h zf posf batchf out Hout.
    rewrite (Hres _ _ _ _ _ out Hout). now rewrite Hdip.
Qed.

(** *** Initialisation *)

Lemma Linear_xavier_bias (l : Linear) (g : rng) :
  bias (Linear_xavier l g).1 = bias l.
Proof. unfold Linear_xavier. destruct (xavier_uniform_ (weight l) g). reflexivity. Qed.

Lemma Linear_xavier_weight (l : Linear) (g : rng) :
  weight (Linear_xavier l g).1 = (xavier_uniform_ (weight l) g).1.
Proof. unfold Linear_xavier. destruct (xavier_uniform_ (weight l) g). reflexivity. Qed.

(** What [InteractionBlock.reset_parameters] does to the biases: those of
    [mlp[0]], of the output projection of the convolution and of the mixing
    layer are filled with zero; that of [mlp[2]] is left as it was, line
    227 filling the bias of [mlp[0]] a second time. *)
Lemma block_reset_biases (b : InteractionBlock.t) (g : rng) :
  let b' := (InteractionBlock.reset_parameters b g).1 in
  bias (InteractionBlock.mlp_0 b') = option_map (fill_ 0) (bias (InteractionBlock.mlp_0 b))
  /\ bias (InteractionBlock.mlp_2 b') = bias (InteractionBlock.mlp_2 b)
  /\ bias (CFConv.lin2 (InteractionBlock.conv b'))
     = option_map (fill_ 0) (bias (CFConv.lin2 (InteractionBlock.conv b)))
  /\ bias (InteractionBlock.lin b') = option_map (fill_ 0) (bias (InteractionBlock.lin b)).
Proof.
  unfold InteractionBlock.reset_parameters, CFConv.reset_parameters.
  pose proof (Linear_xavier_bias (InteractionBlock.mlp_0 b) g) as H0.
  destruct (Linear_xavier (InteractionBlock.mlp_0 b) g) as [m0 g1]. simpl in H0.
  pose proof (Linear_xavier_bias (InteractionBlock.mlp_2 b) g1) as H2.
  destruct (Linear_xavier (InteractionBlock.mlp_2 b) g1) as [m2 g2]. simpl in H2.
  pose proof (Linear_xavier_bias (CFConv.lin1 (InteractionBlock.conv b)) g2) as H3.
  destruct (Linear_xavier (CFConv.lin1 (InteractionBlock.conv b)) g2) as [c1 g3].
  pose proof (Linear_xavier_bias (CFConv.lin2 (InteractionBlock.conv b)) g3) as H4.
  destruct (Linear_xavier (CFConv.lin2 (InteractionBlock.conv b)) g3) as [c2 g4].
  simpl in H4.
  pose proof (Linear_xavier_bias (InteractionBlock.lin b) g4) as H5.
  destruct (Linear_xavier (InteractionBlock.lin b) g4) as [l g5]. simpl in H5.
  simpl. rewrite H0, H2, H4, H5.
  repeat split. destruct (bias (InteractionBlock.mlp_0 b)); simpl; [|reflexivity].
  unfold fill_. now rewrite map_map.
Qed.

(** C9, as the code has it: [InteractionBlock.reset_parameters] never
    writes the bias of the second layer of the filter network. *)
Theorem mlp2_bias_not_reset (b : InteractionBlock.t) (g : rng) :
  bias (InteractionBlock.mlp_2 (InteractionBlock.reset_parameters b g).1)
  = bias (InteractionBlock.mlp_2 b).
Proof. exact (proj1 (proj2 (block_reset_biases b g))). Qed.

(** *** The assertions of the constructor *)

Lemma append_assoc (a b c : string) : ((a +:+ b) +:+ c = a +:+ (b +:+ c))%string.
Proof.
  induction a as [|x a IH]; [reflexivity|].
  change (String x ((a +:+ b) +:+ c) = String x (a +:+ (b +:+ c)))%string.
  f_equal. exact IH.
Qed.

Lemma new_check_fails (cfg : Config) (g : rng) (e : exn) :
  check_arguments cfg = inl e -> new cfg g = inl e.
Proof. intros Hc. unfold new. now rewrite Hc. Qed.

(** C7, as the code has it.  The three assertions of lines 70-74 are made
    in this order, before anything is built.  A [readout] outside add, sum
    and mean raises [AssertionError] without a message, whatever the other
    arguments are.  With a valid [readout], an unregistered [rbf_type] raises
    [AssertionError] with a message that names it and ends with the
    registered identifiers joined by a comma, and a full stop.  With a valid
    [readout] and a registered [rbf_type], an unregistered [activation] does
    the same with the registered activations.  Arguments that are valid in
    these three respects pass, and the assertions do not read the cutoff
    window. *)
Theorem invalid_arguments_fail (cfg : Config) (g : rng) :
  (cfg_readout cfg ∉ ["add"; "sum"; "mean"]%string ->
   new cfg g = inl (AssertionError EmptyString))
  /\ (cfg_readout cfg ∈ ["add"; "sum"; "mean"]%string ->
      dict_in (cfg_rbf_type cfg) rbf_class_mapping = false ->
      new cfg g
      = inl (AssertionError ("Unknown RBF type " +:+ dquote +:+ cfg_rbf_type cfg
                             +:+ dquote +:+ ". " +:+ "Choose from "
                             +:+ join_keys rbf_class_mapping +:+ ".")))
  /\ (cfg_readout cfg ∈ ["add"; "sum"; "mean"]%string ->
      dict_in (cfg_rbf_type cfg) rbf_class_mapping = true ->
      dict_in (cfg_activation cfg) act_class_mapping = false ->
      new cfg g
      = inl (AssertionError ("Unknown activation function " +:+ dquote
                             +:+ cfg_activation cfg +:+ dquote +:+ ". "
                             +:+ "Choose from " +:+ join_keys act_class_mapping
                             +:+ ".")))
  /\ (cfg_readout cfg ∈ ["add"; "sum"; "mean"]%string ->
      dict_in (cfg_rbf_type cfg) rbf_class_mapping = true ->
      dict_in (cfg_activation cfg) act_class_mapping = true ->
      check_arguments cfg = ok tt)
  /\ (forall lower upper,
        check_arguments (with_cutoff lower upper cfg) = check_arguments cfg).
Proof.
  split; [|split; [|split; [|split]]].
  - intros Hr. apply new_check_fails.
    unfold check_arguments. now rewrite bool_decide_eq_false_2.
  - intros Hr Hrbf.
    apply new_check_fails. unfold check_arguments.
    rewrite bool_decide_eq_true_2 by exact Hr. simpl. rewrite Hrbf. simpl.
    reflexivity.
  - intros Hr Hrbf Hact.
    apply new_check_fails. unfold check_arguments.
    rewrite bool_decide_eq_true_2 by exact Hr. simpl. rewrite Hrbf. simpl.
    rewrite Hact. simpl.
    reflexivity.
  - intros Hr Hrbf Hact. unfold check_arguments.
    rewrite bool_decide_eq_true_2 by exact Hr. simpl. rewrite Hrbf. simpl.
    rewrite Hact. reflexivity.
  - reflexivity.
Qed.
End Properties.

(** ** Relabelling the atoms and moving them rigidly *)

Lemma length3 (p : vec) : length p = 3%nat -> exists x y z, p = [x; y; z].
Proof.
  destruct p as [|x [|y [|z [|w p]]]]; simpl; intros Hl; try discriminate.
  now exists x, y, z.
Qed.

Lemma rigid_length (M : list vec) (t p : vec) :
  is_rotation M -> length t = 3%nat -> length (rigid M t p) = 3%nat.
Proof.
  intros (a & b & c & d & e & f & g & h & i & -> & _) Ht.
  destruct (length3 t Ht) as (t1 & t2 & t3 & ->). reflexivity.
Qed.

Lemma rigid_distance (M : list vec) (t p q : vec) :
  is_rotation M -> length t = 3%nat -> length p = 3%nat -> length q = 3%nat ->
  norm (bsub (rigid M t p) (rigid M t q)) = norm (bsub p q).
Proof.
  intros (a & b & c & d & e & f & g & h & i & -> & H1 & H2 & H3 & H4 & H5 & H6 & _)
    Ht Hp Hq.
  destruct (length3 t Ht) as (t1 & t2 & t3 & ->).
  destruct (length3 p Hp) as (p1 & p2 & p3 & ->).
  destruct (length3 q Hq) as (q1 & q2 & q3 & ->).
  unfold norm. f_equal. unfold dot, sum_vec, bsub, rigid, vadd, project, dot, sum_vec.
  simpl.
  set (u1 := p1 - q1). set (u2 := p2 - q2). set (u3 := p3 - q3).
  replace (a * p1 + (b * p2 + (c * p3 + 0)) + t1 - (a * q1 + (b * q2 + (c * q3 + 0)) + t1))
    with (a * u1 + b * u2 + c * u3) by (unfold u1, u2, u3; ring).
  replace (d * p1 + (e * p2 + (f * p3 + 0)) + t2 - (d * q1 + (e * q2 + (f * q3 + 0)) + t2))
    with (d * u1 + e * u2 + f * u3) by (unfold u1, u2, u3; ring).
  replace (g * p1 + (h * p2 + (i * p3 + 0)) + t3 - (g * q1 + (h * q2 + (i * q3 + 0)) + t3))
    with (g * u1 + h * u2 + i * u3) by (unfold u1, u2, u3; ring).
  transitivity ((a * a + d * d + g * g) * (u1 * u1) + (b * b + e * e + h * h) * (u2 * u2)
                + (c * c + f * f + i * i) * (u3 * u3)
                + 2 * (a * b + d * e + g * h) * (u1 * u2)
                + 2 * (a * c + d * f + g * i) * (u1 * u3)
                + 2 * (b * c + e * f + h * i) * (u2 * u3)); [ring|].
  rewrite H1, H2, H3, H4, H5, H6. ring.
Qed.

Section IndexSelect.
Context {A : Type} `{Inhabited A}.

Lemma length_index_select (l : list A) (idx : list nat) :
  length (index_select l idx) = length idx.
Proof. unfold index_select. apply length_map. Qed.

Lemma index_select_lookup (l : list A) (idx : list nat) (k : nat) :
  (k < length idx)%nat -> index_select l idx !!! k = l !!! (idx !!! k).
Proof.
  intros Hk. unfold index_select.
  apply list_lookup_total_correct. rewrite list_lookup_fmap.
  destruct (lookup_lt_is_Some_2 idx k Hk) as [i Hi]. rewrite Hi. simpl.
  f_equal. f_equal. symmetry. now apply list_lookup_total_correct.
Qed.

Lemma index_select_seq (l : list A) : index_select l (seq 0 (length l)) = l.
Proof. symmetry. apply list_eq_seq. Qed.

Lemma index_select_index_select (l : list A) (s t : list nat) :
  Forall (fun k => (k < length s)%nat) t ->
  index_select (index_select l s) t = index_select l (index_select s t).
Proof.
  intros Ht. unfold index_select. rewrite map_map.
  apply map_ext_Forall. eapply Forall_impl; [exact Ht|]. simpl.
  intros k Hk. now apply index_select_lookup.
Qed.
End IndexSelect.

Lemma index_select_map {A B : Type} `{Inhabited A} `{Inhabited B} (f : A -> B)
    (l : list A) (idx : list nat) :
  Forall (fun i => (i < length l)%nat) idx ->
  index_select (map f l) idx = map f (index_select l idx).
Proof.
  intros Hidx. unfold index_select. rewrite map_map.
  apply map_ext_Forall. eapply Forall_impl; [exact Hidx|]. simpl.
  intros i Hi. now apply (list_lookup_total_fmap f l i).
Qed.

Lemma index_select_zip_with {A B C : Type} `{Inhabited A} `{Inhabited B} `{Inhabited C}
    (f : A -> B -> C) (l : list A) (k : list B) (idx : list nat) :
  Forall (fun i => (i < length l)%nat /\ (i < length k)%nat) idx ->
  index_select (zip_with f l k) idx = zip_with f (index_select l idx) (index_select k idx).
Proof.
  intros Hidx. unfold index_select.
  induction Hidx as [|i idx [Hl Hk] _ IH]; simpl; [reflexivity|].
  f_equal; [|exact IH].
  apply list_lookup_total_correct. rewrite lookup_zip_with.
  destruct (lookup_lt_is_Some_2 l i Hl) as [a Ha].
  destruct (lookup_lt_is_Some_2 k i Hk) as [b Hb].
  rewrite Ha, Hb. simpl.
  now rewrite (list_lookup_total_correct l i a Ha), (list_lookup_total_correct k i b Hb).
Qed.

(** permutations of the indices [0, ..., n-1] *)
Lemma perm_length (sigma : list nat) (n : nat) : sigma ≡ₚ seq 0 n -> length sigma = n.
Proof. intros Hp. rewrite (Permutation_length Hp). apply length_seq. Qed.

Lemma perm_lt (sigma : list nat) (n : nat) :
  sigma ≡ₚ seq 0 n -> Forall (fun i => (i < n)%nat) sigma.
Proof.
  intros Hp. apply Forall_forall. intros i Hi. rewrite Hp in Hi.
  apply elem_of_seq in Hi. lia.
Qed.

Lemma perm_NoDup (sigma : list nat) (n : nat) : sigma ≡ₚ seq 0 n -> NoDup sigma.
Proof. intros Hp. rewrite Hp. apply NoDup_seq. Qed.

Lemma perm_inj (sigma : list nat) (n : nat) (j k : nat) :
  sigma ≡ₚ seq 0 n -> (j < n)%nat -> (k < n)%nat ->
  sigma !!! j = sigma !!! k -> j = k.
Proof.
  intros Hp Hj Hk Heq.
  pose proof (perm_length sigma n Hp) as Hl.
  destruct (lookup_lt_is_Some_2 sigma j) as [a Ha]; [lia|].
  destruct (lookup_lt_is_Some_2 sigma k) as [b Hb]; [lia|].
  rewrite (list_lookup_total_correct _ _ _ Ha), (list_lookup_total_correct _ _ _ Hb) in Heq.
  subst b. eapply NoDup_lookup; [eapply perm_NoDup; exact Hp|exact Ha|exact Hb].
Qed.

Lemma perm_lookup_lt (sigma : list nat) (n k : nat) :
  sigma ≡ₚ seq 0 n -> (k < n)%nat -> (sigma !!! k < n)%nat.
Proof.
  intros Hp Hk. pose proof (perm_lt sigma n Hp) as Hlt.
  rewrite Forall_forall in Hlt. apply Hlt.
  apply list_elem_of_lookup_total_2. rewrite (perm_length sigma n Hp). exact Hk.
Qed.

Lemma index_select_perm {A : Type} `{Inhabited A} (l : list A) (sigma : list nat) :
  sigma ≡ₚ seq 0 (length l) -> index_select l sigma ≡ₚ l.
Proof.
  intros Hp. rewrite <- (index_select_seq l) at 2.
  unfold index_select. now apply fmap_Permutation.
Qed.

(** The convolution row by row *)
Lemma incoming_messages (self : CFConv.t) (net : vec -> vec) (x : list vec)
    (edges : list Edge) (i : nat) :
  incoming i ((edge_index_of edges).*2)
    (CFConv.message
       (index_select (map (Linear_forward (CFConv.lin1 self)) x) ((edge_index_of edges).*1))
       (tmul (map net (edge_attr_of edges))
             (map (fun c => [c]) (map (CFConv.cutoff self) (edge_weight_of edges)))))
  = map (code_message self net x) (filter (fun e => receiver e = i) edges).
Proof.
  unfold incoming, CFConv.message, tmul, index_select, edge_index_of, edge_attr_of,
    edge_weight_of.
  induction edges as [|e edges IH]; csimpl; [reflexivity|].
  destruct (decide (receiver e = i)) as [Hr|Hr].
  - rewrite filter_cons_True by exact Hr.
    rewrite (filter_cons_True (fun e => receiver e = i)) by exact Hr.
    csimpl. now rewrite IH.
  - rewrite filter_cons_False by exact Hr.
    rewrite (filter_cons_False (fun e => receiver e = i)) by exact Hr.
    exact IH.
Qed.

Lemma cfconv_forward_rows (self : CFConv.t) (net : vec -> vec) (x : list vec)
    (edges : list Edge) :
  CFConv.forward self net x (edge_index_of edges) (edge_weight_of edges)
    (edge_attr_of edges)
  = map (cfconv_row self net x edges) (seq 0 (length x)).
Proof.
  unfold CFConv.forward, CFConv.propagate, cfconv_row.
  apply list_eq. intros i. rewrite !list_lookup_fmap.
  destruct (decide (i < length x)%nat) as [Hi|Hi].
  - rewrite scatter_sum_lookup by (simpl; now rewrite length_map).
    rewrite lookup_seq_lt by exact Hi. simpl.
    now rewrite incoming_messages.
  - rewrite lookup_seq_ge by lia.
    rewrite lookup_ge_None_2; [reflexivity|].
    rewrite scatter_sum_length. simpl. rewrite length_map. lia.
Qed.

Lemma length_cfconv_forward (self : CFConv.t) (net : vec -> vec) (x : list vec)
    (ei : list (nat * nat)) (ew : list R) (ea : list vec) :
  length (CFConv.forward self net x ei ew ea) = length x.
Proof.
  unfold CFConv.forward, CFConv.propagate.
  rewrite length_map, scatter_sum_length. simpl. apply length_map.
Qed.

Lemma length_block_forward (b : InteractionBlock.t) (x : list vec)
    (ei : list (nat * nat)) (ew : list R) (ea : list vec) :
  length (InteractionBlock.forward b x ei ew ea) = length x.
Proof.
  unfold InteractionBlock.forward. rewrite !length_map. apply length_cfconv_forward.
Qed.

Section Relabel.
Variables (sigma : list nat) (n : nat).
Hypothesis Hperm : sigma ≡ₚ seq 0 n.

Lemma filter_receiver_relabel (edges' : list Edge) (k : nat) :
  (k < n)%nat -> edges_in_range n edges' ->
  filter (fun e => receiver e = sigma !!! k) (map (relabel sigma) edges')
  = map (relabel sigma) (filter (fun e => receiver e = k) edges').
Proof.
  intros Hk Hr. induction Hr as [|e edges' [Hs Hrc] _ IH]; [reflexivity|].
  csimpl. destruct (decide (receiver e = k)) as [He|He].
  - rewrite filter_cons_True by (simpl; now rewrite He).
    rewrite (filter_cons_True (fun e => receiver e = k)) by exact He.
    csimpl. now rewrite IH.
  - rewrite filter_cons_False.
    + rewrite (filter_cons_False (fun e => receiver e = k)) by exact He. exact IH.
    + simpl. intros Heq. apply He. now apply (perm_inj sigma n).
Qed.

Lemma code_message_relabel (self : CFConv.t) (net : vec -> vec) (x : list vec)
    (e : Edge) :
  length x = n -> (sender e < n)%nat ->
  code_message self net (index_select x sigma) e
  = code_message self net x (relabel sigma e).
Proof.
  intros Hx Hs. unfold code_message. simpl. f_equal.
  pose proof (perm_length sigma n Hperm) as Hl.
  rewrite <- index_select_map by (rewrite Hx; now apply perm_lt).
  rewrite index_select_lookup by lia.
  reflexivity.
Qed.

Lemma cfconv_equivariant (self : CFConv.t) (net : vec -> vec) (x : list vec)
    (edges edges' : list Edge) :
  length x = n -> edges_in_range n edges' ->
  map (relabel sigma) edges' ≡ₚ edges ->
  CFConv.forward self net (index_select x sigma) (edge_index_of edges')
    (edge_weight_of edges') (edge_attr_of edges')
  = index_select
      (CFConv.forward self net x (edge_index_of edges) (edge_weight_of edges)
         (edge_attr_of edges)) sigma.
Proof.
  intros Hx Hr Hrel.
  pose proof (perm_length sigma n Hperm) as Hl.
  rewrite !cfconv_forward_rows. rewrite length_index_select, Hl, Hx.
  rewrite index_select_map by (rewrite length_seq; now apply perm_lt).
  replace (index_select (seq 0 n) sigma) with sigma.
  2:{ unfold index_select. rewrite <- (map_id sigma) at 1.
      apply map_ext_Forall. eapply Forall_impl; [apply (perm_lt sigma n Hperm)|].
      simpl. intros i Hi. symmetry. now apply lookup_total_seq_lt. }
  rewrite (list_eq_seq sigma) at 2. rewrite Hl, map_map.
  apply map_ext_Forall, Forall_forall. intros k Hk.
  apply elem_of_seq in Hk. unfold cfconv_row. f_equal.
  transitivity (foldl vadd (zeros (out_features (CFConv.lin1 self)))
                  (map (code_message self net x)
                       (filter (fun e => receiver e = sigma !!! k)
                               (map (relabel sigma) edges')))).
  2:{ apply foldl_vadd_perm. now rewrite Hrel. }
  rewrite filter_receiver_relabel by (assumption || lia).
  rewrite map_map.
  transitivity (foldl vadd (zeros (out_features (CFConv.lin1 self)))
                  (map (fun e => code_message self net x (relabel sigma e))
                       (filter (fun e => receiver e = k) edges'))); [|reflexivity].
  f_equal. apply map_ext_Forall.
  apply Forall_forall. intros e He. apply list_elem_of_filter in He as [_ He].
  unfold edges_in_range in Hr. rewrite Forall_forall in Hr.
  apply code_message_relabel; [exact Hx|]. now apply Hr.
Qed.

Lemma block_equivariant (b : InteractionBlock.t) (x : list vec)
    (edges edges' : list Edge) :
  length x = n -> edges_in_range n edges' ->
  map (relabel sigma) edges' ≡ₚ edges ->
  InteractionBlock.forward b (index_select x sigma) (edge_index_of edges')
    (edge_weight_of edges') (edge_attr_of edges')
  = index_select
      (InteractionBlock.forward b x (edge_index_of edges) (edge_weight_of edges)
         (edge_attr_of edges)) sigma.
Proof.
  intros Hx Hr Hrel. unfold InteractionBlock.forward.
  rewrite (cfconv_equivariant _ _ x edges edges') by assumption.
  rewrite !index_select_map; [reflexivity|..];
    rewrite ?length_map, length_cfconv_forward, Hx; now apply perm_lt.
Qed.

Lemma stack_equivariant (blocks : list InteractionBlock.t) (h : list vec)
    (edges edges' : list Edge) :
  length h = n -> edges_in_range n edges' ->
  map (relabel sigma) edges' ≡ₚ edges ->
  let step E := fun h b =>
    tadd h (InteractionBlock.forward b h (edge_index_of E) (edge_weight_of E)
              (edge_attr_of E)) in
  foldl (step edges') (index_select h sigma) blocks
  = index_select (foldl (step edges) h blocks) sigma
  /\ length (foldl (step edges) h blocks) = n.
Proof.
  intros Hh Hr Hrel step. revert h Hh.
  induction blocks as [|b blocks IH]; intros h Hh; simpl; [now split|].
  assert (Hstep : step edges' (index_select h sigma) b
                  = index_select (step edges h b) sigma).
  { unfold step. rewrite (block_equivariant b h edges edges') by assumption.
    unfold tadd. rewrite index_select_zip_with; [reflexivity|].
    rewrite length_block_forward, Hh.
    eapply Forall_impl; [apply (perm_lt sigma n Hperm)|]. simpl. intros; lia. }
  rewrite Hstep. apply IH.
  unfold step, tadd. rewrite length_zip_with, length_block_forward. lia.
Qed.
End Relabel.

Lemma edges_of_tensors (rbf : R -> vec) (pos : list vec) (ei : list (nat * nat)) :
  edge_index_of (edges_of rbf pos ei) = ei
  /\ edge_weight_of (edges_of rbf pos ei) = TorchMD_GN.edge_weights pos ei
  /\ edge_attr_of (edges_of rbf pos ei) = map rbf (TorchMD_GN.edge_weights pos ei).
Proof.
  unfold edge_index_of, edge_weight_of, edge_attr_of, edges_of, TorchMD_GN.edge_weights,
    tsub, index_select.
  induction ei as [|[j i] ei (IH1 & IH2 & IH3)]; [repeat split; reflexivity|].
  csimpl. rewrite IH1, IH2, IH3. repeat split; reflexivity.
Qed.

Section RmapM.
Context {A B : Type} `{Inhabited A} `{Inhabited B}.
Variables (f : A -> result B) (e0 : exn).
Hypothesis Hconst : forall x e, f x = inl e -> e = e0.

Lemma rmapM_inl (l : list A) (e : exn) : rmapM f l = inl e -> e = e0.
Proof.
  revert e. induction l as [|x l IH]; intros e; simpl; [discriminate|].
  destruct (f x) as [e1|y] eqn:Hx; simpl.
  - intros He. injection He as <-. eapply Hconst, Hx.
  - destruct (rmapM f l) as [e1|ys]; simpl; [|discriminate].
    intros He. injection He as <-. now apply IH.
Qed.

Lemma rmapM_inr (l : list A) (ys : list B) :
  rmapM f l = inr ys <-> Forall2 (fun x y => f x = inr y) l ys.
Proof.
  revert ys. induction l as [|x l IH]; intros ys; simpl.
  - split.
    + intros Hy. injection Hy as <-. constructor.
    + intros Hy. inversion Hy. reflexivity.
  - destruct (f x) as [e1|y] eqn:Hx; simpl.
    + split; [discriminate|]. intros Hy. inversion Hy as [|? y' ? ys' Hy1 Hy2]; subst.
      rewrite Hx in Hy1. discriminate Hy1.
    + destruct (rmapM f l) as [e1|ys0] eqn:Hl; simpl.
      * split; [discriminate|]. intros Hy. inversion Hy as [|? y' ? ys' Hy1 Hy2]; subst.
        apply IH in Hy2. discriminate Hy2.
      * split.
        -- intros Hy. injection Hy as <-. constructor; [exact Hx|]. now apply IH.
        -- intros Hy. inversion Hy as [|? y' ? ys' Hy1 Hy2]; subst.
           apply IH in Hy2. rewrite Hx in Hy1. injection Hy1 as ->.
           now injection Hy2 as ->.
Qed.

Lemma rmapM_inl_Exists (l : list A) (e : exn) :
  rmapM f l = inl e -> Exists (fun x => exists e, f x = inl e) l.
Proof.
  revert e. induction l as [|x l IH]; intros e; simpl; [discriminate|].
  destruct (f x) as [e1|y] eqn:Hx; simpl; [intros _; left; eauto|].
  destruct (rmapM f l) as [e1|ys]; simpl; [|discriminate].
  intros _. right. now apply (IH e1).
Qed.

Lemma rmapM_fails (l : list A) :
  Exists (fun x => exists e, f x = inl e) l -> rmapM f l = inl e0.
Proof.
  intros Hex. destruct (rmapM f l) as [e|ys] eqn:Hl.
  - f_equal. eapply rmapM_inl, Hl.
  - exfalso. apply rmapM_inr in Hl.
    induction Hl as [|x y l ys Hxy _ IH]; inversion Hex as [? ? [e He]|]; subst;
      [rewrite Hxy in He; discriminate He|now apply IH].
Qed.

Lemma rmapM_index_select (l : list A) (sigma : list nat) :
  sigma ≡ₚ seq 0 (length l) ->
  rmapM f (index_select l sigma) = rmap (fun ys => index_select ys sigma) (rmapM f l).
Proof.
  intros Hp. destruct (rmapM f l) as [e|ys] eqn:Hl; simpl.
  - assert (e = e0) as -> by (eapply rmapM_inl, Hl).
    apply rmapM_fails.
    pose proof (rmapM_inl_Exists l e0 Hl) as Hex.
    rewrite <- (index_select_perm l sigma Hp) in Hex. exact Hex.
  - apply rmapM_inr. apply rmapM_inr in Hl.
    pose proof (Forall2_length _ _ _ Hl) as Hlen.
    unfold index_select. apply Forall2_fmap, Forall_Forall2_diag.
    eapply Forall_impl; [apply (perm_lt _ _ Hp)|]. simpl. intros i Hi.
    rewrite Forall2_lookup in Hl. specialize (Hl i).
    destruct (lookup_lt_is_Some_2 l i Hi) as [x Hx].
    destruct (lookup_lt_is_Some_2 ys i) as [y Hy]; [lia|].
    rewrite Hx, Hy in Hl. inversion Hl; subst.
    now rewrite (list_lookup_total_correct _ _ _ Hx), (list_lookup_total_correct _ _ _ Hy).
Qed.
End RmapM.

Section Features.
Context {gen : Generator} {utils : Utils} {pkgs : Packages}.
Import TorchMD_GN.

Lemma forward_features_edges (self : t) (z : list Z) (pos : list vec) (batch : list nat) :
  forward_features self z pos batch
  = features_of_edges self z
      (edges_of (distance_expansion self) pos
         (radius_graph pos (cutoff_upper self) batch)).
Proof.
  unfold forward_features, features_of_edges.
  destruct (edges_of_tensors (distance_expansion self) pos
              (radius_graph pos (cutoff_upper self) batch)) as (-> & -> & ->).
  reflexivity.
Qed.

Lemma Embedding_forward_index_select (table : list vec) (z : list Z) (sigma : list nat) :
  sigma ≡ₚ seq 0 (length z) ->
  Embedding_forward table (index_select z sigma)
  = rmap (fun h => index_select h sigma) (Embedding_forward table z).
Proof.
  intros Hp. unfold Embedding_forward.
  apply (rmapM_index_select _ (IndexError "index out of range in self")); [|exact Hp].
  intros i e. destruct (if (0 <=? i)%Z then table !! Z.to_nat i else None); [discriminate|].
  intros He. now injection He as <-.
Qed.

Lemma rmapM_length {A B : Type} (f : A -> result B) (l : list A) (ys : list B) :
  rmapM f l = inr ys -> length ys = length l.
Proof.
  revert ys. induction l as [|x l IH]; intros ys; simpl.
  - intros Hy. now injection Hy as <-.
  - destruct (f x); simpl; [discriminate|].
    destruct (rmapM f l) as [|ys0]; simpl; [discriminate|].
    intros Hy. injection Hy as <-. simpl. now rewrite (IH ys0).
Qed.

Lemma features_equivariant (self : t) (sigma : list nat) (z : list Z)
    (edges edges' : list Edge) :
  sigma ≡ₚ seq 0 (length z) ->
  edges_in_range (length z) edges' ->
  map (relabel sigma) edges' ≡ₚ edges ->
  (forall ne, neighbor_embedding self = Some ne -> neighbor_embedding_equivariant ne) ->
  features_of_edges self (index_select z sigma) edges'
  = rmap (fun h => index_select h sigma) (features_of_edges self z edges)
  /\ forall h, features_of_edges self z edges = inr h -> length h = length z.
Proof.
  intros Hp Hr Hrel Hne. unfold features_of_edges.
  rewrite (Embedding_forward_index_select _ _ _ Hp).
  destruct (Embedding_forward (embedding self) z) as [e|h0] eqn:Hemb; simpl;
    [split; [reflexivity|discriminate]|].
  pose proof (rmapM_length _ _ _ Hemb) as Hh0.
  set (h1 := match neighbor_embedding self with
             | Some ne => NeighborEmbedding_forward ne z h0 (edge_index_of edges)
                            (edge_weight_of edges) (edge_attr_of edges)
             | None => h0
             end).
  assert (Hh1 : length h1 = length z
                /\ match neighbor_embedding self with
                   | Some ne =>
                       NeighborEmbedding_forward ne (index_select z sigma)
                         (index_select h0 sigma) (edge_index_of edges')
                         (edge_weight_of edges') (edge_attr_of edges')
                   | None => index_select h0 sigma
                   end = index_select h1 sigma).
  { unfold h1. destruct (neighbor_embedding self) as [ne|] eqn:Hn; [|now split].
    apply (Hne ne eq_refl sigma z h0 edges edges'); assumption. }
  destruct Hh1 as [Hl1 ->].
  destruct (stack_equivariant sigma (length z) Hp (interactions self) h1 edges edges'
              Hl1 Hr Hrel) as [Hs Hl].
  split.
  - unfold ok. f_equal. exact Hs.
  - intros h Hh. injection Hh as <-. exact Hl.
Qed.
End Features.

Lemma length_bop (op : R -> R -> R) (a b : vec) :
  length (bop op a b) = bop_len (length a) (length b).
Proof.
  unfold bop_len.
  destruct a as [|x [|x' a]], b as [|y [|y' b]]; simpl;
    rewrite ?length_map, ?length_zip_with; simpl; try reflexivity; lia.
Qed.

Lemma uniform_zip_with_bop (op : R -> R -> R) (wa wb : nat) (A B : list vec) :
  uniform wa A -> uniform wb B -> uniform (bop_len wa wb) (zip_with (bop op) A B).
Proof.
  intros HA. revert B. induction HA as [|a A Ha _ IH]; intros B HB; [constructor|].
  destruct HB as [|b B Hb HB]; simpl; [constructor|].
  constructor; [|now apply IH]. now rewrite length_bop, Ha, Hb.
Qed.

Lemma uniform_map (f : vec -> vec) (w w' : nat) (t : list vec) :
  (forall row, length row = w -> length (f row) = w') ->
  uniform w t -> uniform w' (map f t).
Proof.
  intros Hf Ht. unfold uniform. rewrite Forall_fmap.
  eapply Forall_impl; [exact Ht|]. exact Hf.
Qed.

Lemma uniform_index_select (w : nat) (t : list vec) (idx : list nat) :
  uniform w t -> Forall (fun i => (i < length t)%nat) idx ->
  uniform w (index_select t idx).
Proof.
  intros Ht Hidx. unfold uniform, index_select. rewrite Forall_fmap.
  eapply Forall_impl; [exact Hidx|]. simpl. intros i Hi.
  unfold uniform in Ht. rewrite Forall_forall in Ht. apply Ht.
  now apply list_elem_of_lookup_total_2.
Qed.

Lemma length_vadd_fold (w : nat) (rows : list vec) :
  uniform w rows -> length (foldl vadd (zeros w) rows) = w.
Proof.
  assert (Hgen : forall o, length o = w -> uniform w rows ->
                           length (foldl vadd o rows) = w).
  { induction rows as [|r rows IH]; intros o Ho Hu; simpl; [exact Ho|].
    inversion Hu as [|? ? Hr Hrows]; subst. apply IH; [|exact Hrows].
    unfold vadd. rewrite length_zip_with. lia. }
  apply Hgen. unfold zeros. apply length_replicate.
Qed.

Lemma uniform_incoming (w i : nat) (idx : list nat) (src : list vec) :
  uniform w src -> uniform w (incoming i idx src).
Proof.
  intros Hs. unfold uniform, incoming. rewrite Forall_fmap.
  apply Forall_forall. intros [j v] Hjv. simpl.
  apply list_elem_of_filter in Hjv as [_ Hjv].
  apply elem_of_zip_r in Hjv.
  unfold uniform in Hs. rewrite Forall_forall in Hs. now apply Hs.
Qed.

Lemma uniform_scatter_sum (w : nat) (src : list vec) (idx : list nat) (d : option nat) :
  uniform w src -> uniform w (scatter_sum src idx w d).
Proof.
  intros Hs. unfold uniform. apply Forall_lookup. intros i row Hrow.
  assert (Hi : (i < scatter_dim_size idx d)%nat).
  { rewrite <- (scatter_sum_length src idx w d). eapply lookup_lt_Some, Hrow. }
  rewrite scatter_sum_lookup in Hrow by exact Hi. injection Hrow as <-.
  apply length_vadd_fold. now apply uniform_incoming.
Qed.

Lemma max_list_perm (l l' : list nat) : l ≡ₚ l' -> max_list l = max_list l'.
Proof. induction 1; simpl; lia. Qed.

Lemma scatter_dim_size_perm (idx idx' : list nat) (d : option nat) :
  idx' ≡ₚ idx -> scatter_dim_size idx' d = scatter_dim_size idx d.
Proof.
  intros Hp. destruct d as [n|]; simpl; [reflexivity|].
  rewrite (max_list_perm _ _ Hp).
  destruct idx' as [|i idx'], idx as [|j idx]; try reflexivity.
  - apply Permutation_nil_l in Hp. discriminate Hp.
  - symmetry in Hp. apply Permutation_nil_l in Hp. discriminate Hp.
Qed.

Lemma scatter_sum_perm (src src' : list vec) (idx idx' : list nat) (w : nat)
    (d : option nat) :
  length idx' = length src' -> length idx = length src ->
  zip idx' src' ≡ₚ zip idx src ->
  scatter_sum src' idx' w d = scatter_sum src idx w d.
Proof.
  intros Hl' Hl Hp.
  assert (Hidx : idx' ≡ₚ idx).
  { rewrite <- (fst_zip idx' src') by lia. rewrite <- (fst_zip idx src) by lia.
    now apply fmap_Permutation. }
  pose proof (scatter_dim_size_perm idx idx' d Hidx) as Hd.
  apply list_eq. intros i.
  destruct (decide (i < scatter_dim_size idx d)%nat) as [Hi|Hi].
  - rewrite !scatter_sum_lookup by (rewrite ?Hd; exact Hi). f_equal.
    apply foldl_vadd_perm. unfold incoming.
    apply fmap_Permutation. now rewrite Hp.
  - rewrite !lookup_ge_None_2; [reflexivity|..]; rewrite scatter_sum_length; lia.
Qed.

Lemma zip_index_select {A B : Type} `{Inhabited A} `{Inhabited B} (l : list A)
    (k : list B) (tau : list nat) :
  length l = length k -> tau ≡ₚ seq 0 (length l) ->
  zip (index_select l tau) (index_select k tau) ≡ₚ zip l k.
Proof.
  intros Hl Hp.
  rewrite <- (index_select_zip_with pair l k tau).
  - apply index_select_perm. now rewrite length_zip_with, <- Hl, Nat.min_id.
  - eapply Forall_impl; [apply (perm_lt _ _ Hp)|]. simpl. intros; lia.
Qed.

Lemma scatter_sum_index_select (src : list vec) (idx : list nat) (w : nat)
    (d : option nat) (tau : list nat) :
  length idx = length src -> tau ≡ₚ seq 0 (length idx) ->
  scatter_sum (index_select src tau) (index_select idx tau) w d = scatter_sum src idx w d.
Proof.
  intros Hl Hp. apply scatter_sum_perm; [now rewrite !length_index_select|exact Hl|].
  now apply zip_index_select.
Qed.

Lemma width_index_select (w : nat) (t : list vec) (tau : list nat) :
  uniform w t -> tau ≡ₚ seq 0 (length t) -> width (index_select t tau) = width t.
Proof.
  intros Hu Hp. pose proof (perm_length _ _ Hp) as Hl.
  pose proof (perm_lt _ _ Hp) as Hlt. clear Hp.
  destruct t as [|r t]; simpl in *.
  - destruct tau; [reflexivity|discriminate].
  - destruct tau as [|i tau]; [discriminate|]. unfold width. simpl.
    unfold uniform in Hu. rewrite Forall_forall in Hu.
    rewrite (Hu r) by apply list_elem_of_here. apply Hu.
    apply list_elem_of_lookup_total_2.
    rewrite Forall_cons in Hlt. destruct Hlt as [Hi _]. exact Hi.
Qed.

Lemma scatter_index_select (src : list vec) (idx : list nat) (w : nat) (reduce : string)
    (tau : list nat) :
  length idx = length src -> tau ≡ₚ seq 0 (length idx) ->
  scatter (index_select src tau) (index_select idx tau) w None reduce
  = scatter src idx w None reduce.
Proof.
  intros Hl Hp. unfold scatter, scatter_mean.
  rewrite !scatter_sum_index_select by assumption.
  destruct (String.eqb reduce "mean"); [|reflexivity].
  f_equal. f_equal.
  replace (map (fun _ : nat => [1]) (index_select idx tau))
    with (index_select (map (fun _ : nat => [1]) idx) tau).
  - apply scatter_sum_index_select; [now rewrite length_map|exact Hp].
  - rewrite index_select_map by apply (perm_lt _ _ Hp).
    unfold index_select. now rewrite map_map.
Qed.

Section HeadPerm.
Context {gen : Generator} {utils : Utils} {pkgs : Packages}.
Import TorchMD_GN.

Lemma length_Linear_forward (l : Linear) (x y : vec) :
  length (Linear_forward l x) = length (Linear_forward l y).
Proof.
  unfold Linear_forward. destruct (bias l) as [b|]; [|now rewrite !length_map].
  unfold badd. now rewrite !length_bop, !length_map.
Qed.

Lemma Embedding_forward_uniform (w : nat) (table : list vec) (z : list Z) (rows : list vec) :
  uniform w table -> Embedding_forward table z = inr rows -> uniform w rows.
Proof.
  intros Ht Hrows. unfold Embedding_forward in Hrows.
  apply rmapM_inr in Hrows.
  unfold uniform. apply Forall_forall. intros row Hrow.
  apply list_elem_of_lookup in Hrow as [k Hk].
  destruct (Forall2_lookup_r _ _ _ _ _ Hrows Hk) as (i & _ & Hi).
  destruct (0 <=? i)%Z; [|discriminate].
  destruct (table !! Z.to_nat i) as [row'|] eqn:Hrow'; [|discriminate].
  injection Hi as <-. unfold uniform in Ht. rewrite Forall_forall in Ht.
  apply Ht. eapply list_elem_of_lookup_2, Hrow'.
Qed.

Section Perm.
Variables (self : t) (tau : list nat) (m : nat).
Variables (h : list vec) (z : list Z) (pos : list vec) (batch : list nat).
Hypothesis Hperm : tau ≡ₚ seq 0 m.
Hypothesis Hh : length h = m.
Hypothesis Hz : length z = m.
Hypothesis Hpos : length pos = m.
Hypothesis Hbatch : length batch = m.

Let Hlt : Forall (fun i => (i < m)%nat) tau := perm_lt tau m Hperm.

Lemma output_network_perm :
  output_network self (index_select h tau) = index_select (output_network self h) tau.
Proof.
  unfold output_network.
  rewrite !index_select_map; [reflexivity|..]; rewrite ?length_map, Hh; exact Hlt.
Qed.

Lemma length_output_network : length (output_network self h) = m.
Proof. unfold output_network. now rewrite !length_map. Qed.

Ltac ranges :=
  eapply Forall_impl; [exact Hlt|]; cbv beta; intros ? ?; repeat split;
  rewrite ?length_zip_with, ?length_index_select, ?length_map;
  unfold vec in *; lia.

Lemma dipole_branch_perm (wp : nat) (x : list vec) :
  uniform wp pos -> length x = m ->
  dipole_branch self (index_select x tau) (index_select z tau) (index_select pos tau)
    (index_select batch tau)
  = index_select (dipole_branch self x z pos batch) tau
  /\ length (dipole_branch self x z pos batch) = m.
Proof.
  intros Hu Hx. unfold dipole_branch. destruct (dipole self); [|split; [reflexivity|exact Hx]].
  set (mass := map (fun mi => [mi]) (index_select (atomic_mass self) (map Z.to_nat z))).
  assert (Hlm : length mass = m).
  { unfold mass. now rewrite length_map, length_index_select, length_map. }
  assert (Hmass : map (fun mi => [mi])
                      (index_select (atomic_mass self) (map Z.to_nat (index_select z tau)))
                  = index_select mass tau).
  { unfold mass. rewrite <- (index_select_map Z.to_nat z tau) by ranges.
    rewrite <- index_select_index_select by ranges.
    rewrite index_select_map; [reflexivity|]. ranges. }
  rewrite Hmass.
  assert (Hmp : tmul (index_select mass tau) (index_select pos tau)
                = index_select (tmul mass pos) tau).
  { unfold tmul. rewrite index_select_zip_with; [reflexivity|]. ranges. }
  rewrite Hmp.
  assert (Hlmp : length (tmul mass pos) = m).
  { unfold tmul. rewrite length_zip_with. unfold vec in *. lia. }
  assert (Hump : uniform wp (tmul mass pos)).
  { unfold tmul, uniform. apply Forall_lookup. intros i row Hrow.
    apply lookup_zip_with_Some in Hrow as (a & p & -> & Ha & Hp).
    unfold mass in Ha. rewrite list_lookup_fmap in Ha.
    destruct (index_select (atomic_mass self) (map Z.to_nat z) !! i) as [mi|];
      [|discriminate]. injection Ha as <-.
    unfold bmul. rewrite length_bop. simpl.
    unfold uniform in Hu. rewrite Forall_forall in Hu. apply Hu.
    eapply list_elem_of_lookup_2, Hp. }
  rewrite (width_index_select wp) by (rewrite ?Hlmp; assumption).
  rewrite !scatter_sum_index_select by (rewrite ?Hbatch, ?Hlmp, ?Hlm; auto).
  set (c := tdiv _ _).
  assert (Hc : Forall (fun i => (i < length c)%nat) batch).
  { unfold c, tdiv. rewrite length_zip_with, !scatter_sum_length. simpl.
    apply Forall_forall. intros i Hi.
    pose proof (max_list_elem_of_le i batch Hi) as Hle.
    destruct batch; [inversion Hi|]. unfold vec in *. lia. }
  rewrite <- index_select_index_select by ranges.
  assert (Hsub : tsub (index_select pos tau) (index_select (index_select c batch) tau)
                 = index_select (tsub pos (index_select c batch)) tau).
  { unfold tsub. rewrite index_select_zip_with; [reflexivity|]. ranges. }
  rewrite Hsub. unfold tmul, tsub. split.
  - symmetry. apply index_select_zip_with. ranges.
  - rewrite !length_zip_with, length_index_select. unfold vec in *. lia.
Qed.

Lemma rescale_perm (x : list vec) :
  length x = m ->
  rescale self (index_select x tau) = index_select (rescale self x) tau
  /\ length (rescale self x) = m.
Proof.
  intros Hx. unfold rescale.
  destruct (dipole self), (mean self), (std self); try (split; [reflexivity|exact Hx]).
  split; [|now rewrite length_map].
  rewrite index_select_map; [reflexivity|]. ranges.
Qed.

Lemma reference_perm (x : list vec) :
  length x = m ->
  reference self (index_select x tau) (index_select z tau)
  = rmap (fun c => index_select c tau) (reference self x z)
  /\ forall c, reference self x z = inr c -> length c = m.
Proof.
  intros Hx. unfold reference.
  destruct (dipole self); [split; [reflexivity|intros c Hc; now injection Hc as <-]|].
  destruct (atomref self) as [table|];
    [|split; [reflexivity|intros c Hc; now injection Hc as <-]].
  rewrite Embedding_forward_index_select by (rewrite Hz; exact Hperm).
  destruct (Embedding_forward table z) as [e|ref] eqn:Href; simpl;
    [split; [reflexivity|discriminate]|].
  pose proof (rmapM_length _ _ _ Href) as Hlr.
  split.
  - unfold ok, tadd. f_equal. rewrite index_select_zip_with; [reflexivity|]. ranges.
  - intros c Hc. injection Hc as <-. unfold tadd. rewrite length_zip_with.
    unfold vec in *. lia.
Qed.

Lemma forward_atoms_perm (wp : nat) :
  uniform wp pos ->
  forward_atoms self (index_select h tau) (index_select z tau) (index_select pos tau)
    (index_select batch tau)
  = rmap (fun c => index_select c tau) (forward_atoms self h z pos batch)
  /\ forall c, forward_atoms self h z pos batch = inr c -> length c = m.
Proof.
  intros Hu. unfold forward_atoms.
  rewrite output_network_perm.
  destruct (dipole_branch_perm wp (output_network self h) Hu length_output_network)
    as [-> Hl1].
  destruct (rescale_perm _ Hl1) as [-> Hl2].
  now apply reference_perm.
Qed.
Lemma forward_atoms_uniform (wp : nat) :
  uniform wp pos -> atomref_uniform self ->
  exists w, forall c, forward_atoms self h z pos batch = inr c -> uniform w c.
Proof.
  intros Hu Href. unfold forward_atoms.
  set (x0 := output_network self h).
  assert (H0 : uniform (length (Linear_forward (lin2 self) [])) x0).
  { unfold x0, output_network, uniform. rewrite Forall_fmap. apply Forall_forall.
    intros row _. simpl. apply length_Linear_forward. }
  assert (H1 : exists w1, uniform w1 (dipole_branch self x0 z pos batch)).
  { unfold dipole_branch. destruct (dipole self); [|eexists; exact H0].
    set (mass := map (fun mi => [mi]) (index_select (atomic_mass self) (map Z.to_nat z))).
    assert (Hlm : length mass = m).
    { unfold mass. now rewrite length_map, length_index_select, length_map. }
    assert (Hum : uniform 1 mass).
    { unfold mass, uniform. rewrite Forall_fmap. apply Forall_forall. now intros. }
    assert (Hump : uniform (bop_len 1 wp) (tmul mass pos))
      by (now apply uniform_zip_with_bop).
    assert (Hw : batch <> [] -> width (tmul mass pos) = bop_len 1 wp).
    { intros Hne. unfold width. unfold tmul in *.
      destruct mass as [|a mass'], pos as [|p pos'], batch; simpl in *;
        try congruence; try lia.
      unfold uniform in Hump. now rewrite Forall_cons in Hump. }
    set (c := tdiv _ _).
    assert (Hc : Forall (fun i => (i < length c)%nat) batch).
    { unfold c, tdiv. rewrite length_zip_with, !scatter_sum_length. simpl.
      apply Forall_forall. intros i Hi.
      pose proof (max_list_elem_of_le i batch Hi) as Hle.
      destruct batch; [inversion Hi|]. unfold vec in *. lia. }
    assert (Huc : uniform (bop_len (bop_len 1 wp) 1) (index_select c batch)).
    { destruct (decide (batch = [])) as [->|Hne]; [constructor|].
      apply uniform_index_select; [|exact Hc].
      unfold c, tdiv. apply uniform_zip_with_bop.
      - rewrite (Hw Hne). now apply uniform_scatter_sum.
      - now apply uniform_scatter_sum. }
    eexists. unfold tmul at 1, tsub.
    apply uniform_zip_with_bop; [exact H0|].
    apply uniform_zip_with_bop; [exact Hu|exact Huc]. }
  destruct H1 as [w1 H1].
  assert (H2 : uniform w1 (rescale self (dipole_branch self x0 z pos batch))).
  { unfold rescale. destruct (dipole self), (mean self), (std self); try exact H1.
    eapply uniform_map; [|exact H1]. intros row Hrow. now rewrite length_map. }
  unfold reference. destruct (dipole self).
  { exists w1. intros c Hc. now injection Hc as <-. }
  destruct (atomref self) as [table|] eqn:Htab.
  2:{ exists w1. intros c Hc. now injection Hc as <-. }
  exists (bop_len w1 1). intros c.
  destruct (Embedding_forward table z) as [e|ref] eqn:Hemb; simpl; [discriminate|].
  intros Hc. injection Hc as <-. unfold tadd. apply uniform_zip_with_bop; [exact H2|].
  eapply Embedding_forward_uniform; [|exact Hemb]. now apply Href.
Qed.

Lemma forward_readout_perm (w : nat) (c : list vec) :
  uniform w c -> length c = m ->
  forward_readout self (index_select c tau) (index_select batch tau)
  = forward_readout self c batch.
Proof.
  intros Hu Hc. unfold forward_readout.
  rewrite (width_index_select w) by (rewrite ?Hc; assumption).
  rewrite scatter_index_select by (rewrite Hbatch; auto).
  reflexivity.
Qed.

Lemma forward_out_perm (wp : nat) :
  uniform wp pos -> atomref_uniform self ->
  forward_out self (index_select h tau) (index_select z tau) (index_select pos tau)
    (index_select batch tau)
  = forward_out self h z pos batch.
Proof.
  intros Hu Href. unfold forward_out.
  destruct (forward_atoms_perm wp Hu) as [-> Hlen].
  destruct (forward_atoms_uniform wp Hu Href) as [w Hw].
  destruct (forward_atoms self h z pos batch) as [e|c]; [reflexivity|]. simpl.
  apply (forward_readout_perm w); [now apply Hw|now apply Hlen].
Qed.
End Perm.
End HeadPerm.

Lemma Permutation_index {A : Type} `{Inhabited A} (l l' : list A) :
  l' ≡ₚ l -> exists tau, tau ≡ₚ seq 0 (length l) /\ l' = index_select l tau.
Proof.
  induction 1 as [|x l' l _ IH|x y l|l'' l' l _ IH1 _ IH2].
  - exists []. split; reflexivity.
  - destruct IH as (tau & Hp & ->). exists (O :: map S tau). split.
    + simpl. constructor. rewrite <- fmap_S_seq. now apply fmap_Permutation.
    + unfold index_select. simpl. f_equal. now rewrite map_map.
  - exists (1%nat :: O :: map (fun i => S (S i)) (seq 0 (length l))). split.
    + simpl. rewrite <- !fmap_S_seq. rewrite <- list_fmap_compose. apply perm_swap.
    + unfold index_select. simpl. do 2 f_equal. rewrite map_map. apply list_eq_seq.
  - destruct IH1 as (tau1 & Hp1 & ->). destruct IH2 as (tau2 & Hp2 & ->).
    rewrite length_index_select in Hp1.
    exists (index_select tau2 tau1). split.
    + rewrite <- Hp2. now apply index_select_perm.
    + apply index_select_index_select. now apply perm_lt.
Qed.

Lemma filter_fmap_comm {A B : Type} (f : A -> B) (P : B -> Prop)
    `{forall y, Decision (P y)} (l : list A) :
  filter P (f <$> l) = f <$> filter (fun x => P (f x)) l.
Proof.
  induction l as [|x l IH]; [reflexivity|]. csimpl.
  destruct (decide (P (f x))) as [Hx|Hx].
  - rewrite !filter_cons_True by exact Hx. csimpl. now rewrite IH.
  - rewrite !filter_cons_False by exact Hx. exact IH.
Qed.

(** The indices that a mask keeps. *)
Lemma mask_filter_indices {A : Type} `{Inhabited A} (P : Z -> bool) (z : list Z)
    (X : list A) :
  length X = length z ->
  mask_filter (map P z) X
  = map (fun i => X !!! i) (filter (fun i => P (z !!! i) = true) (seq 0 (length z))).
Proof.
  revert X. induction z as [|a z IH]; intros [|x X] HX; simpl in *; try discriminate;
    [reflexivity|].
  rewrite <- fmap_S_seq.
  assert (Hf : filter (fun i => P ((a :: z) !!! i) = true) (S <$> seq 0 (length z))
               = S <$> filter (fun i => P (z !!! i) = true) (seq 0 (length z))).
  { apply filter_fmap_comm. }
  destruct (P a) eqn:Ha.
  - rewrite filter_cons_True by exact Ha. rewrite Hf. simpl. f_equal.
    rewrite (IH X) by lia. rewrite <- list_fmap_compose. reflexivity.
  - rewrite filter_cons_False by (simpl; congruence). rewrite Hf.
    rewrite (IH X) by lia. rewrite <- list_fmap_compose. reflexivity.
Qed.

Lemma mask_filter_index_select {A : Type} `{Inhabited A} (P : Z -> bool) (z : list Z)
    (X : list A) (sigma : list nat) :
  Forall (fun i => (i < length z)%nat) sigma ->
  mask_filter (map P (index_select z sigma)) (index_select X sigma)
  = map (fun i => X !!! i) (filter (fun i => P (z !!! i) = true) sigma).
Proof.
  induction 1 as [|i sigma Hi _ IH]; [reflexivity|].
  unfold index_select in *. simpl. destruct (P (z !!! i)) eqn:Hz.
  - rewrite filter_cons_True by exact Hz. simpl. now rewrite IH.
  - rewrite filter_cons_False by congruence. exact IH.
Qed.

Lemma edges_of_relabel (rbf : R -> vec) (pos : list vec) (sigma : list nat)
    (ei : list (nat * nat)) :
  Forall (fun p => (p.1 < length sigma)%nat /\ (p.2 < length sigma)%nat) ei ->
  map (relabel sigma) (edges_of rbf (index_select pos sigma) ei)
  = edges_of rbf pos (map (relabel_pair sigma) ei).
Proof.
  intros Hr. unfold edges_of. rewrite !map_map. apply map_ext_Forall.
  eapply Forall_impl; [exact Hr|]. simpl. intros [j i] [Hj Hi]. simpl in *.
  unfold relabel. simpl. now rewrite !index_select_lookup by assumption.
Qed.

Lemma edges_of_in_range (rbf : R -> vec) (pos : list vec) (n : nat)
    (ei : list (nat * nat)) :
  Forall (fun p => (p.1 < n)%nat /\ (p.2 < n)%nat) ei ->
  edges_in_range n (edges_of rbf pos ei).
Proof.
  intros Hr. unfold edges_in_range, edges_of. rewrite Forall_fmap.
  eapply Forall_impl; [exact Hr|]. simpl. intros p [H1 H2]. now split.
Qed.

Section Equivariance.
Context {gen : Generator} {utils : Utils} {pkgs : Packages}.
Import TorchMD_GN.

Lemma forward_features_perm (self : t) (sigma : list nat) (z : list Z) (pos : list vec)
    (batch : list nat) :
  sigma ≡ₚ seq 0 (length z) -> length pos = length z -> length batch = length z ->
  radius_graph_in_range -> radius_graph_equivariant ->
  (forall ne, neighbor_embedding self = Some ne -> neighbor_embedding_equivariant ne) ->
  forward_features self (index_select z sigma) (index_select pos sigma)
    (index_select batch sigma)
  = rmap (fun h => index_select h sigma) (forward_features self z pos batch)
  /\ forall h, forward_features self z pos batch = inr h -> length h = length z.
Proof.
  intros Hp Hpos Hbatch Hrange Hrg Hne.
  pose proof (perm_length _ _ Hp) as Hl.
  rewrite !forward_features_edges.
  apply features_equivariant; [exact Hp| |  |exact Hne].
  - apply edges_of_in_range.
    specialize (Hrange (index_select pos sigma) (cutoff_upper self)
                  (index_select batch sigma)).
    rewrite length_index_select, Hl in Hrange. exact Hrange.
  - rewrite edges_of_relabel.
    + unfold edges_of. apply fmap_Permutation. apply Hrg; [now rewrite Hpos|lia].
    + specialize (Hrange (index_select pos sigma) (cutoff_upper self)
                    (index_select batch sigma)).
      now rewrite length_index_select in Hrange.
Qed.

Lemma forward_filter_perm (self : t) (sigma : list nat) (h : list vec) (z : list Z)
    (pos : list vec) (batch : list nat) :
  sigma ≡ₚ seq 0 (length z) ->
  length h = length z -> length pos = length z -> length batch = length z ->
  let keep := filter (fun i => (atom_filter self <? z !!! i)%Z = true) in
  forward_filter self h z pos batch
  = ok (index_select h (keep (seq 0 (length z))), index_select z (keep (seq 0 (length z))),
        index_select pos (keep (seq 0 (length z))),
        index_select batch (keep (seq 0 (length z))))
  /\ forward_filter self (index_select h sigma) (index_select z sigma)
       (index_select pos sigma) (index_select batch sigma)
     = ok (index_select h (keep sigma), index_select z (keep sigma),
           index_select pos (keep sigma), index_select batch (keep sigma)).
Proof.
  intros Hp Hh Hpos Hbatch keep.
  pose proof (perm_length _ _ Hp) as Hl.
  pose proof (perm_lt _ _ Hp) as Hlt.
  unfold forward_filter. split.
  - rewrite !mask_select_ok by (rewrite length_map; lia). simpl.
    rewrite !(mask_filter_indices (fun zi => (atom_filter self <? zi)%Z)) by lia.
    reflexivity.
  - rewrite !mask_select_ok by (rewrite length_map, !length_index_select; lia). simpl.
    rewrite !(mask_filter_index_select (fun zi => (atom_filter self <? zi)%Z))
      by exact Hlt.
    reflexivity.
Qed.
Lemma forward_result_perm (self : t) (bg : bool) (tau : list nat) (m wp : nat)
    (h : list vec) (z : list Z) (pos : list vec) (batch : list nat) :
  tau ≡ₚ seq 0 m ->
  length h = m -> length z = m -> length pos = m -> length batch = m ->
  uniform wp pos -> atomref_uniform self -> autograd_equivariant ->
  forward_result self bg (index_select h tau) (index_select z tau)
    (index_select pos tau) (index_select batch tau)
  = rmap (permute_output tau) (forward_result self bg h z pos batch).
Proof.
  intros Hp Hh Hz Hpos Hbatch Hu Href Hgrad. unfold forward_result.
  rewrite (forward_out_perm self tau m h z pos batch Hp Hh Hz Hpos Hbatch wp Hu Href).
  destruct (forward_out self h z pos batch) as [e|out]; [reflexivity|]. simpl.
  destruct (derivative self); [|reflexivity].
  destruct (forward_graph self bg) as [go gp].
  destruct (Autograd.used go gp); [|reflexivity]. simpl.
  unfold ok. do 2 f_equal.
  destruct (Hgrad
              (fun p => match forward_out self h z p batch with
                        | inr o => o
                        | inl _ => []
                        end)
              (fun p => match forward_out self (index_select h tau) (index_select z tau)
                                p (index_select batch tau) with
                        | inr o => o
                        | inl _ => []
                        end)
              tau pos) as [Hlen ->].
  - now rewrite Hpos.
  - intros p Hlp Hup.
    rewrite (forward_out_perm self tau m h z p batch Hp Hh Hz) with (wp := wp);
      auto. lia.
  - rewrite index_select_map; [reflexivity|].
    eapply Forall_impl; [apply (perm_lt _ _ Hp)|]. cbv beta. intros i Hi.
    unfold vec in *. lia.
Qed.

Lemma zeros_like_index_select (z : list Z) (sigma : list nat) :
  Forall (fun i => (i < length z)%nat) sigma ->
  map (fun _ : Z => O) (index_select z sigma)
  = index_select (map (fun _ : Z => O) z) sigma.
Proof.
  intros Hlt. rewrite index_select_map by exact Hlt.
  unfold index_select. now rewrite !map_map.
Qed.

(** C4. Relabelling the atoms (atomic numbers, positions and molecule ids
    by the same permutation [sigma]) leaves the per-molecule output
    unchanged and relabels the per-atom results: there is a permutation
    [tau] of the atoms left by the filter, the one that [sigma] induces on
    them, such that the remaining positions, the per-atom contributions
    (the dipole vectors in dipole mode) and the returned derivative [dy] of
    the relabelled call are those of the original call relabelled by [tau].
    The neighbour graph, the neighbour embedding and the gradient are
    assumed to commute with relabelling. *)
Theorem permutation_equivariance (self : t) (sigma : list nat) (z : list Z)
    (pos : list vec) (batch : option (list nat)) :
  sigma ≡ₚ seq 0 (length z) ->
  length pos = length z ->
  (forall b, batch = Some b -> length b = length z) ->
  uniform 3 pos ->
  radius_graph_in_range -> radius_graph_equivariant ->
  (forall ne, neighbor_embedding self = Some ne -> neighbor_embedding_equivariant ne) ->
  atomref_uniform self ->
  autograd_equivariant ->
  let mask := map (fun zi => (atom_filter self <? zi)%Z) in
  exists tau,
    tau ≡ₚ seq 0 (length (remaining_ids (atom_filter self) z batch))
    /\ mask_filter (mask (index_select z sigma)) (index_select pos sigma)
       = index_select (mask_filter (mask z) pos) tau
    /\ forward self (index_select z sigma) (index_select pos sigma)
         (option_map (fun b => index_select b sigma) batch)
       = rmap (permute_output tau) (forward self z pos batch)
    /\ forall h zf bf,
         length h = length tau -> length zf = length tau -> length bf = length tau ->
         forward_atoms self (index_select h tau) (index_select zf tau)
           (index_select (mask_filter (mask z) pos) tau) (index_select bf tau)
         = rmap (fun c => index_select c tau)
             (forward_atoms self h zf (mask_filter (mask z) pos) bf).
Proof.
  intros Hp Hpos Hb Hu Hrange Hrg Hne Href Hgrad mask.
  pose proof (perm_length _ _ Hp) as Hl.
  pose proof (perm_lt _ _ Hp) as Hlt.
  set (ks := filter (fun i => (atom_filter self <? z !!! i)%Z = true) sigma).
  set (k0 := filter (fun i => (atom_filter self <? z !!! i)%Z = true) (seq 0 (length z))).
  assert (Hkeep : ks ≡ₚ k0) by (unfold ks, k0; now rewrite Hp).
  destruct (Permutation_index _ _ Hkeep) as (tau & Htau & Hks).
  set (m := length k0) in *.
  pose proof (perm_lt _ _ Htau) as Htlt.
  assert (Hlb : length (batch_of z batch) = length z).
  { destruct batch as [b|]; simpl; [now apply Hb|apply length_map]. }
  assert (Hsel : forall (A : Type) (HA : Inhabited A) (X : list A),
             index_select X ks = index_select (index_select X k0) tau).
  { intros A HA X. rewrite Hks. symmetry. now apply index_select_index_select. }
  assert (Hm : length (remaining_ids (atom_filter self) z batch) = m).
  { unfold remaining_ids. fold (batch_of z batch).
    rewrite (mask_filter_indices (fun zi => (atom_filter self <? zi)%Z)) by exact Hlb.
    apply length_map. }
  assert (Hpf : mask_filter (mask z) pos = index_select pos k0).
  { unfold mask. now rewrite (mask_filter_indices (fun zi => (atom_filter self <? zi)%Z)). }
  assert (Hupf : uniform 3 (mask_filter (mask z) pos)) by now apply mask_filter_Forall.
  exists tau. rewrite Hm. split; [exact Htau|]. split; [|split].
  - unfold mask.
    rewrite (mask_filter_index_select (fun zi => (atom_filter self <? zi)%Z)) by exact Hlt.
    fold ks. fold (index_select pos ks). rewrite Hsel. now rewrite <- Hpf.
  - unfold forward.
    replace (bool_decide (is_Some (option_map (fun b => index_select b sigma) batch)))
      with (bool_decide (is_Some batch))
      by (destruct batch; reflexivity).
    replace (match option_map (fun b => index_select b sigma) batch with
             | Some b => b
             | None => map (fun _ => O) (index_select z sigma)
             end) with (index_select (batch_of z batch) sigma)
      by (destruct batch; simpl; [reflexivity|symmetry; now apply zeros_like_index_select]).
    fold (batch_of z batch).
    destruct (forward_features_perm self sigma z pos (batch_of z batch) Hp Hpos Hlb
                Hrange Hrg Hne) as [-> Hlen].
    destruct (forward_features self z pos (batch_of z batch)) as [e|hL]; [reflexivity|].
    simpl. specialize (Hlen hL eq_refl).
    destruct (forward_filter_perm self sigma hL z pos (batch_of z batch) Hp Hlen Hpos Hlb)
      as [-> ->].
    simpl. fold ks k0. rewrite !Hsel.
    apply (forward_result_perm self _ tau m 3);
      rewrite ?length_index_select; auto.
    now rewrite <- Hpf.
  - intros h zf bf Hh Hzf Hbf. rewrite (perm_length _ _ Htau) in Hh, Hzf, Hbf.
    apply (forward_atoms_perm self tau m h zf _ bf Htau Hh Hzf) with (wp := 3%nat);
      auto.
    rewrite Hpf. apply length_index_select.
Qed.
End Equivariance.

Section Rigid.
Context {gen : Generator} {utils : Utils} {pkgs : Packages}.
Import TorchMD_GN.

Lemma edges_of_rigid (rbf : R -> vec) (M : list vec) (t : vec) (pos : list vec)
    (ei : list (nat * nat)) :
  is_rotation M -> length t = 3%nat -> uniform 3 pos ->
  Forall (fun p => (p.1 < length pos)%nat /\ (p.2 < length pos)%nat) ei ->
  edges_of rbf (map (rigid M t) pos) ei = edges_of rbf pos ei.
Proof.
  intros HM Ht Hu Hr. unfold edges_of. apply map_ext_Forall.
  eapply Forall_impl; [exact Hr|]. cbv beta. intros [j i] [Hj Hi]. simpl in *.
  unfold uniform in Hu. rewrite Forall_forall in Hu.
  rewrite (list_lookup_total_fmap (rigid M t) pos j) by exact Hj.
  rewrite (list_lookup_total_fmap (rigid M t) pos i) by exact Hi.
  rewrite rigid_distance; [reflexivity|assumption..| |];
    apply Hu; now apply list_elem_of_lookup_total_2.
Qed.

Lemma relabel_id (n : nat) (edges : list Edge) :
  edges_in_range n edges -> map (relabel (seq 0 n)) edges = edges.
Proof.
  intros Hr. rewrite <- (map_id edges) at 2. apply map_ext_Forall.
  eapply Forall_impl; [exact Hr|]. cbv beta. intros [i j d a] [Hs Hrc]. simpl in *.
  unfold relabel. simpl. now rewrite !lookup_total_seq_lt by assumption.
Qed.

Lemma mask_filter_map {A B : Type} (f : A -> B) (mask : list bool) (l : list A) :
  mask_filter mask (map f l) = map f (mask_filter mask l).
Proof.
  revert l. induction mask as [|b mask IH]; intros [|x l]; simpl; try reflexivity.
  destruct b; simpl; now rewrite IH.
Qed.

Lemma forward_out_no_dipole (self : t) (h : list vec) (z : list Z) (p p' : list vec)
    (batch : list nat) :
  dipole self = false ->
  forward_out self h z p batch = forward_out self h z p' batch.
Proof.
  intros Hd. unfold forward_out, forward_atoms, dipole_branch. now rewrite Hd.
Qed.

Lemma forward_result_no_dipole (self : t) (bg : bool) (h : list vec) (z : list Z)
    (p p' : list vec) (batch : list nat) :
  dipole self = false ->
  forward_result self bg h z p batch = forward_result self bg h z p' batch.
Proof.
  intros Hd. unfold forward_result.
  rewrite (forward_out_no_dipole self h z p p' batch Hd).
  destruct (forward_out self h z p' batch) as [e|out]; [reflexivity|]. simpl.
  destruct (derivative self); [|reflexivity].
  pose proof (filtered_pos_used self bg) as Hused. simpl in Hused.
  destruct (forward_graph self bg) as [go gp]. simpl in Hused.
  now rewrite Hused, Hd.
Qed.

(** C3. Without dipole mode, moving all positions by a rotation followed by
    a translation does not change what [forward] returns: the positions are
    read by [radius_graph] and through the distances along its edges only,
    and the first is assumed invariant (as a set of edges) while the second
    is proved invariant. *)
Theorem rigid_invariance (self : t) (M : list vec) (t : vec) (z : list Z)
    (pos : list vec) (batch : option (list nat)) :
  dipole self = false ->
  is_rotation M -> length t = 3%nat ->
  uniform 3 pos -> length pos = length z ->
  radius_graph_in_range -> radius_graph_rigid M t ->
  (forall ne, neighbor_embedding self = Some ne -> neighbor_embedding_equivariant ne) ->
  forward self z (map (rigid M t) pos) batch = forward self z pos batch.
Proof.
  intros Hd HM Ht Hu Hpos Hrange Hrg Hne. unfold forward.
  set (b := match batch with
            | Some b => b
            | None => map (fun _ => O) z
            end).
  assert (Hf : forward_features self z (map (rigid M t) pos) b
               = forward_features self z pos b).
  { rewrite !forward_features_edges.
    set (ei' := radius_graph (map (rigid M t) pos) (cutoff_upper self) b).
    set (ei := radius_graph pos (cutoff_upper self) b).
    assert (Hr' : Forall (fun p => (p.1 < length pos)%nat /\ (p.2 < length pos)%nat) ei').
    { pose proof (Hrange (map (rigid M t) pos) (cutoff_upper self) b) as Hr.
      now rewrite length_map in Hr. }
    rewrite edges_of_rigid by assumption.
    assert (Hin : edges_in_range (length z)
                    (edges_of (distance_expansion self) pos ei')).
    { apply edges_of_in_range. now rewrite <- Hpos. }
    destruct (features_equivariant self (seq 0 (length z)) z
                (edges_of (distance_expansion self) pos ei)
                (edges_of (distance_expansion self) pos ei')) as [Heq Hlen];
      [reflexivity|exact Hin| |exact Hne|].
    { rewrite relabel_id by exact Hin. unfold edges_of. apply fmap_Permutation.
      now apply Hrg. }
    rewrite index_select_seq in Heq. rewrite Heq.
    destruct (features_of_edges self z (edges_of (distance_expansion self) pos ei))
      as [e|h]; [reflexivity|]. simpl.
    rewrite <- (Hlen h eq_refl). now rewrite index_select_seq. }
  rewrite Hf.
  destruct (forward_features self z pos b) as [e|h]; [reflexivity|]. simpl.
  unfold forward_filter.
  destruct (mask_select h _) as [e|h1]; [reflexivity|]. simpl.
  destruct (mask_select z _) as [e|z1]; [reflexivity|]. simpl.
  unfold mask_select at 1 3. rewrite !length_map.
  destruct (Nat.eqb _ _); [|reflexivity]. simpl.
  destruct (mask_select b _) as [e|b1]; [reflexivity|]. simpl.
  now apply forward_result_no_dipole.
Qed.
End Rigid.

(** ** The shapes of a constructed block *)

Section ConstructedShape.
Context {gen : Generator}.
Hypothesis uniform__length : forall a b n g, length (uniform_ a b n g).1 = n.

Lemma fill_rows_length (draw : nat -> rng -> vec * rng) (rows cols : nat) (g : rng) :
  length (fill_rows draw rows cols g).1 = rows.
Proof.
  revert g. induction rows as [|rows IH]; intros g; simpl; [reflexivity|].
  destruct (draw cols g) as [v g1]. specialize (IH g1).
  destruct (fill_rows draw rows cols g1) as [m g2]. simpl in *. now rewrite IH.
Qed.

Lemma Linear_new_shape (i o : nat) (with_bias : bool) (g : rng) :
  let l := (Linear_new i o with_bias g).1 in
  length (weight l) = o
  /\ if with_bias then exists b, bias l = Some b /\ length b = o else bias l = None.
Proof.
  unfold Linear_new.
  pose proof (fill_rows_length (uniform_ (- (1 / sqrt (INR i))) (1 / sqrt (INR i))) o i g)
    as Hw.
  destruct (fill_rows _ o i g) as [w g1]. simpl in Hw.
  destruct with_bias.
  - pose proof (uniform__length (- (1 / sqrt (INR i))) (1 / sqrt (INR i)) o g1) as Hb.
    destruct (uniform_ _ _ o g1) as [b g2]. simpl in *. split; [exact Hw|].
    exists b. now split.
  - simpl. now split.
Qed.

Lemma Linear_xavier_shape (l : Linear) (g : rng) :
  length (weight (Linear_xavier l g).1) = length (weight l)
  /\ bias (Linear_xavier l g).1 = bias l.
Proof.
  unfold Linear_xavier, xavier_uniform_.
  pose proof (fill_rows_length
                (uniform_ (- xavier_bound (width (weight l)) (length (weight l)))
                          (xavier_bound (width (weight l)) (length (weight l))))
                (length (weight l)) (width (weight l)) g) as Hw.
  destruct (fill_rows _ _ _ g) as [w g1]. simpl in *. now split.
Qed.

Lemma fill__zeros (v : vec) : fill_ 0 v = zeros (length v).
Proof.
  unfold fill_, zeros. induction v as [|x v IH]; simpl; [reflexivity|now rewrite IH].
Qed.

(** The block that [InteractionBlock.__init__] builds has the shapes that
    the statement on [CFConv.forward] asks for. *)
Lemma new_block_shape (hidden num_rbf num_filters : nat) (activation cutoff : R -> R)
    (g : rng) :
  exists b2,
    block_shape num_filters hidden
      (InteractionBlock.new hidden num_rbf num_filters activation cutoff g).1
      (zeros num_filters) b2 (zeros hidden).
Proof.
  unfold InteractionBlock.new, CFConv.new.
  pose proof (Linear_new_shape num_rbf num_filters true g) as (W0 & b0 & B0 & L0).
  destruct (Linear_new num_rbf num_filters true g) as [m0 g1]. simpl in W0, B0.
  pose proof (Linear_new_shape num_filters num_filters true g1) as (W2 & b2 & B2 & L2).
  destruct (Linear_new num_filters num_filters true g1) as [m2 g2]. simpl in W2, B2.
  pose proof (Linear_new_shape hidden num_filters false g2) as (W3 & B3).
  destruct (Linear_new hidden num_filters false g2) as [c1 g3]. simpl in W3, B3.
  pose proof (Linear_new_shape num_filters hidden true g3) as (W4 & b4 & B4 & L4).
  destruct (Linear_new num_filters hidden true g3) as [c2 g4]. simpl in W4, B4.
  unfold CFConv.reset_parameters. cbn [CFConv.lin1 CFConv.lin2 CFConv.cutoff].
  pose proof (Linear_xavier_shape c1 g4) as (X1 & Y1).
  destruct (Linear_xavier c1 g4) as [c1' g5]. simpl in X1, Y1.
  pose proof (Linear_xavier_shape c2 g5) as (X2 & Y2).
  destruct (Linear_xavier c2 g5) as [c2' g6]. simpl in X2, Y2.
  destruct (Linear_new hidden hidden true g6) as [l g7].
  unfold InteractionBlock.reset_parameters, CFConv.reset_parameters.
  cbn [InteractionBlock.mlp_0 InteractionBlock.mlp_2 InteractionBlock.conv
       InteractionBlock.lin InteractionBlock.mlp_1 InteractionBlock.act
       CFConv.lin1 CFConv.lin2 CFConv.cutoff].
  pose proof (Linear_xavier_shape m0 g7) as (X3 & Y3).
  destruct (Linear_xavier m0 g7) as [m0' g8]. simpl in X3, Y3.
  pose proof (Linear_xavier_shape m2 g8) as (X4 & Y4).
  destruct (Linear_xavier m2 g8) as [m2' g9]. simpl in X4, Y4.
  pose proof (Linear_xavier_shape c1' g9) as (X5 & Y5).
  destruct (Linear_xavier c1' g9) as [c1'' g10]. simpl in X5, Y5.
  pose proof (Linear_xavier_shape (Linear_fill_bias 0 c2') g10) as (X6 & Y6).
  destruct (Linear_xavier (Linear_fill_bias 0 c2') g10) as [c2'' g11]. simpl in X6, Y6.
  destruct (Linear_xavier l g11) as [l' g12].
  exists b2. unfold block_shape. simpl.
  rewrite Y3, B0, Y4, B2, Y5, Y1, B3, Y6, Y2, B4. simpl.
  rewrite !fill__zeros. unfold zeros. rewrite !length_replicate, L0, L4.
  repeat split; congruence.
Qed.
End ConstructedShape.

(** ** Instances of the statements above *)

Lemma atom_filter_drops_witness :
  TorchMD_GN.forward_filter (example_model false false None None 1)
    [[1; 0]; [0; 1]] [1; 8]%Z [[0; 0; 0]; [1; 0; 0]] [O; O]
  = ok ([[0; 1]], [8%Z], [[1; 0; 0]], [O]).
Proof.
  exact (proj1 (atom_filter_drops (pkgs := example_packages)
                  (example_model false false None None 1)
                  [[1; 0]; [0; 1]] [1; 8]%Z [[0; 0; 0]; [1; 0; 0]] [O; O]
                  eq_refl eq_refl eq_refl)).
Defined.

(** Two atoms in the molecules 0 and 2: three rows for two molecule ids. *)
Lemma output_rows_counterexample :
  exists out,
    TorchMD_GN.forward (pkgs := example_packages) (example_model false false None None 0)
      [1; 8]%Z [[0; 0; 0]; [1; 0; 0]] (Some [0; 2]%nat)
    = ok (TorchMD_GN.Out out)
    /\ length out = 3%nat
    /\ length (remove_dups [0; 2]%nat) = 2%nat.
Proof.
  eexists. split; [vm_compute; reflexivity|]. split; reflexivity.
Qed.

Lemma output_rows_witness :
  exists res,
    TorchMD_GN.forward (pkgs := example_packages) (example_model false false None None 0)
      [1; 8]%Z [[0; 0; 0]; [1; 0; 0]] (Some [0; 2]%nat)
    = ok res
    /\ length (out_of res) = 3%nat.
Proof.
  destruct (TorchMD_GN.forward (pkgs := example_packages)
              (example_model false false None None 0)
              [1; 8]%Z [[0; 0; 0]; [1; 0; 0]] (Some [0; 2]%nat)) as [e|res] eqn:Hres.
  - exfalso. vm_compute in Hres. discriminate Hres.
  - exists res. split; [reflexivity|].
    exact (proj1 (output_rows (pkgs := example_packages)
                    (example_model false false None None 0)
                    [1; 8]%Z [[0; 0; 0]; [1; 0; 0]] (Some [0; 2]%nat) res Hres)).
Defined.

Lemma derivative_without_dipole_raises_witness :
  let self := example_model false true None None 0 in
  TorchMD_GN.derivative self = true
  /\ TorchMD_GN.dipole self = false
  /\ exists e, TorchMD_GN.forward (pkgs := example_packages) self [1; 8]%Z
                 [[0; 0; 0]; [1; 0; 0]] None = inl e.
Proof.
  split; [reflexivity|]. split; [reflexivity|].
  exact (proj1 (proj1 (derivative_without_dipole_raises (pkgs := example_packages)
                         (example_model false true None None 0) [1; 8]%Z
                         [[0; 0; 0]; [1; 0; 0]] None eq_refl) eq_refl)).
Defined.

(** The call [forward(z, pos, batch)] on two one-atom molecules, for a
    model with [derivative=True] and [dipole=False]. *)
Lemma derivative_call_raises :
  TorchMD_GN.forward (pkgs := example_packages) (example_model false true None None 0)
    [1; 8]%Z [[0; 0; 0]; [1; 0; 0]] (Some [0; 1]%nat)
  = raise Autograd.unused_error.
Proof. vm_compute. reflexivity. Qed.

(** [TorchMD_GN(hidden_channels=2, num_filters=2, num_interactions=1,
    num_rbf=1, rbf_type='gauss', activation='tanh')]: after construction the
    bias of [mlp[0]] of the block is zero and that of [mlp[2]] is what
    [nn.Linear] drew for it. *)
Lemma constructed_mlp2_bias_nonzero :
  exists self blk v,
    TorchMD_GN.new (gen := example_generator) (utils := example_utils)
      (pkgs := example_packages) (example_config "gauss" "add" false) tt = inr (self, tt)
    /\ TorchMD_GN.interactions self = [blk]
    /\ bias (InteractionBlock.mlp_0 blk) = Some [0; 0]
    /\ bias (InteractionBlock.mlp_2 blk) = Some [v; v]
    /\ v <> 0.
Proof.
  eexists _, _, _. split.
  { cbv -[Rplus Rminus Rmult Rdiv Ropp Rinv sqrt INR IZR exp cos tanh PI Rlt_dec].
    reflexivity. }
  split; [reflexivity|]. split; [reflexivity|]. split; [reflexivity|].
  assert (Hs : 0 < sqrt (INR 2)) by (apply sqrt_lt_R0; simpl; lra).
  assert (Hb : 0 < 1 / sqrt (INR 2)) by (apply Rdiv_lt_0_compat; lra).
  set (bd := 1 / sqrt (INR 2)) in *. lra.
Qed.

(** [TorchMD_GN(readout='max')]: the assertion of line 70 carries no
    message, so the error names no valid alternative. *)
Lemma invalid_readout_counterexample :
  (TorchMD_GN.cfg_readout (example_config "gauss" "max" false)
     ∉ ["add"; "sum"; "mean"]%string)
  /\ TorchMD_GN.new (gen := example_generator) (utils := example_utils)
       (pkgs := example_packages) (example_config "gauss" "max" false) tt
     = inl (AssertionError EmptyString).
Proof.
  split; [|vm_compute; reflexivity].
  simpl. rewrite !elem_of_cons, elem_of_nil. intros [H|[H|[H|[]]]]; discriminate H.
Qed.

(** [TorchMD_GN(rbf_type='bessel')] with the registry of [example_utils],
    with [readout='add'] and with [readout='max']. *)
Lemma invalid_arguments_fail_witness :
  TorchMD_GN.new (gen := example_generator) (utils := example_utils)
    (pkgs := example_packages) (example_config "bessel" "add" false) tt
  = inl (AssertionError ("Unknown RBF type " +:+ dquote +:+ "bessel" +:+ dquote
                         +:+ ". Choose from gauss, expnorm."))
  /\ TorchMD_GN.new (gen := example_generator) (utils := example_utils)
       (pkgs := example_packages) (example_config "bessel" "max" false) tt
     = inl (AssertionError EmptyString).
Proof.
  split.
  - apply (proj1 (proj2 (invalid_arguments_fail (gen := example_generator)
                           (utils := example_utils) (pkgs := example_packages)
                           (example_config "bessel" "add" false) tt))).
    + apply list_elem_of_here.
    + reflexivity.
  - apply (proj1 (invalid_arguments_fail (gen := example_generator)
                    (utils := example_utils) (pkgs := example_packages)
                    (example_config "bessel" "max" false) tt)).
    simpl. rewrite !elem_of_cons, elem_of_nil. intros [H|[H|[H|[]]]]; discriminate H.
Defined.

(** A window with [cutoff_upper] below [cutoff_lower] passes the
    assertions. *)
Lemma empty_cutoff_window_passes :
  TorchMD_GN.check_arguments (gen := example_generator) (utils := example_utils)
    (with_cutoff 5 0 (example_config "gauss" "add" false))
  = ok tt.
Proof. vm_compute. reflexivity. Qed.

(** *** The example instances meet the assumptions *)

Lemma filter_ext_elem {A : Type} (P Q : A -> Prop) `{forall x, Decision (P x)}
    `{forall x, Decision (Q x)} (l : list A) :
  Forall (fun x => P x <-> Q x) l -> filter P l = filter Q l.
Proof.
  induction 1 as [|x l Hx _ IH]; [reflexivity|].
  destruct (decide (P x)) as [HP|HP].
  - rewrite !filter_cons_True by tauto. now rewrite IH.
  - rewrite !filter_cons_False by tauto. exact IH.
Qed.

Lemma list_prod_perm {A B : Type} (l1 l1' : list A) (l2 l2' : list B) :
  l1 ≡ₚ l1' -> l2 ≡ₚ l2' -> list_prod l1 l2 ≡ₚ list_prod l1' l2'.
Proof.
  intros H1 H2. rewrite !list_prod_as_flat_map.
  transitivity (flat_map (fun a => map (pair a) l2) l1').
  - now apply Permutation_flat_map.
  - clear H1. induction l1' as [|a l1' IH]; [reflexivity|]. simpl.
    apply Permutation_app; [now apply Permutation_map|exact IH].
Qed.

Lemma map_list_prod {A B : Type} (f : A -> B) (l1 l2 : list A) :
  map (fun p => (f p.1, f p.2)) (list_prod l1 l2) = list_prod (map f l1) (map f l2).
Proof.
  induction l1 as [|a l1 IH]; [reflexivity|]. simpl.
  rewrite map_app, IH, !map_map. reflexivity.
Qed.

Lemma list_prod_seq_range (n : nat) :
  Forall (fun p : nat * nat => (p.1 < n)%nat /\ (p.2 < n)%nat)
         (list_prod (seq 0 n) (seq 0 n)).
Proof.
  apply Forall_forall. intros [j i] Hp. apply list_elem_of_In, in_prod_iff in Hp.
  destruct Hp as [Hj Hi]. apply in_seq in Hj. apply in_seq in Hi. simpl. lia.
Qed.

Lemma example_radius_graph_in_range :
  radius_graph_in_range (pkgs := example_packages).
Proof.
  intros pos r batch. simpl. unfold example_radius_graph.
  apply Forall_forall. intros p Hp. apply list_elem_of_filter in Hp as [_ Hp].
  pose proof (list_prod_seq_range (length pos)) as Hr.
  rewrite Forall_forall in Hr. now apply Hr.
Qed.

Lemma example_radius_graph_rigid (M : list vec) (t : vec) :
  is_rotation M -> length t = 3%nat ->
  radius_graph_rigid (pkgs := example_packages) M t.
Proof.
  intros HM Ht pos r batch Hu. simpl. unfold example_radius_graph.
  rewrite length_map. apply Permutation_refl'.
  apply filter_ext_elem.
  eapply Forall_impl; [apply list_prod_seq_range|]. cbv beta.
  intros [j i] [Hj Hi]. simpl in *.
  unfold uniform in Hu. rewrite Forall_forall in Hu.
  rewrite (list_lookup_total_fmap (rigid M t) pos j) by exact Hj.
  rewrite (list_lookup_total_fmap (rigid M t) pos i) by exact Hi.
  rewrite rigid_distance; [reflexivity|assumption..| |];
    apply Hu; now apply list_elem_of_lookup_total_2.
Qed.

Lemma example_radius_graph_equivariant :
  radius_graph_equivariant (pkgs := example_packages).
Proof.
  intros sigma pos r batch Hp Hb. simpl. unfold example_radius_graph.
  pose proof (perm_length _ _ Hp) as Hl.
  rewrite length_index_select, Hl.
  set (n := length pos) in *.
  set (P := fun p : nat * nat =>
              p.1 <> p.2 /\ batch !! p.1 = batch !! p.2
              /\ norm (bsub (pos !!! p.1) (pos !!! p.2)) < r).
  transitivity (filter P (map (relabel_pair sigma) (list_prod (seq 0 n) (seq 0 n)))).
  - rewrite (filter_fmap_comm (relabel_pair sigma) P). apply Permutation_refl'.
    f_equal. apply filter_ext_elem.
    eapply Forall_impl; [apply list_prod_seq_range|]. cbv beta.
    intros [j i] [Hj Hi]. unfold P, relabel_pair. simpl in *.
    rewrite !index_select_lookup by lia.
    assert (Hbj : forall k, (k < n)%nat ->
              index_select batch sigma !! k = batch !! (sigma !!! k)).
    { intros k Hk. unfold index_select. rewrite list_lookup_fmap.
      destruct (lookup_lt_is_Some_2 sigma k) as [a Ha]; [lia|].
      rewrite Ha. simpl. rewrite (list_lookup_total_correct _ _ _ Ha).
      symmetry. apply list_lookup_lookup_total_lt.
      pose proof (perm_lt _ _ Hp) as Hlt. rewrite Forall_forall in Hlt.
      unfold n in *. rewrite Hb. apply Hlt. eapply list_elem_of_lookup_2, Ha. }
    rewrite !Hbj by assumption.
    split; intros (H1 & H2 & H3); repeat split; try assumption.
    + intros Heq. apply H1. now apply (perm_inj sigma n).
    + intros Heq. apply H1. now rewrite Heq.
  - apply filter_Permutation.
    change (relabel_pair sigma) with (fun p : nat * nat => (sigma !!! p.1, sigma !!! p.2)).
    rewrite (map_list_prod (fun k => sigma !!! k)).
    assert (Hs : map (fun k => sigma !!! k) (seq 0 n) = sigma).
    { rewrite <- Hl. symmetry. apply list_eq_seq. }
    rewrite Hs. now apply list_prod_perm.
Qed.

Lemma example_neighbor_embedding_equivariant (ne : @NeighborEmbedding _ example_utils) :
  neighbor_embedding_equivariant ne.
Proof. intros sigma z h edges edges' Hp Hh _ _. simpl. now split. Qed.

Lemma example_autograd_equivariant : autograd_equivariant (pkgs := example_packages).
Proof.
  intros f f' tau x Hp _. simpl. split; [apply length_map|].
  rewrite index_select_map by now apply perm_lt. reflexivity.
Qed.

Lemma turn_z_rotation : is_rotation turn_z.
Proof.
  exists 0, (-1), 0, 1, 0, 0, 0, 0, 1. split; [reflexivity|].
  repeat split; lra.
Qed.

Lemma rigid_invariance_witness :
  let self := example_model false false None None 0 in
  let pos := [[0; 0; 0]; [1; 0; 0]] in
  TorchMD_GN.forward (pkgs := example_packages) self [1; 8]%Z
    (map (rigid turn_z [1; 2; 3]) pos) None
  = TorchMD_GN.forward (pkgs := example_packages) self [1; 8]%Z pos None.
Proof.
  apply (rigid_invariance (pkgs := example_packages)
           (example_model false false None None 0) turn_z [1; 2; 3] [1; 8]%Z
           [[0; 0; 0]; [1; 0; 0]] None).
  - reflexivity.
  - exact turn_z_rotation.
  - reflexivity.
  - repeat constructor.
  - reflexivity.
  - exact example_radius_graph_in_range.
  - exact (example_radius_graph_rigid turn_z [1; 2; 3] turn_z_rotation eq_refl).
  - intros ne _. apply example_neighbor_embedding_equivariant.
Defined.

Lemma permutation_equivariance_witness :
  let self := example_model true true None None 0 in
  exists tau,
    tau ≡ₚ seq 0 2
    /\ TorchMD_GN.forward (pkgs := example_packages) self [8; 1]%Z
         [[1; 0; 0]; [0; 0; 0]] (Some [O; O])
       = rmap (permute_output tau)
           (TorchMD_GN.forward (pkgs := example_packages) self [1; 8]%Z
              [[0; 0; 0]; [1; 0; 0]] (Some [O; O])).
Proof.
  destruct (permutation_equivariance (pkgs := example_packages)
              (example_model true true None None 0) [1; 0]%nat [1; 8]%Z
              [[0; 0; 0]; [1; 0; 0]] (Some [O; O]))
    as (tau & Htau & _ & Hfwd & _).
  - apply perm_swap.
  - reflexivity.
  - intros b Hb. now injection Hb as <-.
  - repeat constructor.
  - exact example_radius_graph_in_range.
  - exact example_radius_graph_equivariant.
  - intros ne _. apply example_neighbor_embedding_equivariant.
  - intros table Htab. discriminate Htab.
  - exact example_autograd_equivariant.
  - exists tau. split; [exact Htau|exact Hfwd].
Defined.

(** * Further properties of the code

    What [__init__] leaves in a model, when [forward] returns and when it
    raises, and how the interaction block treats its edges. *)

(** ** Constructed models and calls *)

Lemma width_uniform (i : nat) (w : list vec) : uniform i w -> w <> [] -> width w = i.
Proof.
  intros Hu Hne. destruct w as [|row w]; [congruence|].
  unfold uniform in Hu. apply Forall_cons in Hu. exact (proj1 Hu).
Qed.

(** ** [copy_] *)

Lemma length_broadcast_row (cols : nat) (row : vec) :
  length (broadcast_row cols row) = cols.
Proof.
  unfold broadcast_row. destruct (Nat.eqb_spec (length row) cols) as [H|H]; [exact H|].
  apply length_replicate.
Qed.

Lemma copy__shape (rows cols : nat) (src w : list vec) :
  copy_ rows cols src = ok w -> length w = rows /\ uniform cols w.
Proof.
  unfold copy_. cbv zeta.
  destruct (forallb _ _); simpl; [|discriminate].
  destruct (orb _ _); simpl; [|discriminate].
  destruct (Nat.eqb_spec (length src) rows) as [Hr|Hr]; simpl.
  - intros Hw. injection Hw as <-. split; [now rewrite length_map|].
    unfold uniform. rewrite Forall_fmap. apply Forall_forall. intros row _.
    apply length_broadcast_row.
  - destruct (Nat.eqb_spec (length src) 1) as [H1|H1]; simpl; [|discriminate].
    intros Hw. injection Hw as <-. split; [apply length_replicate|].
    apply Forall_replicate.
    destruct src as [|row [|row' src]]; try discriminate H1. simpl.
    apply length_broadcast_row.
Qed.

(** Copying the same source into the tensor once more changes nothing. *)
Lemma copy__again (rows cols : nat) (src w : list vec) :
  (0 < rows)%nat -> copy_ rows cols src = ok w ->
  copy_ (length w) (width w) src = ok w.
Proof.
  intros Hpos Hw. destruct (copy__shape rows cols src w Hw) as [Hl Hu].
  rewrite Hl, (width_uniform cols w Hu); [exact Hw|].
  intros ->. simpl in Hl. lia.
Qed.

(** A source of the shape of the destination is copied as it is. *)
Lemma copy__full (rows : nat) (src w : list vec) :
  copy_ rows 1 src = ok w -> length src = rows -> w = src.
Proof.
  unfold copy_. cbv zeta. intros Hw Hl.
  destruct (forallb _ _) eqn:Hall; simpl in Hw; [|discriminate].
  destruct (orb (Nat.eqb (width src) 1) (Nat.eqb (width src) 1)) eqn:Hc; simpl in Hw;
    [|discriminate].
  rewrite (proj2 (Nat.eqb_eq _ _) Hl) in Hw. simpl in Hw. injection Hw as <-.
  assert (Hw1 : width src = 1%nat).
  { destruct (Nat.eqb_spec (width src) 1); [assumption|discriminate Hc]. }
  rewrite <- (map_id src) at 2. apply map_ext_in. intros row Hin.
  pose proof (proj1 (List.forallb_forall _ _) Hall row Hin) as Hrow.
  apply Nat.eqb_eq in Hrow.
  unfold broadcast_row. rewrite Hrow, Hw1. reflexivity.
Qed.

(** A source of one element is repeated over the destination. *)
Lemma copy__one (rows cols : nat) (v : R) :
  copy_ rows cols [[v]] = ok (replicate rows (replicate cols v)).
Proof.
  destruct rows as [|[|rows]], cols as [|[|cols]]; reflexivity.
Qed.

(** A source that does not broadcast to the destination. *)
Lemma copy__fails (rows cols : nat) (src : list vec) :
  (length src <> rows /\ length src <> 1%nat)
  \/ (width src <> cols /\ width src <> 1%nat) ->
  exists msg, copy_ rows cols src = raise (RuntimeError msg).
Proof.
  intros Hbad. unfold copy_. cbv zeta.
  destruct (forallb _ _); simpl; [|eexists; reflexivity].
  destruct Hbad as [[H1 H2]|[H1 H2]].
  - rewrite (proj2 (Nat.eqb_neq _ _) H1), (proj2 (Nat.eqb_neq _ _) H2).
    rewrite Bool.andb_false_r. eexists; reflexivity.
  - rewrite (proj2 (Nat.eqb_neq _ _) H1), (proj2 (Nat.eqb_neq _ _) H2).
    simpl. eexists; reflexivity.
Qed.

(** A copy that returns had a source that broadcasts. *)
Lemma copy__inv (rows cols : nat) (src w : list vec) :
  copy_ rows cols src = ok w ->
  (length src = rows \/ length src = 1%nat) /\ (width src = cols \/ width src = 1%nat).
Proof.
  intros Hw.
  destruct (Nat.eq_dec (length src) rows) as [Hr|Hr];
    [|destruct (Nat.eq_dec (length src) 1%nat) as [Hr1|Hr1]].
  3: { destruct (copy__fails rows cols src) as [msg Hm]; [left; now split|].
       rewrite Hm in Hw. discriminate Hw. }
  all: destruct (Nat.eq_dec (width src) cols) as [Hc|Hc];
    [|destruct (Nat.eq_dec (width src) 1%nat) as [Hc1|Hc1]]; try tauto.
  all: destruct (copy__fails rows cols src) as [msg Hm]; [right; now split|];
    rewrite Hm in Hw; discriminate Hw.
Qed.

Section Constructed.
Context {gen : Generator} {utils : Utils} {pkgs : Packages}.
Import TorchMD_GN.

Lemma reset_interactions_length (l : list InteractionBlock.t) (g : rng) :
  length (reset_interactions l g).1 = length l.
Proof.
  revert g. induction l as [|b l IH]; intros g; simpl; [reflexivity|].
  destruct (InteractionBlock.reset_parameters b g) as [b' g1]. specialize (IH g1).
  destruct (reset_interactions l g1) as [bs g2]. simpl in *. now rewrite IH.
Qed.

Lemma new_interactions_length (n h r f : nat) (a c : R -> R) (g : rng) :
  length (new_interactions n h r f a c g).1 = n.
Proof.
  revert g. induction n as [|n IH]; intros g; simpl; [reflexivity|].
  destruct (InteractionBlock.new h r f a c g) as [b g1]. specialize (IH g1).
  destruct (new_interactions n h r f a c g1) as [bs g2]. simpl in *. now rewrite IH.
Qed.

(** What [reset_parameters] leaves as it is. *)
Lemma reset_parameters_keeps (self self' : t) (g g' : rng) :
  reset_parameters self g = inr (self', g') ->
  hidden_channels self' = hidden_channels self
  /\ num_filters self' = num_filters self
  /\ num_interactions self' = num_interactions self
  /\ num_rbf self' = num_rbf self
  /\ rbf_type self' = rbf_type self
  /\ trainable_rbf self' = trainable_rbf self
  /\ activation self' = activation self
  /\ cutoff_lower self' = cutoff_lower self
  /\ cutoff_upper self' = cutoff_upper self
  /\ atomic_mass self' = atomic_mass self
  /\ distance_expansion self' = distance_expansion self
  /\ neighbor_embedding self' = neighbor_embedding self
  /\ act self' = act self
  /\ initial_atomref self' = initial_atomref self
  /\ length (embedding self') = length (embedding self)
  /\ length (interactions self') = length (interactions self)
  /\ match atomref self with
     | Some w => exists src w', initial_atomref self = Some src
                                /\ copy_ (length w) (width w) src = ok w'
                                /\ atomref self' = Some w'
     | None => atomref self' = None
     end.
Proof.
  unfold reset_parameters.
  pose proof (fill_rows_length normal_ (length (embedding self)) (width (embedding self)) g)
    as He.
  destruct (fill_rows normal_ _ _ g) as [emb g1].
  pose proof (reset_interactions_length (interactions self) g1) as Hi.
  destruct (reset_interactions (interactions self) g1) as [blocks g2].
  destruct (Linear_xavier (lin1 self) g2) as [l1 g3].
  destruct (Linear_xavier (lin2 self) g3) as [l2 g4].
  destruct (atomref self) as [w|].
  - destruct (initial_atomref self) as [src|]; simpl; [|discriminate].
    destruct (copy_ (length w) (width w) src) as [e|w'] eqn:Hc; simpl; [discriminate|].
    intros Hr. injection Hr as <- <-. simpl in *.
    repeat split; try assumption. now exists src, w'.
  - simpl. intros Hr. injection Hr as <- <-. simpl in *. repeat split; assumption.
Qed.

Ltac new_inv_step H :=
  match type of H with
  | rbind ?m _ = _ =>
      let E := fresh "E" in
      destruct m as [?|?] eqn:E; simpl in H; [discriminate H|]
  | (let '(_, _) := ?e in _) = _ =>
      let E := fresh "E" in destruct e as [? ?] eqn:E
  end.

(** The attributes of a model that [__init__] has built. *)
Lemma new_attributes (cfg : Config) (g g' : rng) (self : t) :
  new cfg g = inr (self, g') ->
  check_arguments cfg = ok tt
  /\ hidden_channels self = cfg_hidden_channels cfg
  /\ num_filters self = cfg_num_filters cfg
  /\ num_interactions self = cfg_num_interactions cfg
  /\ num_rbf self = cfg_num_rbf cfg
  /\ rbf_type self = cfg_rbf_type cfg
  /\ trainable_rbf self = cfg_trainable_rbf cfg
  /\ activation self = cfg_activation cfg
  /\ cutoff_lower self = cfg_cutoff_lower cfg
  /\ cutoff_upper self = cfg_cutoff_upper cfg
  /\ atomic_mass self = atomic_masses
  /\ (if cfg_neighbor_embedding cfg then is_Some (neighbor_embedding self)
      else neighbor_embedding self = None)
  /\ initial_atomref self = cfg_atomref cfg
  /\ match cfg_atomref cfg with
     | Some src => exists w, copy_ 100 1 src = ok w /\ atomref self = Some w
     | None => atomref self = None
     end
  /\ length (embedding self) = 100%nat
  /\ length (interactions self) = cfg_num_interactions cfg.
Proof.
  unfold new. intros Hnew.
  destruct (check_arguments cfg) as [?|[]] eqn:Hc; simpl in Hnew; [discriminate Hnew|].
  repeat new_inv_step Hnew.
  injection Hnew as <- <-.
  match goal with
  | E : reset_parameters ?s ?r = _ |- _ =>
      pose proof (reset_parameters_keeps s _ r _ E) as Hf
  end.
  cbn -[Embedding_new new_interactions copy_] in Hf.
  destruct Hf as (H1 & H2 & H3 & H4 & H5 & H6 & H7 & H8 & H9 & H10 & H11 & H12 & H13
                  & H14 & H15 & H16 & H17).
  repeat match goal with |- _ /\ _ => split end; try assumption; try reflexivity.
  - rewrite H12. destruct (cfg_neighbor_embedding cfg).
    + match goal with
      | E : rbind ?m _ = _ |- _ => destruct m as [?|[? ?]]; simpl in E; [discriminate E|];
                                   injection E as <- <-
      end. eexists; reflexivity.
    + match goal with E : ok _ = _ |- _ => now injection E as <- <- end.
  - destruct (cfg_atomref cfg) as [src|].
    + match goal with
      | E : (let '(_, _) := ?e in _) = _ |- _ =>
          destruct e; destruct (copy_ 100 1 src) as [?|w] eqn:Hcopy; simpl in E;
          [discriminate E|]; injection E as <- <-
      end.
      destruct H17 as (src' & w' & Hs & Hw & Ha). injection Hs as <-.
      rewrite (copy__again 100 1 src w) in Hw by (lia || assumption).
      injection Hw as <-. now exists w.
    + match goal with E : ok _ = _ |- _ => injection E as <- <- end. exact H17.
  - rewrite H15.
    match goal with
    | E : Embedding_new 100 ?w ?r = _ |- _ =>
        pose proof (fill_rows_length normal_ 100 w r) as He; unfold Embedding_new in E;
        rewrite E in He
    end. exact He.
  - rewrite H16.
    match goal with
    | E : new_interactions ?n ?a ?b ?c ?d ?e ?r = _ |- _ =>
        pose proof (new_interactions_length n a b c d e r) as He; rewrite E in He
    end. exact He.
Qed.

(** The reference table of a constructed model is the weight of
    [nn.Embedding(100, 1)]. *)
Lemma new_atomref_shape (cfg : Config) (g g' : rng) (self : t) (table : list vec) :
  new cfg g = inr (self, g') -> atomref self = Some table ->
  length table = 100%nat /\ uniform 1 table.
Proof.
  intros Hnew Ht.
  destruct (new_attributes cfg g g' self Hnew)
    as (_ & _ & _ & _ & _ & _ & _ & _ & _ & _ & _ & _ & _ & Haref & _).
  destruct (cfg_atomref cfg) as [src|]; [|congruence].
  destruct Haref as (w & Hw & Ha). rewrite Ha in Ht. injection Ht as <-.
  now apply (copy__shape 100 1 src).
Qed.
End Constructed.

Section Calls.
Context {gen : Generator} {utils : Utils} {pkgs : Packages}.
Import TorchMD_GN.

Lemma Embedding_forward_ok (table : list vec) (idx : list Z) :
  Forall (fun i => (0 <= i < Z.of_nat (length table))%Z) idx ->
  exists rows, Embedding_forward table idx = inr rows /\ length rows = length idx.
Proof.
  intros Hin. unfold Embedding_forward.
  induction Hin as [|i idx Hi _ (rows & IH & Hl)]; simpl; [now exists []|].
  destruct (Z.leb_spec 0 i) as [_|]; [|lia].
  destruct (lookup_lt_is_Some_2 table (Z.to_nat i)) as [row Hrow]; [lia|].
  rewrite Hrow, IH. simpl. exists (row :: rows). split; [reflexivity|simpl; lia].
Qed.

Lemma Embedding_forward_fails (table : list vec) (idx : list Z) :
  Exists (fun i => (i < 0 \/ Z.of_nat (length table) <= i)%Z) idx ->
  Embedding_forward table idx = inl (IndexError "index out of range in self").
Proof.
  intros Hex. unfold Embedding_forward. apply rmapM_fails.
  - intros i e. destruct (if (0 <=? i)%Z then table !! Z.to_nat i else None); [discriminate|].
    intros He. now injection He as <-.
  - eapply Exists_impl; [exact Hex|]. cbv beta. intros i Hi.
    exists (IndexError "index out of range in self").
    destruct (Z.leb_spec 0 i) as [H0|]; [|reflexivity].
    rewrite lookup_ge_None_2 by lia. reflexivity.
Qed.

Lemma Embedding_forward_inv (table : list vec) (idx : list Z) (rows : list vec) :
  Embedding_forward table idx = inr rows ->
  Forall (fun i => (0 <= i < Z.of_nat (length table))%Z) idx.
Proof.
  intros Hok. apply Forall_forall. intros i Hi.
  destruct (decide (0 <= i < Z.of_nat (length table))%Z) as [|Hn]; [assumption|].
  rewrite Embedding_forward_fails in Hok; [discriminate Hok|].
  apply Exists_exists. exists i. split; [exact Hi|lia].
Qed.

Lemma stack_length (blocks : list InteractionBlock.t) (h : list vec)
    (ei : list (nat * nat)) (ew : list R) (ea : list vec) :
  length (foldl (fun h b => tadd h (InteractionBlock.forward b h ei ew ea)) h blocks)
  = length h.
Proof.
  revert h. induction blocks as [|b blocks IH]; intros h; simpl; [reflexivity|].
  rewrite IH. unfold tadd. rewrite length_zip_with, length_block_forward. lia.
Qed.

(** [forward_features] fails exactly on an atomic number outside the
    embedding table, and returns one row per atom. *)
Lemma forward_features_ok (self : t) (z : list Z) (pos : list vec) (batch : list nat) :
  (forall ne, neighbor_embedding self = Some ne -> neighbor_embedding_rows ne) ->
  Forall (fun i => (0 <= i < Z.of_nat (length (embedding self)))%Z) z ->
  exists h, forward_features self z pos batch = ok h /\ length h = length z.
Proof.
  intros Hne Hz. unfold forward_features.
  destruct (Embedding_forward_ok _ _ Hz) as (h0 & -> & Hl). simpl.
  eexists. split; [reflexivity|]. rewrite stack_length.
  destruct (neighbor_embedding self) as [ne|]; [|exact Hl].
  now apply (Hne ne eq_refl).
Qed.

Lemma forward_features_fails (self : t) (z : list Z) (pos : list vec) (batch : list nat) :
  Exists (fun i => (i < 0 \/ Z.of_nat (length (embedding self)) <= i)%Z) z ->
  forward_features self z pos batch = inl (IndexError "index out of range in self").
Proof.
  intros Hex. unfold forward_features. now rewrite Embedding_forward_fails.
Qed.

(** The result of the derivative branch does not depend on whether [batch]
    was passed. *)
Lemma forward_result_batch_given (self : t) (bg bg' : bool) (h : list vec) (z : list Z)
    (pos : list vec) (batch : list nat) :
  forward_result self bg h z pos batch = forward_result self bg' h z pos batch.
Proof.
  unfold forward_result.
  destruct (forward_out self h z pos batch) as [e|out]; [reflexivity|]. simpl.
  destruct (derivative self); [|reflexivity].
  pose proof (filtered_pos_used self bg) as H1.
  pose proof (filtered_pos_used self bg') as H2. simpl in H1, H2.
  destruct (forward_graph self bg) as [go gp], (forward_graph self bg') as [go' gp'].
  simpl in H1, H2. now rewrite H1, H2.
Qed.

Lemma forward_result_cases (self : t) (bg : bool) (h : list vec) (z : list Z)
    (pos : list vec) (batch : list nat) :
  forward_result self bg h z pos batch
  = let* out := forward_out self h z pos batch in
    if derivative self then
      if dipole self then
        ok (OutDy out
              (map (map Ropp)
                 (autograd_grad (fun p => match forward_out self h z p batch with
                                          | inr o => o
                                          | inl _ => []
                                          end) pos)))
      else raise Autograd.unused_error
    else ok (Out out).
Proof.
  unfold forward_result.
  destruct (forward_out self h z pos batch) as [e|out]; [reflexivity|]. simpl.
  destruct (derivative self); [|reflexivity].
  pose proof (filtered_pos_used self bg) as H1. simpl in H1.
  destruct (forward_graph self bg) as [go gp]. simpl in H1. now rewrite H1.
Qed.
End Calls.

Section CallTheorems.
Context {gen : Generator} {utils : Utils} {pkgs : Packages}.
Import TorchMD_GN.

(** X1. A constructed model embeds the atomic numbers 0 to 99: a call with
    an atomic number below 0 or above 99 raises [IndexError], whatever the
    other arguments and the options of the model. *)
Theorem atomic_number_out_of_range (cfg : Config) (g g' : rng) (self : t) (z : list Z)
    (pos : list vec) (batch : option (list nat)) :
  new cfg g = inr (self, g') ->
  Exists (fun zi => (zi < 0 \/ 100 <= zi)%Z) z ->
  forward self z pos batch = raise (IndexError "index out of range in self").
Proof.
  intros Hnew Hex.
  destruct (new_attributes cfg g g' self Hnew)
    as (_ & _ & _ & _ & _ & _ & _ & _ & _ & _ & _ & _ & _ & _ & Hemb & _).
  unfold forward. rewrite forward_features_fails; [reflexivity|].
  now rewrite Hemb.
Qed.

Lemma check_arguments_readout (cfg : Config) :
  check_arguments cfg = ok tt -> cfg_readout cfg ∈ ["sum"; "add"; "mean"]%string.
Proof.
  unfold check_arguments.
  destruct (bool_decide (cfg_readout cfg ∈ ["add"; "sum"; "mean"]%string)) eqn:Hr;
    simpl; [|discriminate].
  intros _. apply bool_decide_eq_true in Hr.
  rewrite !elem_of_cons in Hr. rewrite !elem_of_cons. tauto.
Qed.

Lemma forward_readout_ok (self : t) (h : list vec) (batch : list nat) :
  readout self ∈ ["sum"; "add"; "mean"]%string ->
  exists out, forward_readout self h batch = ok out.
Proof.
  intros Hr. unfold forward_readout. rewrite bool_decide_eq_true_2 by exact Hr.
  simpl. eexists. reflexivity.
Qed.

Lemma reference_ok (self : t) (h : list vec) (z : list Z) :
  (forall table, atomref self = Some table ->
     Forall (fun zi => (0 <= zi < Z.of_nat (length table))%Z) z) ->
  exists h', reference self h z = ok h'.
Proof.
  intros Hz. unfold reference. destruct (dipole self); [now exists h|].
  destruct (atomref self) as [table|]; [|now exists h].
  destruct (Embedding_forward_ok table z (Hz table eq_refl)) as (ref & -> & _).
  simpl. eexists. reflexivity.
Qed.

(** A call with one position and one molecule id per atom returns when the
    atomic numbers index the embedding and the reference table, the readout
    is one of the three, and the derivative is asked of a dipole model
    only. *)
Lemma forward_returns (self : t) (z : list Z) (pos : list vec)
    (batch : option (list nat)) :
  (forall ne, neighbor_embedding self = Some ne -> neighbor_embedding_rows ne) ->
  Forall (fun zi => (0 <= zi < Z.of_nat (length (embedding self)))%Z) z ->
  (forall table, atomref self = Some table ->
     Forall (fun zi => (0 <= zi < Z.of_nat (length table))%Z) z) ->
  length pos = length z ->
  (forall b, batch = Some b -> length b = length z) ->
  readout self ∈ ["sum"; "add"; "mean"]%string ->
  (derivative self = true -> dipole self = true) ->
  exists res, forward self z pos batch = ok res.
Proof.
  intros Hne Hz Href Hpos Hb Hr Hd.
  set (b := match batch with Some b => b | None => map (fun _ => O) z end).
  assert (Hlb : length b = length z).
  { unfold b. destruct batch as [b'|]; [now apply Hb|apply length_map]. }
  unfold forward. fold b.
  destruct (forward_features_ok self z pos b Hne Hz) as (h & -> & Hlh).
  simpl. unfold forward_filter.
  rewrite !mask_select_ok by (rewrite length_map; unfold vec in *; lia). simpl.
  rewrite forward_result_cases. unfold forward_out, forward_atoms.
  set (mask := map (fun zi => (atom_filter self <? zi)%Z) z).
  destruct (reference_ok self
              (rescale self
                 (dipole_branch self (output_network self (mask_filter mask h))
                    (mask_filter mask z) (mask_filter mask pos) (mask_filter mask b)))
              (mask_filter mask z)) as (h' & ->).
  { intros table Ht. apply mask_filter_Forall. now apply Href. }
  simpl.
  destruct (forward_readout_ok self h' (mask_filter mask b) Hr) as (out & ->).
  simpl. destruct (derivative self); [|eexists; reflexivity].
  rewrite (Hd eq_refl). eexists. reflexivity.
Qed.

(** X2. For a constructed model and a call with one position and one
    molecule id per atom, [forward] returns if and only if every atomic
    number lies in 0..99 and the derivative is either off or asked of a
    dipole model. *)
Theorem forward_returns_iff (cfg : Config) (g g' : rng) (self : t) (z : list Z)
    (pos : list vec) (batch : option (list nat)) :
  new cfg g = inr (self, g') ->
  (forall ne, neighbor_embedding self = Some ne -> neighbor_embedding_rows ne) ->
  (forall table, cfg_atomref cfg = Some table -> length table = 100%nat) ->
  length pos = length z ->
  (forall b, batch = Some b -> length b = length z) ->
  (exists res, forward self z pos batch = ok res)
  <-> Forall (fun zi => (0 <= zi < 100)%Z) z
      /\ (cfg_derivative cfg = true -> cfg_dipole cfg = true).
Proof.
  intros Hnew Hne Href Hpos Hb.
  destruct (new_attributes cfg g g' self Hnew)
    as (Hc & _ & _ & _ & _ & _ & _ & _ & _ & _ & _ & _ & _ & Haref & Hemb & _).
  destruct (new_fields cfg g g' self Hnew) as (Hr & Hdip & _ & _ & Hder & _).
  set (b := match batch with Some b => b | None => map (fun _ => O) z end).
  assert (Hlb : length b = length z).
  { unfold b. destruct batch as [b'|]; [now apply Hb|apply length_map]. }
  split.
  - intros [res Hres]. split.
    + destruct (decide (Forall (fun zi => (0 <= zi < 100)%Z) z)) as [|Hn]; [assumption|].
      apply not_Forall_Exists in Hn; [|intros zi; apply _].
      unfold forward in Hres. rewrite forward_features_fails in Hres; [discriminate Hres|].
      rewrite Hemb.
      eapply Exists_impl; [exact Hn|]. cbv beta. intros zi Hzi. simpl in Hzi. lia.
    + intros Hd. rewrite <- Hdip. rewrite <- Hder in Hd.
      unfold forward in Hres.
      destruct (forward_features self z pos _) as [e|h]; [discriminate|]. simpl in Hres.
      destruct (forward_filter self h z pos _) as [e|[[[h1 z1] pos1] batch1]];
        [discriminate|]. simpl in Hres.
      rewrite forward_result_cases in Hres.
      destruct (forward_out self h1 z1 pos1 batch1) as [e|out]; [discriminate|].
      simpl in Hres. rewrite Hd in Hres.
      destruct (dipole self); [reflexivity|discriminate].
  - intros [Hz Hd]. unfold forward. fold b.
    destruct (forward_features_ok self z pos b Hne) as (h & -> & Hlh).
    { rewrite Hemb. exact Hz. }
    simpl. unfold forward_filter.
    rewrite !mask_select_ok by (rewrite length_map; unfold vec in *; lia). simpl.
    rewrite forward_result_cases. unfold forward_out, forward_atoms.
    set (mask := map (fun zi => (atom_filter self <? zi)%Z) z).
    destruct (reference_ok self
                (rescale self
                   (dipole_branch self (output_network self (mask_filter mask h))
                      (mask_filter mask z) (mask_filter mask pos) (mask_filter mask b)))
                (mask_filter mask z)) as (h' & ->).
    { intros table Ht.
      rewrite (proj1 (new_atomref_shape cfg g g' self table Hnew Ht)).
      now apply mask_filter_Forall. }
    simpl.
    destruct (forward_readout_ok self h' (mask_filter mask b)) as (out & ->).
    { rewrite Hr. destruct (cfg_dipole cfg);
        [rewrite !elem_of_cons; right; left; reflexivity|].
      now apply check_arguments_readout. }
    simpl. rewrite Hder, Hdip.
    destruct (cfg_derivative cfg); [|eexists; reflexivity].
    rewrite (Hd eq_refl). eexists. reflexivity.
Qed.

(** X3. Omitting [batch] is passing one molecule id 0 for every atom. *)
Theorem batch_default (self : t) (z : list Z) (pos : list vec) :
  forward self z pos None = forward self z pos (Some (map (fun _ => O) z)).
Proof.
  unfold forward.
  destruct (forward_features self z pos _) as [e|h]; [reflexivity|]. simpl.
  destruct (forward_filter self h z pos _) as [e|[[[h1 z1] pos1] batch1]];
    [reflexivity|]. simpl.
  apply forward_result_batch_given.
Qed.

Lemma forward_graph_reference (self : t) (m s : option R) (aref : option (list vec))
    (bg : bool) :
  dipole self = true ->
  forward_graph (with_reference m s aref self) bg = forward_graph self bg.
Proof.
  intros Hd. unfold forward_graph.
  cbn [dipole mean std atomref neighbor_embedding interactions with_reference].
  rewrite Hd. reflexivity.
Qed.

Lemma forward_out_reference (self : t) (m s : option R) (aref : option (list vec))
    (h : list vec) (z : list Z) (pos : list vec) (batch : list nat) :
  dipole self = true ->
  forward_out (with_reference m s aref self) h z pos batch
  = forward_out self h z pos batch.
Proof.
  intros Hd. unfold forward_out, forward_atoms, rescale, reference.
  cbn [dipole mean std atomref with_reference]. now rewrite Hd.
Qed.

(** X4. In dipole mode [mean], [std] and [atomref] are not read: a call
    returns what it returns for any other values of the three. *)
Theorem dipole_ignores_reference (self : t) (m s : option R) (aref : option (list vec))
    (z : list Z) (pos : list vec) (batch : option (list nat)) :
  dipole self = true ->
  forward (with_reference m s aref self) z pos batch = forward self z pos batch.
Proof.
  intros Hd. unfold forward.
  change (forward_features (with_reference m s aref self)) with (forward_features self).
  destruct (forward_features self z pos _) as [e|h]; [reflexivity|]. simpl.
  change (forward_filter (with_reference m s aref self)) with (forward_filter self).
  destruct (forward_filter self h z pos _) as [e|[[[h1 z1] pos1] batch1]];
    [reflexivity|]. simpl.
  unfold forward_result.
  rewrite forward_graph_reference by exact Hd.
  rewrite forward_out_reference by exact Hd.
  destruct (forward_out self h1 z1 pos1 batch1) as [e|out]; [reflexivity|]. simpl.
  cbn [derivative with_reference].
  destruct (derivative self); [|reflexivity].
  destruct (forward_graph self _) as [go gp].
  destruct (Autograd.used go gp); [|reflexivity].
  do 3 f_equal. f_equal. apply functional_extensionality. intros p.
  now rewrite forward_out_reference.
Qed.

(** X5. In dipole mode the first component of what is returned does not
    depend on [derivative]: asking for the derivative adds [dy] and leaves
    [out] as it is. *)
Theorem derivative_keeps_out (self : t) (d : bool) (z : list Z) (pos : list vec)
    (batch : option (list nat)) :
  dipole self = true ->
  rmap out_of (forward (with_derivative d self) z pos batch)
  = rmap out_of (forward self z pos batch).
Proof.
  intros Hd. unfold forward.
  change (forward_features (with_derivative d self)) with (forward_features self).
  destruct (forward_features self z pos _) as [e|h]; [reflexivity|]. simpl.
  change (forward_filter (with_derivative d self)) with (forward_filter self).
  destruct (forward_filter self h z pos _) as [e|[[[h1 z1] pos1] batch1]];
    [reflexivity|]. simpl.
  rewrite !forward_result_cases.
  change (forward_out (with_derivative d self)) with (forward_out self).
  cbn [derivative dipole with_derivative]. rewrite Hd.
  destruct (forward_out self h1 z1 pos1 batch1) as [e|out]; [reflexivity|]. simpl.
  destruct d, (derivative self); reflexivity.
Qed.
End CallTheorems.

(** *** Instances *)

Lemma example_neighbor_embedding_rows (ne : @NeighborEmbedding _ example_utils) :
  neighbor_embedding_rows ne.
Proof. intros z h ei ew ea Hl. exact Hl. Qed.

(** A call on two atoms of one molecule with [mean = 2] and [std = 3], and
    the same call with [mean = 2] and no [std]. *)
Lemma rescaling_needs_mean_and_std_witness :
  let self := example_model false false (Some 2) (Some 3) 0 in
  let self' := example_model false false (Some 2) None 0 in
  exists res h,
    TorchMD_GN.forward (pkgs := example_packages) self [1; 8]%Z [[0; 0; 0]; [1; 0; 0]] None
    = ok res
    /\ TorchMD_GN.forward_features (pkgs := example_packages) self [1; 8]%Z
         [[0; 0; 0]; [1; 0; 0]] [O; O] = ok h
    /\ (let mask := map (fun zi => (0 <? zi)%Z) [1; 8]%Z in
        let y := map (Linear_forward (TorchMD_GN.lin2 self))
                   (map (map tanh)
                      (map (Linear_forward (TorchMD_GN.lin1 self)) (mask_filter mask h))) in
        let x := map (map (fun v => v * 3 + 2)) y in
        out_of res = scatter x [O; O] (width x) None "add")
    /\ TorchMD_GN.forward (pkgs := example_packages) self' [1; 8]%Z
         [[0; 0; 0]; [1; 0; 0]] None
       = TorchMD_GN.forward (pkgs := example_packages)
           (with_mean_std None None self') [1; 8]%Z [[0; 0; 0]; [1; 0; 0]] None.
Proof.
  cbv zeta.
  destruct (TorchMD_GN.forward (pkgs := example_packages)
              (example_model false false (Some 2) (Some 3) 0)
              [1; 8]%Z [[0; 0; 0]; [1; 0; 0]] None) as [e|res] eqn:Hres.
  - exfalso.
    destruct (forward_returns (pkgs := example_packages)
                (example_model false false (Some 2) (Some 3) 0)
                [1; 8]%Z [[0; 0; 0]; [1; 0; 0]] None) as [res Hok].
    + intros ne _. apply example_neighbor_embedding_rows.
    + cbn -[replicate]. rewrite length_replicate.
      apply Forall_cons_2; [lia|]. apply Forall_cons_2; [lia|]. apply Forall_nil_2.
    + intros table Ht. discriminate Ht.
    + reflexivity.
    + intros b Hb. discriminate Hb.
    + apply list_elem_of_further, list_elem_of_here.
    + intros Hd. discriminate Hd.
    + rewrite Hok in Hres. discriminate Hres.
  - destruct (proj1 (rescaling_needs_mean_and_std (pkgs := example_packages)
                       (example_model false false (Some 2) (Some 3) 0) [1; 8]%Z
                       [[0; 0; 0]; [1; 0; 0]] None eq_refl) res Hres)
      as (h & Hh & Hout).
    exists res, h. split; [reflexivity|]. split; [exact Hh|]. split; [exact Hout|].
    apply (proj2 (rescaling_needs_mean_and_std (pkgs := example_packages)
                    (example_model false false (Some 2) None 0) [1; 8]%Z
                    [[0; 0; 0]; [1; 0; 0]] None eq_refl)).
    right. reflexivity.
Defined.

(** [TorchMD_GN(readout='mean', dipole=True)] called on two atoms of one
    molecule. *)
Lemma dipole_readout_is_norm_of_sum_witness :
  exists self g' res,
    TorchMD_GN.cfg_dipole (example_config "gauss" "mean" true) = true
    /\ TorchMD_GN.new (gen := example_generator) (utils := example_utils)
          (pkgs := example_packages) (example_config "gauss" "mean" true) tt
       = inr (self, g')
    /\ TorchMD_GN.forward (pkgs := example_packages) self [1; 8]%Z
         [[0; 0; 0]; [1; 0; 0]] None = ok res
    /\ TorchMD_GN.readout self = "add"%string
    /\ exists v, out_of res = [[norm v]].
Proof.
  destruct (TorchMD_GN.new (gen := example_generator) (utils := example_utils)
          (pkgs := example_packages) (example_config "gauss" "mean" true) tt)
    as [e|[self g']] eqn:Hnew.
  - exfalso. vm_compute in Hnew. discriminate Hnew.
  - destruct (new_fields (gen := example_generator) (utils := example_utils)
                (pkgs := example_packages) (example_config "gauss" "mean" true)
                tt g' self Hnew)
      as (Hread & Hdip & _ & _ & Hder & Hk).
    destruct (new_attributes (gen := example_generator)
                (utils := example_utils) (pkgs := example_packages)
                (example_config "gauss" "mean" true) tt g' self Hnew)
      as (_ & _ & _ & _ & _ & _ & _ & _ & _ & _ & _ & _ & _ & Haref & Hemb & _).
    destruct (TorchMD_GN.forward (pkgs := example_packages) self [1; 8]%Z
                [[0; 0; 0]; [1; 0; 0]] None) as [e|res] eqn:Hres.
    + exfalso.
      destruct (forward_returns (pkgs := example_packages) self
                  [1; 8]%Z [[0; 0; 0]; [1; 0; 0]] None) as [res Hok].
      * intros ne _. apply example_neighbor_embedding_rows.
      * rewrite Hemb.
        apply Forall_cons_2; [lia|]. apply Forall_cons_2; [lia|]. apply Forall_nil_2.
      * intros table Ht. simpl in Haref. rewrite Haref in Ht. discriminate Ht.
      * reflexivity.
      * intros b Hb. discriminate Hb.
      * rewrite Hread. apply list_elem_of_further, list_elem_of_here.
      * intros Hd. rewrite Hder in Hd. discriminate Hd.
      * rewrite Hok in Hres. discriminate Hres.
    + exists self, g', res. split; [reflexivity|]. split; [reflexivity|].
      split; [exact Hres|].
      destruct (dipole_readout_is_norm_of_sum (gen := example_generator)
                  (utils := example_utils) (pkgs := example_packages)
                  (example_config "gauss" "mean" true) tt g' self [1; 8]%Z
                  [[0; 0; 0]; [1; 0; 0]] None res eq_refl Hnew Hres)
        as (Hr & h & _ & Hout & Hlen & _).
      split; [exact Hr|].
      rewrite Hk in Hout, Hlen. rewrite Hout in Hlen |- *.
      rewrite length_map in Hlen.
      match goal with
      | |- exists v, map _ ?l = _ => destruct l as [|v [|w l']]; try discriminate Hlen
      end.
      now exists v.
Defined.

(** [TorchMD_GN(...)] called with the atomic number 100. *)
Lemma atomic_number_out_of_range_witness :
  exists self g',
    TorchMD_GN.new (gen := example_generator) (utils := example_utils)
      (pkgs := example_packages) (example_config "gauss" "add" false) tt = inr (self, g')
    /\ TorchMD_GN.forward (pkgs := example_packages) self [1; 100]%Z
         [[0; 0; 0]; [1; 0; 0]] None
       = raise (IndexError "index out of range in self").
Proof.
  destruct (TorchMD_GN.new (gen := example_generator) (utils := example_utils)
              (pkgs := example_packages) (example_config "gauss" "add" false) tt)
    as [e|[self g']] eqn:Hnew.
  - exfalso. vm_compute in Hnew. discriminate Hnew.
  - exists self, g'. split; [reflexivity|].
    apply (atomic_number_out_of_range (gen := example_generator)
             (utils := example_utils) (pkgs := example_packages)
             (example_config "gauss" "add" false) tt g' self [1; 100]%Z
             [[0; 0; 0]; [1; 0; 0]] None Hnew).
    apply Exists_cons_tl, Exists_cons_hd. lia.
Defined.

Lemma forward_returns_iff_witness :
  exists self g',
    TorchMD_GN.new (gen := example_generator) (utils := example_utils)
      (pkgs := example_packages) (example_config "gauss" "add" false) tt = inr (self, g')
    /\ exists res,
         TorchMD_GN.forward (pkgs := example_packages) self [1; 8]%Z
           [[0; 0; 0]; [1; 0; 0]] (Some [0; 1]%nat) = ok res.
Proof.
  destruct (TorchMD_GN.new (gen := example_generator) (utils := example_utils)
              (pkgs := example_packages) (example_config "gauss" "add" false) tt)
    as [e|[self g']] eqn:Hnew.
  - exfalso. vm_compute in Hnew. discriminate Hnew.
  - exists self, g'. split; [reflexivity|].
    apply (forward_returns_iff (gen := example_generator)
             (utils := example_utils) (pkgs := example_packages)
             (example_config "gauss" "add" false) tt g' self [1; 8]%Z
             [[0; 0; 0]; [1; 0; 0]] (Some [0; 1]%nat) Hnew).
    + intros ne _. apply example_neighbor_embedding_rows.
    + intros table Ht. discriminate Ht.
    + reflexivity.
    + intros b Hb. injection Hb as <-. reflexivity.
    + split; [|intros Hd; discriminate Hd].
      repeat (apply Forall_cons_2; [lia|]). apply Forall_nil_2.
Defined.

Lemma dipole_ignores_reference_witness :
  let self := example_model true false None None 0 in
  TorchMD_GN.dipole self = true
  /\ TorchMD_GN.forward (pkgs := example_packages)
       (with_reference (Some 2) (Some 3) (Some (replicate 100 [1])) self) [1; 8]%Z
       [[0; 0; 0]; [1; 0; 0]] None
     = TorchMD_GN.forward (pkgs := example_packages) self [1; 8]%Z
         [[0; 0; 0]; [1; 0; 0]] None.
Proof.
  split; [reflexivity|].
  exact (dipole_ignores_reference (pkgs := example_packages)
           (example_model true false None None 0) (Some 2) (Some 3)
           (Some (replicate 100 [1])) [1; 8]%Z [[0; 0; 0]; [1; 0; 0]] None eq_refl).
Defined.

Lemma derivative_keeps_out_witness :
  let self := example_model true false None None 0 in
  TorchMD_GN.dipole self = true
  /\ rmap out_of
       (TorchMD_GN.forward (pkgs := example_packages) (with_derivative true self) [1; 8]%Z
          [[0; 0; 0]; [1; 0; 0]] None)
     = rmap out_of
         (TorchMD_GN.forward (pkgs := example_packages) self [1; 8]%Z
            [[0; 0; 0]; [1; 0; 0]] None).
Proof.
  split; [reflexivity|].
  exact (derivative_keeps_out (pkgs := example_packages)
           (example_model true false None None 0) true [1; 8]%Z
           [[0; 0; 0]; [1; 0; 0]] None eq_refl).
Defined.

(** ** The convolution and its edges *)

Lemma cfconv_row_perm (self : CFConv.t) (net : vec -> vec) (x : list vec)
    (edges edges' : list Edge) (i : nat) :
  edges ≡ₚ edges' -> cfconv_row self net x edges i = cfconv_row self net x edges' i.
Proof.
  intros Hp. unfold cfconv_row. f_equal. apply foldl_vadd_perm. now rewrite Hp.
Qed.

Lemma cfconv_forward_perm (self : CFConv.t) (net : vec -> vec) (x : list vec)
    (edges edges' : list Edge) :
  edges ≡ₚ edges' ->
  CFConv.forward self net x (edge_index_of edges) (edge_weight_of edges)
    (edge_attr_of edges)
  = CFConv.forward self net x (edge_index_of edges') (edge_weight_of edges')
      (edge_attr_of edges').
Proof.
  intros Hp. rewrite !cfconv_forward_rows. apply map_ext. intros i.
  now apply cfconv_row_perm.
Qed.

(** X6. The update computed by an interaction block does not depend on the
    order in which the edges are listed. *)
Theorem interaction_edge_order (b : InteractionBlock.t) (x : list vec)
    (edges edges' : list Edge) :
  edges ≡ₚ edges' ->
  InteractionBlock.forward b x (edge_index_of edges) (edge_weight_of edges)
    (edge_attr_of edges)
  = InteractionBlock.forward b x (edge_index_of edges') (edge_weight_of edges')
      (edge_attr_of edges').
Proof.
  intros Hp. unfold InteractionBlock.forward.
  now rewrite (cfconv_forward_perm _ _ x edges edges' Hp).
Qed.

Lemma interaction_edge_order_witness :
  [ {| receiver := 1; sender := 0; distance := 1; radial_features := [1] |};
    {| receiver := 0; sender := 1; distance := 1; radial_features := [1] |} ]
  ≡ₚ example_edges
  /\ InteractionBlock.forward example_block [[1; 2]; [3; 4]] [(0, 1); (1, 0)]%nat
       [1; 1] [[1]; [1]]
     = InteractionBlock.forward example_block [[1; 2]; [3; 4]] [(1, 0); (0, 1)]%nat
         [1; 1] [[1]; [1]].
Proof.
  assert (Hp : [ {| receiver := 1; sender := 0; distance := 1; radial_features := [1] |};
                 {| receiver := 0; sender := 1; distance := 1; radial_features := [1] |} ]
               ≡ₚ example_edges) by apply Permutation_swap.
  split; [exact Hp|].
  exact (interaction_edge_order example_block [[1; 2]; [3; 4]] _ _ Hp).
Defined.

Lemma vadd_zeros_r (a : vec) (n : nat) : (length a <= n)%nat -> vadd a (zeros n) = a.
Proof.
  unfold vadd, zeros. revert n.
  induction a as [|x a IH]; intros [|n] Hl; simpl in *; try reflexivity; [lia|].
  f_equal; [lra|]. apply IH. lia.
Qed.

Lemma bmul_zeros_r (a : vec) (n : nat) : length a = n -> bmul a (zeros n) = zeros n.
Proof.
  intros Hl. unfold bmul. rewrite bop_same_length by (unfold zeros; now rewrite length_replicate).
  subst n. unfold zeros. induction a as [|x a IH]; simpl; [reflexivity|].
  f_equal; [lra|exact IH].
Qed.

Lemma dot_zeros_r (a : vec) (n : nat) : dot a (zeros n) = 0.
Proof.
  unfold dot, sum_vec, zeros. revert n.
  induction a as [|x a IH]; intros [|n]; simpl; try reflexivity.
  rewrite IH. lra.
Qed.

Lemma project_zeros (W : list vec) (n : nat) : project W (zeros n) = zeros (length W).
Proof.
  unfold project, zeros. induction W as [|row W IH]; simpl; [reflexivity|].
  f_equal; [apply dot_zeros_r|exact IH].
Qed.

Lemma project_bias_zeros (W : list vec) (b : vec) (n : nat) :
  length b = length W -> project_bias W b (zeros n) = b.
Proof.
  intros Hl. unfold project_bias. rewrite project_zeros. rewrite <- Hl. clear Hl.
  unfold zeros. induction b as [|x b IH]; simpl; [reflexivity|].
  f_equal; [lra|exact IH].
Qed.

Section BlockEdges.
Variables (F hidden : nat) (b : InteractionBlock.t) (b0 b2 b_out : vec).
Hypothesis Hshape : block_shape F hidden b b0 b2 b_out.

Lemma length_mlp (e : vec) : length (InteractionBlock.mlp b e) = F.
Proof.
  destruct Hshape as (H0 & L0 & LW0 & H2 & L2 & LW2 & _).
  unfold InteractionBlock.mlp.
  rewrite (Linear_forward_bias (InteractionBlock.mlp_2 b) b2) by (auto; lia).
  rewrite length_project_bias; lia.
Qed.

(** The message on an edge at whose distance the envelope vanishes. *)
Lemma code_message_zero (x : list vec) (e : Edge) :
  CFConv.cutoff (InteractionBlock.conv b) (distance e) = 0 ->
  (sender e < length x)%nat ->
  code_message (InteractionBlock.conv b) (InteractionBlock.mlp b) x e = zeros F.
Proof.
  pose proof Hshape as (_ & _ & _ & _ & _ & _ & H1 & L1 & _).
  intros Hc Hs. unfold code_message. rewrite Hc.
  assert (Hw : bmul (InteractionBlock.mlp b (radial_features e)) [0] = zeros F).
  { unfold bmul. rewrite bop_scalar_r. rewrite <- (length_mlp (radial_features e)).
    unfold zeros. induction (InteractionBlock.mlp b (radial_features e)) as [|v l IH];
      simpl; [reflexivity|]. f_equal; [lra|exact IH]. }
  rewrite Hw. apply bmul_zeros_r.
  rewrite (list_lookup_total_fmap
             (Linear_forward (CFConv.lin1 (InteractionBlock.conv b))) x (sender e))
    by exact Hs.
  rewrite Linear_forward_no_bias by exact H1. now rewrite length_project.
Qed.

Lemma foldl_vadd_zeros (k : nat) (msgs : list vec) :
  foldl vadd (zeros F) (replicate k (zeros F) ++ msgs) = foldl vadd (zeros F) msgs.
Proof.
  induction k as [|k IH]; simpl; [reflexivity|].
  rewrite vadd_zeros_r by (unfold zeros; rewrite length_replicate; lia). exact IH.
Qed.

Lemma cfconv_row_dead (x : list vec) (dead live : list Edge) (i : nat) :
  Forall (fun e => CFConv.cutoff (InteractionBlock.conv b) (distance e) = 0
                   /\ (sender e < length x)%nat) dead ->
  cfconv_row (InteractionBlock.conv b) (InteractionBlock.mlp b) x (dead ++ live) i
  = cfconv_row (InteractionBlock.conv b) (InteractionBlock.mlp b) x live i.
Proof.
  pose proof Hshape as (_ & _ & _ & _ & _ & _ & H1 & L1 & _).
  intros Hdead. unfold cfconv_row. f_equal. unfold out_features. rewrite L1.
  rewrite filter_app, map_app.
  replace (map (code_message (InteractionBlock.conv b) (InteractionBlock.mlp b) x)
               (filter (fun e => receiver e = i) dead))
    with (replicate (length (filter (fun e => receiver e = i) dead)) (zeros F)).
  { apply foldl_vadd_zeros. }
  induction Hdead as [|e dead [Hc Hs] _ IH]; [reflexivity|].
  destruct (decide (receiver e = i)) as [Hr|Hr].
  - rewrite filter_cons_True by exact Hr. simpl.
    rewrite code_message_zero by assumption. now rewrite IH.
  - rewrite filter_cons_False by exact Hr. exact IH.
Qed.
End BlockEdges.

(** X7. Edges at whose distance the cutoff envelope is zero do not
    contribute: the update of a block with the shapes of [__init__] is the
    one computed from the other edges alone. *)
Theorem zero_cutoff_edges_drop (F hidden : nat) (b : InteractionBlock.t)
    (b0 b2 b_out : vec) (x : list vec) (edges dead live : list Edge) :
  block_shape F hidden b b0 b2 b_out ->
  edges ≡ₚ dead ++ live ->
  Forall (fun e => CFConv.cutoff (InteractionBlock.conv b) (distance e) = 0
                   /\ (sender e < length x)%nat) dead ->
  InteractionBlock.forward b x (edge_index_of edges) (edge_weight_of edges)
    (edge_attr_of edges)
  = InteractionBlock.forward b x (edge_index_of live) (edge_weight_of live)
      (edge_attr_of live).
Proof.
  intros Hshape Hp Hdead. unfold InteractionBlock.forward.
  rewrite (cfconv_forward_perm _ _ x edges (dead ++ live) Hp).
  rewrite !cfconv_forward_rows. do 2 f_equal.
  apply map_ext. intros i.
  now apply (cfconv_row_dead F hidden b b0 b2 b_out Hshape).
Qed.

(** X8. An atom that is the receiver of no edge gets from a block an
    update that no feature enters: the mixing layer applied to the
    activation of the bias of the output projection of the convolution. *)
Theorem isolated_atom_update (F hidden : nat) (b : InteractionBlock.t)
    (b0 b2 b_out : vec) (x : list vec) (edges : list Edge) (i : nat) :
  block_shape F hidden b b0 b2 b_out ->
  (i < length x)%nat ->
  Forall (fun e => receiver e <> i) edges ->
  InteractionBlock.forward b x (edge_index_of edges) (edge_weight_of edges)
    (edge_attr_of edges) !! i
  = Some (Linear_forward (InteractionBlock.lin b) (map (InteractionBlock.act b) b_out)).
Proof.
  intros Hshape Hi Hno.
  pose proof Hshape as (_ & _ & _ & _ & _ & _ & H1 & L1 & Ho & Lo & LWo).
  unfold InteractionBlock.forward. rewrite cfconv_forward_rows.
  rewrite !list_lookup_fmap, lookup_seq_lt by exact Hi. simpl. do 3 f_equal.
  unfold cfconv_row.
  replace (filter (fun e => receiver e = i) edges) with (@nil Edge).
  2:{ symmetry. induction Hno as [|e edges He _ IH]; [reflexivity|].
      now rewrite filter_cons_False. }
  simpl. rewrite (Linear_forward_bias _ b_out) by (auto; lia).
  apply project_bias_zeros. lia.
Qed.

Lemma example_block_shape : block_shape 2 2 example_block [0; 0] [0; 0] [0; 0].
Proof. unfold block_shape; simpl; repeat split; reflexivity. Qed.

(** A third edge, between atoms 6 apart, beyond the cutoff of 5. *)
Lemma zero_cutoff_edges_drop_witness :
  InteractionBlock.forward example_block [[1; 2]; [3; 4]; [5; 6]]
    [(2, 0); (1, 0); (0, 1)]%nat [6; 1; 1] [[1]; [1]; [1]]
  = InteractionBlock.forward example_block [[1; 2]; [3; 4]; [5; 6]]
      [(1, 0); (0, 1)]%nat [1; 1] [[1]; [1]].
Proof.
  apply (zero_cutoff_edges_drop 2 2 example_block [0; 0] [0; 0] [0; 0]
           [[1; 2]; [3; 4]; [5; 6]]
           ({| receiver := 0; sender := 2; distance := 6; radial_features := [1] |}
              :: example_edges)
           [{| receiver := 0; sender := 2; distance := 6; radial_features := [1] |}]
           example_edges example_block_shape).
  - reflexivity.
  - apply Forall_cons_2; [|apply Forall_nil_2]. split; [|simpl; lia].
    simpl. unfold example_cutoff. destruct (decide (6 < 5)) as [H|_]; [lra|reflexivity].
Defined.

(** The third of three atoms, when the edges join the first two. *)
Lemma isolated_atom_update_witness :
  InteractionBlock.forward example_block [[1; 2]; [3; 4]; [5; 6]]
    [(1, 0); (0, 1)]%nat [1; 1] [[1]; [1]] !! 2%nat
  = Some (Linear_forward (InteractionBlock.lin example_block) (map tanh [0; 0])).
Proof.
  apply (isolated_atom_update 2 2 example_block [0; 0] [0; 0] [0; 0]
           [[1; 2]; [3; 4]; [5; 6]] example_edges 2 example_block_shape).
  - simpl. lia.
  - repeat (apply Forall_cons_2; [simpl; lia|]). apply Forall_nil_2.
Defined.

(** ** The shapes of the parameters *)

Ltac conjs := repeat match goal with |- _ /\ _ => split end; try assumption; try reflexivity.

Section Shapes.
Context {gen : Generator}.
Hypothesis Hgen : generator_lengths.

Lemma fill_rows_uniform (draw : nat -> rng -> vec * rng) (rows cols : nat) (g : rng) :
  (forall n r, length (draw n r).1 = n) ->
  uniform cols (fill_rows draw rows cols g).1.
Proof.
  intros Hdraw. revert g. induction rows as [|rows IH]; intros g; simpl; [constructor|].
  pose proof (Hdraw cols g) as Hv. destruct (draw cols g) as [v g1]. specialize (IH g1).
  destruct (fill_rows draw rows cols g1) as [m g2]. simpl in *. now constructor.
Qed.

Lemma Linear_new_dims (i o : nat) (with_bias : bool) (g : rng) :
  Linear_shape i o with_bias (Linear_new i o with_bias g).1.
Proof.
  destruct Hgen as [Hu _]. unfold Linear_new, Linear_shape.
  pose proof (fill_rows_length (uniform_ (- (1 / sqrt (INR i))) (1 / sqrt (INR i))) o i g)
    as Hl.
  pose proof (fill_rows_uniform (uniform_ (- (1 / sqrt (INR i))) (1 / sqrt (INR i))) o i g
                (Hu _ _)) as Hw.
  destruct (fill_rows _ o i g) as [w g1]. simpl in Hl, Hw.
  destruct with_bias.
  - pose proof (Hu (- (1 / sqrt (INR i))) (1 / sqrt (INR i)) o g1) as Hb.
    destruct (uniform_ _ _ o g1) as [b g2]. simpl in *.
    split; [exact Hl|]. split; [exact Hw|]. now exists b.
  - simpl. now repeat split.
Qed.

Lemma Linear_xavier_dims (i o : nat) (with_bias : bool) (l : Linear) (g : rng) :
  Linear_shape i o with_bias l -> Linear_shape i o with_bias (Linear_xavier l g).1.
Proof.
  destruct Hgen as [Hu _]. intros (Hl & Hw & Hb).
  unfold Linear_xavier, xavier_uniform_, Linear_shape.
  set (a := xavier_bound (width (weight l)) (length (weight l))).
  pose proof (fill_rows_length (uniform_ (- a) a) (length (weight l)) (width (weight l)) g)
    as Hl'.
  pose proof (fill_rows_uniform (uniform_ (- a) a) (length (weight l)) (width (weight l)) g
                (Hu _ _)) as Hw'.
  destruct (fill_rows _ _ _ g) as [w g1]. simpl in *.
  split; [lia|]. split; [|exact Hb].
  destruct (weight l) as [|row rest] eqn:Hwl.
  - simpl in Hl'. destruct w; [constructor|discriminate Hl'].
  - rewrite (width_uniform i (row :: rest)) in Hw' by (assumption || discriminate).
    exact Hw'.
Qed.

Lemma Linear_fill_bias_dims (i o : nat) (l : Linear) :
  Linear_shape i o true l ->
  Linear_shape i o true (Linear_fill_bias 0 l)
  /\ bias (Linear_fill_bias 0 l) = Some (zeros o).
Proof.
  intros (Hl & Hw & b & Hb & Hlb). unfold Linear_shape, Linear_fill_bias. simpl.
  rewrite Hb. simpl.
  assert (Hz : fill_ 0 b = zeros o).
  { subst o. rewrite <- Hlb. unfold fill_, zeros. clear.
    induction b as [|x b IH]; simpl; [reflexivity|now rewrite IH]. }
  rewrite Hz. repeat split; try assumption.
  exists (zeros o). split; [reflexivity|]. unfold zeros. apply length_replicate.
Qed.

Lemma CFConv_reset_dims (i o F : nat) (c : CFConv.t) (g : rng) :
  Linear_shape i F false (CFConv.lin1 c) -> Linear_shape F o true (CFConv.lin2 c) ->
  let c' := (CFConv.reset_parameters c g).1 in
  Linear_shape i F false (CFConv.lin1 c') /\ Linear_shape F o true (CFConv.lin2 c')
  /\ bias (CFConv.lin2 c') = Some (zeros o) /\ CFConv.cutoff c' = CFConv.cutoff c.
Proof.
  intros H1 H2. unfold CFConv.reset_parameters.
  pose proof (Linear_xavier_dims i F false (CFConv.lin1 c) g H1) as H1'.
  destruct (Linear_xavier (CFConv.lin1 c) g) as [l1 g1]. simpl in H1'.
  pose proof (Linear_xavier_dims F o true (CFConv.lin2 c) g1 H2) as H2'.
  destruct (Linear_xavier (CFConv.lin2 c) g1) as [l2 g2]. simpl in H2'.
  destruct (Linear_fill_bias_dims F o l2 H2') as [H3 H4].
  simpl. conjs.
Qed.

Lemma block_reset_dims (hidden num_rbf F : nat) (b : InteractionBlock.t) (g : rng) :
  block_dims hidden num_rbf F b ->
  let b' := (InteractionBlock.reset_parameters b g).1 in
  block_dims hidden num_rbf F b' /\ block_zero_biases hidden F b'
  /\ InteractionBlock.mlp_1 b' = InteractionBlock.mlp_1 b
  /\ InteractionBlock.act b' = InteractionBlock.act b
  /\ CFConv.cutoff (InteractionBlock.conv b') = CFConv.cutoff (InteractionBlock.conv b).
Proof.
  intros (H0 & H2 & Hc1 & Hc2 & Hl). unfold InteractionBlock.reset_parameters.
  pose proof (Linear_xavier_dims _ _ _ (InteractionBlock.mlp_0 b) g H0) as H0'.
  destruct (Linear_xavier (InteractionBlock.mlp_0 b) g) as [m0 g1]. simpl in H0'.
  pose proof (Linear_xavier_dims _ _ _ (InteractionBlock.mlp_2 b) g1 H2) as H2'.
  destruct (Linear_xavier (InteractionBlock.mlp_2 b) g1) as [m2 g2]. simpl in H2'.
  pose proof (CFConv_reset_dims hidden hidden F (InteractionBlock.conv b) g2 Hc1 Hc2)
    as (Hc1' & Hc2' & Hcb & Hcc).
  destruct (CFConv.reset_parameters (InteractionBlock.conv b) g2) as [c g3].
  simpl in Hc1', Hc2', Hcb, Hcc.
  pose proof (Linear_xavier_dims _ _ _ (InteractionBlock.lin b) g3 Hl) as Hl'.
  destruct (Linear_xavier (InteractionBlock.lin b) g3) as [l g4]. simpl in Hl'.
  destruct (Linear_fill_bias_dims num_rbf F m0 H0') as [H0a H0b].
  destruct (Linear_fill_bias_dims num_rbf F _ H0a) as [H0c H0d].
  destruct (Linear_fill_bias_dims hidden hidden l Hl') as [Hla Hlb].
  simpl. unfold block_dims, block_zero_biases. simpl. conjs.
Qed.

Lemma block_new_dims (hidden num_rbf F : nat) (activation cutoff : R -> R) (g : rng) :
  let b := (InteractionBlock.new hidden num_rbf F activation cutoff g).1 in
  block_dims hidden num_rbf F b /\ block_zero_biases hidden F b
  /\ InteractionBlock.mlp_1 b = activation /\ InteractionBlock.act b = activation
  /\ CFConv.cutoff (InteractionBlock.conv b) = cutoff.
Proof.
  unfold InteractionBlock.new, CFConv.new.
  pose proof (Linear_new_dims num_rbf F true g) as H0.
  destruct (Linear_new num_rbf F true g) as [m0 g1]. simpl in H0.
  pose proof (Linear_new_dims F F true g1) as H2.
  destruct (Linear_new F F true g1) as [m2 g2]. simpl in H2.
  pose proof (Linear_new_dims hidden F false g2) as Hc1.
  destruct (Linear_new hidden F false g2) as [c1 g3]. simpl in Hc1.
  pose proof (Linear_new_dims F hidden true g3) as Hc2.
  destruct (Linear_new F hidden true g3) as [c2 g4]. simpl in Hc2.
  pose proof (CFConv_reset_dims hidden hidden F
                {| CFConv.lin1 := c1; CFConv.lin2 := c2; CFConv.cutoff := cutoff |} g4
                Hc1 Hc2) as (Hc1' & Hc2' & _ & Hcc).
  destruct (CFConv.reset_parameters _ g4) as [c g5]. simpl in Hc1', Hc2', Hcc.
  pose proof (Linear_new_dims hidden hidden true g5) as Hl.
  destruct (Linear_new hidden hidden true g5) as [l g6]. simpl in Hl.
  pose proof (block_reset_dims hidden num_rbf F
                {| InteractionBlock.mlp_0 := m0; InteractionBlock.mlp_1 := activation;
                   InteractionBlock.mlp_2 := m2; InteractionBlock.conv := c;
                   InteractionBlock.act := activation; InteractionBlock.lin := l |} g6)
    as Hr.
  simpl in Hr. destruct Hr as (Hd & Hz & Ha & Hb & Hc); [unfold block_dims; simpl; conjs|].
  conjs. now rewrite Hc.
Qed.
End Shapes.

Section ModelShapes.
Context {gen : Generator} {utils : Utils} {pkgs : Packages}.
Hypothesis Hgen : generator_lengths.
Import TorchMD_GN.

Lemma reset_interactions_dims (hidden num_rbf F : nat) (l : list InteractionBlock.t)
    (g : rng) :
  Forall (block_dims hidden num_rbf F) l ->
  Forall (fun b => block_dims hidden num_rbf F b /\ block_zero_biases hidden F b)
         (reset_interactions l g).1.
Proof.
  intros Hl. revert g. induction Hl as [|b l Hb _ IH]; intros g; simpl; [constructor|].
  pose proof (block_reset_dims Hgen hidden num_rbf F b g Hb) as (Hd & Hz & _).
  destruct (InteractionBlock.reset_parameters b g) as [b' g1]. specialize (IH g1).
  destruct (reset_interactions l g1) as [bs g2]. simpl in *.
  constructor; [now split|exact IH].
Qed.

Lemma new_interactions_dims (n hidden num_rbf F : nat) (a c : R -> R) (g : rng) :
  Forall (fun b => block_dims hidden num_rbf F b /\ block_zero_biases hidden F b
                   /\ InteractionBlock.mlp_1 b = a /\ InteractionBlock.act b = a
                   /\ CFConv.cutoff (InteractionBlock.conv b) = c)
         (new_interactions n hidden num_rbf F a c g).1.
Proof.
  revert g. induction n as [|n IH]; intros g; simpl; [constructor|].
  pose proof (block_new_dims Hgen hidden num_rbf F a c g) as Hb.
  destruct (InteractionBlock.new hidden num_rbf F a c g) as [b g1]. specialize (IH g1).
  destruct (new_interactions n hidden num_rbf F a c g1) as [bs g2]. simpl in *.
  now constructor.
Qed.

(** [reset_parameters] keeps the shapes and fills the biases. *)
Lemma reset_parameters_dims (self self' : t) (g g' : rng) :
  model_dims self -> reset_parameters self g = inr (self', g') ->
  model_dims self'
  /\ Forall (block_zero_biases (hidden_channels self) (num_filters self))
            (interactions self')
  /\ bias (lin1 self') = Some (zeros (hidden_channels self / 2))
  /\ bias (lin2 self') = Some (zeros 1).
Proof.
  destruct Hgen as [Hu Hn].
  intros (He & Hew & Hi & Hb & H1 & H2). unfold reset_parameters.
  pose proof (fill_rows_length normal_ (length (embedding self)) (width (embedding self)) g)
    as He'.
  pose proof (fill_rows_uniform normal_ (length (embedding self)) (width (embedding self)) g
                Hn) as Hew'.
  destruct (fill_rows normal_ _ _ g) as [emb g1]. simpl in He', Hew'.
  pose proof (reset_interactions_length (interactions self) g1) as Hi'.
  pose proof (reset_interactions_dims _ _ _ (interactions self) g1 Hb) as Hb'.
  destruct (reset_interactions (interactions self) g1) as [blocks g2].
  simpl in Hi', Hb'.
  pose proof (Linear_xavier_dims Hgen _ _ _ (lin1 self) g2 H1) as H1'.
  destruct (Linear_xavier (lin1 self) g2) as [l1 g3]. simpl in H1'.
  pose proof (Linear_xavier_dims Hgen _ _ _ (lin2 self) g3 H2) as H2'.
  destruct (Linear_xavier (lin2 self) g3) as [l2 g4]. simpl in H2'.
  destruct (Linear_fill_bias_dims _ _ l1 H1') as [H1a H1b].
  destruct (Linear_fill_bias_dims _ _ l2 H2') as [H2a H2b].
  match goal with
  | |- rbind ?m _ = _ -> _ => destruct m as [e|aref]; simpl; [discriminate|]
  end.
  intros Hr. injection Hr as <- <-.
  unfold model_dims. simpl. conjs.
  - lia.
  - rewrite (width_uniform (hidden_channels self) (embedding self)) in Hew';
      [exact Hew'|exact Hew|].
    intros Hnil. rewrite Hnil in He. discriminate He.
  - lia.
  - eapply Forall_impl; [exact Hb'|]. now intros b [? ?].
  - eapply Forall_impl; [exact Hb'|]. now intros b [? ?].
Qed.

Ltac new_dims_step H :=
  match type of H with
  | rbind ?m _ = _ =>
      let E := fresh "E" in
      destruct m as [?|?] eqn:E; simpl in H; [discriminate H|]
  | (let '(_, _) := ?e in _) = _ => is_var e; destruct e as [? ?]
  end.

(** The parameters of a model that [__init__] has built. *)
Lemma new_dims (cfg : Config) (g g' : rng) (self : t) :
  new cfg g = inr (self, g') ->
  model_dims self
  /\ Forall (block_zero_biases (cfg_hidden_channels cfg) (cfg_num_filters cfg))
            (interactions self)
  /\ bias (lin1 self) = Some (zeros (cfg_hidden_channels cfg / 2))
  /\ bias (lin2 self) = Some (zeros 1).
Proof.
  destruct Hgen as [Hu Hn].
  unfold new. intros Hnew.
  repeat new_dims_step Hnew.
  match type of Hnew with
  | context [Embedding_new 100 ?w ?r] =>
      pose proof (fill_rows_length normal_ 100 w r) as He;
      pose proof (fill_rows_uniform normal_ 100 w r Hn) as Hew;
      unfold Embedding_new in Hnew;
      destruct (fill_rows normal_ 100 w r) as [emb g1]; simpl in He, Hew
  end.
  repeat new_dims_step Hnew.
  match type of Hnew with
  | context [new_interactions ?n ?a ?b ?c ?d ?e ?r] =>
      pose proof (new_interactions_length n a b c d e r) as Hi;
      pose proof (new_interactions_dims n a b c d e r) as Hb;
      destruct (new_interactions n a b c d e r) as [blocks g3]; simpl in Hi, Hb
  end.
  match type of Hnew with
  | context [Linear_new ?i ?o true g3] =>
      pose proof (Linear_new_dims Hgen i o true g3) as H1;
      destruct (Linear_new i o true g3) as [l1 g4]; simpl in H1
  end.
  match type of Hnew with
  | context [Linear_new ?i ?o true g4] =>
      pose proof (Linear_new_dims Hgen i o true g4) as H2;
      destruct (Linear_new i o true g4) as [l2 g5]; simpl in H2
  end.
  match type of Hnew with
  | rbind ?m _ = _ => destruct m as [e|[aref g6]]; simpl in Hnew; [discriminate Hnew|]
  end.
  match type of Hnew with
  | rbind (reset_parameters ?s ?r) _ = _ =>
      destruct (reset_parameters s r) as [e|[self0 g7]] eqn:Er; simpl in Hnew;
      [discriminate Hnew|];
      pose proof (fun H => reset_parameters_dims s self0 r g7 H Er) as Hr
  end.
  injection Hnew as <- <-. simpl in Hr. apply Hr.
  unfold model_dims. simpl. conjs.
  eapply Forall_impl; [exact Hb|]. now intros b [? ?].
Qed.
End ModelShapes.

(** ** The width of the output *)

Lemma mask_filter_length {A B : Type} (mask : list bool) (l : list A) (k : list B) :
  length l = length k -> length (mask_filter mask l) = length (mask_filter mask k).
Proof.
  revert l k. induction mask as [|m mask IH]; intros [|x l] [|y k] Hl; simpl in *;
    try reflexivity; try discriminate.
  destruct m; simpl; rewrite (IH l k) by lia; reflexivity.
Qed.

Lemma mask_select_inv {A : Type} (t : list A) (mask : list bool) (r : list A) :
  mask_select t mask = ok r -> length mask = length t /\ r = mask_filter mask t.
Proof.
  unfold mask_select. destruct (Nat.eqb_spec (length mask) (length t)) as [Hl|];
    [|discriminate].
  intros Hr. injection Hr as <-. now split.
Qed.

Lemma Linear_forward_column (i : nat) (l : Linear) (x : vec) :
  Linear_shape i 1 true l -> length (Linear_forward l x) = 1%nat.
Proof.
  intros (Hl & _ & b & Hb & Hlb). unfold Linear_forward. rewrite Hb.
  unfold badd. rewrite length_bop, length_map, Hl, Hlb. reflexivity.
Qed.

Lemma uniform_scatter (src : list vec) (idx : list nat) (reduce : string) :
  uniform 1 src -> uniform 1 (scatter src idx 1 None reduce).
Proof.
  intros Hs. unfold scatter. destruct (String.eqb reduce "mean");
    [|now apply uniform_scatter_sum].
  unfold scatter_mean, tdiv.
  apply (uniform_zip_with_bop Rdiv 1 1); [now apply uniform_scatter_sum|].
  eapply uniform_map; [|apply (uniform_scatter_sum 1)].
  - intros row Hrow. now rewrite length_map.
  - unfold uniform. rewrite Forall_fmap. apply Forall_forall. now intros.
Qed.

Section Column.
Context {gen : Generator} {utils : Utils} {pkgs : Packages}.
Import TorchMD_GN.

Lemma forward_out_column (i : nat) (self : t) (h : list vec) (z : list Z) (pos : list vec)
    (batch : list nat) (out : list vec) :
  Linear_shape i 1 true (lin2 self) -> atomref_uniform self ->
  length h = length batch -> length z = length batch ->
  forward_out self h z pos batch = ok out -> uniform 1 out.
Proof.
  intros H2 Href Hh Hz. unfold forward_out, forward_atoms, forward_readout.
  set (x0 := output_network self h).
  assert (H0 : uniform 1 x0).
  { unfold x0, output_network, uniform. rewrite Forall_fmap. apply Forall_forall.
    intros row _. simpl. now apply (Linear_forward_column i). }
  assert (Hl0 : length x0 = length batch).
  { unfold x0, output_network. now rewrite !length_map. }
  unfold dipole_branch, rescale, reference.
  destruct (dipole self).
  { simpl. destruct (bool_decide _); simpl; [|discriminate].
    intros Hout. injection Hout as <-.
    unfold uniform. rewrite Forall_fmap. apply Forall_forall. now intros. }
  set (x1 := match mean self with
             | Some mean0 => match std self with
                             | Some std0 => map (map (fun x => x * std0 + mean0)) x0
                             | None => x0
                             end
             | None => x0
             end).
  assert (H1 : uniform 1 x1 /\ length x1 = length batch).
  { unfold x1. destruct (mean self), (std self); try (now split).
    split; [|now rewrite length_map].
    eapply uniform_map; [|exact H0]. intros row Hrow. now rewrite length_map. }
  destruct H1 as [H1 Hl1].
  assert (Hread : forall c, uniform 1 c -> length c = length batch ->
            rbind (rbind (if bool_decide (readout self ∈ ["sum"; "add"; "mean"]%string)
                          then ok (scatter c batch (width c) None (readout self))
                          else raise (Raise "ValueError" EmptyString))
                         (fun out0 => ok out0)) (fun o => ok o) = ok out ->
            uniform 1 out).
  { intros c Hc Hlc. destruct (bool_decide _); simpl; [|discriminate].
    intros Hout. injection Hout as <-.
    destruct c as [|row c].
    - destruct batch; [|discriminate Hlc].
      pose proof (scatter_length [] [] (width []) (readout self)) as Hs.
      destruct (scatter [] [] (width []) None (readout self)); [constructor|discriminate Hs].
    - rewrite (width_uniform 1 (row :: c)) by (assumption || discriminate).
      now apply uniform_scatter. }
  destruct (atomref self) as [table|] eqn:Htab.
  - destruct (Embedding_forward table z) as [e|ref] eqn:Hemb; simpl; [discriminate|].
    intros Hout. apply (Hread (tadd x1 ref)).
    + unfold tadd. apply (uniform_zip_with_bop Rplus 1 1); [exact H1|].
      eapply Embedding_forward_uniform; [|exact Hemb]. now apply Href.
    + unfold tadd. rewrite length_zip_with. apply rmapM_length in Hemb.
      unfold vec in *. lia.
    + destruct (bool_decide _); simpl in *; exact Hout.
  - simpl. intros Hout. apply (Hread x1 H1 Hl1).
    destruct (bool_decide _); simpl in *; exact Hout.
Qed.

Lemma forward_column (i : nat) (self : t) (z : list Z) (pos : list vec)
    (batch : option (list nat)) (res : output) :
  Linear_shape i 1 true (lin2 self) -> atomref_uniform self ->
  forward self z pos batch = ok res -> uniform 1 (out_of res).
Proof.
  intros H2 Href. unfold forward.
  set (b := match batch with Some b => b | None => map (fun _ => O) z end).
  destruct (forward_features self z pos b) as [e|h]; [discriminate|]. simpl.
  unfold forward_filter.
  destruct (mask_select h _) as [e|h1] eqn:E1; [discriminate|]. simpl.
  destruct (mask_select z _) as [e|z1] eqn:E2; [discriminate|]. simpl.
  destruct (mask_select pos _) as [e|pos1] eqn:E3; [discriminate|]. simpl.
  destruct (mask_select b _) as [e|b1] eqn:E4; [discriminate|]. simpl.
  apply mask_select_inv in E1 as [L1 ->], E2 as [L2 ->], E4 as [L4 ->].
  rewrite forward_result_cases.
  destruct (forward_out self _ _ _ _) as [e|out] eqn:Hout; [discriminate|]. simpl.
  apply (forward_out_column i) in Hout; [|assumption..| |];
    [|apply mask_filter_length; unfold vec in *; lia..].
  destruct (derivative self); [destruct (dipole self); [|discriminate]|];
    intros Hres; injection Hres as <-; exact Hout.
Qed.
End Column.

(** ** What the constructors build *)

(** X9. [InteractionBlock(hidden_channels, num_rbf, num_filters, activation,
    cutoff_lower, cutoff_upper)] has five linear layers of the sizes
    [num_rbf -> num_filters], [num_filters -> num_filters],
    [hidden_channels -> num_filters] (without bias),
    [num_filters -> hidden_channels] and [hidden_channels -> hidden_channels];
    the biases of the first, the fourth and the fifth are zero, and the two
    activations and the cutoff are the ones passed. *)
Theorem interaction_block_constructed {gen : Generator} (hidden_channels num_rbf
    num_filters : nat) (activation cutoff : R -> R) (g : rng) :
  generator_lengths ->
  let b := (InteractionBlock.new hidden_channels num_rbf num_filters activation
              cutoff g).1 in
  block_dims hidden_channels num_rbf num_filters b
  /\ block_zero_biases hidden_channels num_filters b
  /\ InteractionBlock.mlp_1 b = activation /\ InteractionBlock.act b = activation
  /\ CFConv.cutoff (InteractionBlock.conv b) = cutoff.
Proof. intros Hgen. now apply block_new_dims. Qed.

Lemma example_generator_lengths : generator_lengths (gen := example_generator).
Proof. split; intros; simpl; apply length_replicate. Qed.

Lemma interaction_block_constructed_witness :
  let b := (InteractionBlock.new (gen := example_generator) 2 1 2 tanh
              (example_cutoff 0 5) tt).1 in
  block_dims 2 1 2 b /\ block_zero_biases 2 2 b.
Proof.
  pose proof (interaction_block_constructed (gen := example_generator) 2 1 2 tanh
                (example_cutoff 0 5) tt example_generator_lengths) as H.
  cbv zeta in H. split; [exact (proj1 H)|exact (proj1 (proj2 H))].
Defined.

Section ConstructedModel.
Context {gen : Generator} {utils : Utils} {pkgs : Packages}.
Import TorchMD_GN.

(** X10. A model that [__init__] has built has an embedding table of 100
    rows of [hidden_channels] entries, [num_interactions] blocks of the
    sizes above with zero biases, and an output network
    [hidden_channels -> hidden_channels // 2 -> 1] whose two biases are
    zero.  Its buffer [initial_atomref] is the table passed.  Its reference
    table is [None] when none was passed; otherwise it is the weight of
    [nn.Embedding(100, 1)] after [copy_]: 100 rows of one entry, equal to
    the table passed when that has 100 rows, and 100 times its entry when it
    has a single one; construction returns only for a table of one column
    and of 100 rows or one row. *)
Theorem model_constructed (cfg : Config) (g g' : rng) (self : t) :
  generator_lengths ->
  new cfg g = inr (self, g') ->
  model_dims self
  /\ hidden_channels self = cfg_hidden_channels cfg
  /\ num_filters self = cfg_num_filters cfg
  /\ num_rbf self = cfg_num_rbf cfg
  /\ num_interactions self = cfg_num_interactions cfg
  /\ Forall (block_zero_biases (cfg_hidden_channels cfg) (cfg_num_filters cfg))
            (interactions self)
  /\ bias (lin1 self) = Some (zeros (cfg_hidden_channels cfg / 2))
  /\ bias (lin2 self) = Some [0]
  /\ initial_atomref self = cfg_atomref cfg
  /\ match cfg_atomref cfg with
     | Some src =>
         exists w, atomref self = Some w
                   /\ copy_ 100 1 src = ok w
                   /\ length w = 100%nat /\ uniform 1 w
                   /\ (length src = 100%nat \/ length src = 1%nat) /\ width src = 1%nat
                   /\ (length src = 100%nat -> w = src)
                   /\ (forall v, src = [[v]] -> w = replicate 100 [v])
     | None => atomref self = None
     end.
Proof.
  intros Hgen Hnew.
  destruct (new_dims Hgen cfg g g' self Hnew) as (Hd & Hz & H1 & H2).
  destruct (new_attributes cfg g g' self Hnew)
    as (_ & Hh & Hf & Hi & Hr & _ & _ & _ & _ & _ & _ & _ & Hinit & Haref & _).
  conjs.
  destruct (cfg_atomref cfg) as [src|]; [|exact Haref].
  destruct Haref as (w & Hw & Ha). exists w.
  destruct (copy__shape 100 1 src w Hw) as [Hl Hu].
  destruct (copy__inv 100 1 src w Hw) as [Hrows Hcols].
  conjs.
  - tauto.
  - now apply copy__full.
  - intros v ->. rewrite copy__one in Hw. now injection Hw as <-.
Qed.

(** X11. [reset_parameters] keeps the sizes of all parameters and leaves the
    biases of the output network and three biases of every block zero.  A
    reference table keeps its shape: the buffer [initial_atomref] is copied
    into it with [copy_], a table of the same number of rows and columns
    results, and the call raises when the buffer does not broadcast to that
    shape; a model without reference table stays without one.  The call
    returns exactly when this copy does. *)
Theorem reset_parameters_keeps_shapes (self : t) (g : rng) :
  generator_lengths ->
  model_dims self ->
  (forall self' g',
     reset_parameters self g = inr (self', g') ->
     model_dims self'
     /\ Forall (block_zero_biases (hidden_channels self) (num_filters self))
               (interactions self')
     /\ bias (lin1 self') = Some (zeros (hidden_channels self / 2))
     /\ bias (lin2 self') = Some [0]
     /\ initial_atomref self' = initial_atomref self
     /\ match atomref self with
        | Some w =>
            exists src w', initial_atomref self = Some src
                           /\ copy_ (length w) (width w) src = ok w'
                           /\ atomref self' = Some w'
                           /\ length w' = length w /\ uniform (width w) w'
        | None => atomref self' = None
        end)
  /\ ((exists self' g', reset_parameters self g = inr (self', g'))
      <-> (forall w, atomref self = Some w ->
             exists src w', initial_atomref self = Some src
                            /\ copy_ (length w) (width w) src = ok w')).
Proof.
  intros Hgen Hd. split.
  - intros self' g' Hr.
    destruct (reset_parameters_dims Hgen self self' g g' Hd Hr) as (Hd' & Hz & H1 & H2).
    destruct (reset_parameters_keeps self self' g g' Hr)
      as (_ & _ & _ & _ & _ & _ & _ & _ & _ & _ & _ & _ & _ & Hinit & _ & _ & Haref).
    conjs.
    destruct (atomref self) as [w|]; [|exact Haref].
    destruct Haref as (src & w' & Hs & Hw & Ha). exists src, w'.
    destruct (copy__shape _ _ src w' Hw) as [Hl Hu]. conjs.
  - split.
    + intros (self' & g' & Hr) w Hw.
      destruct (reset_parameters_keeps self self' g g' Hr)
        as (_ & _ & _ & _ & _ & _ & _ & _ & _ & _ & _ & _ & _ & _ & _ & _ & Haref).
      rewrite Hw in Haref. destruct Haref as (src & w' & Hs & Hc & _).
      now exists src, w'.
    + intros Hw. unfold reset_parameters.
      destruct (fill_rows normal_ _ _ g) as [emb g1].
      destruct (reset_interactions (interactions self) g1) as [blocks g2].
      destruct (Linear_xavier (lin1 self) g2) as [l1 g3].
      destruct (Linear_xavier (lin2 self) g3) as [l2 g4].
      destruct (atomref self) as [w|].
      * destruct (Hw w eq_refl) as (src & w' & -> & ->). simpl.
        eexists _, _. reflexivity.
      * simpl. eexists _, _. reflexivity.
Qed.

(** X12. What a constructed model returns is a column: every row of [out]
    has exactly one entry, for each readout and with or without dipole
    mode, provided the reference table that was passed has one column. *)
Theorem output_is_column (cfg : Config) (g g' : rng) (self : t) (z : list Z)
    (pos : list vec) (batch : option (list nat)) (res : output) :
  generator_lengths ->
  new cfg g = inr (self, g') ->
  (forall table, cfg_atomref cfg = Some table -> uniform 1 table) ->
  forward self z pos batch = ok res ->
  uniform 1 (out_of res).
Proof.
  intros Hgen Hnew Href Hres.
  destruct (new_dims Hgen cfg g g' self Hnew) as ((_ & _ & _ & _ & _ & H2) & _).
  apply (forward_column (hidden_channels self / 2) self z pos batch res H2);
    [|exact Hres].
  intros table Ht. exact (proj2 (new_atomref_shape cfg g g' self table Hnew Ht)).
Qed.
End ConstructedModel.

Lemma example_block_dims : block_dims 2 1 2 example_block.
Proof.
  unfold block_dims, Linear_shape, uniform. simpl.
  repeat match goal with
         | |- _ /\ _ => split
         | |- exists _, _ => eexists
         | |- Forall _ _ => repeat constructor
         | |- _ = _ => reflexivity
         end.
Qed.

Lemma example_model_dims (dipole derivative : bool) (mean std : option R) (k : Z) :
  model_dims (example_model dipole derivative mean std k).
Proof.
  unfold model_dims. cbn -[replicate]. split; [apply length_replicate|]. split.
  { apply Forall_replicate. reflexivity. }
  split; [reflexivity|]. split.
  { apply Forall_cons_2; [apply example_block_dims|apply Forall_nil_2]. }
  unfold Linear_shape, uniform. simpl.
  split; (split; [reflexivity|]); (split; [repeat constructor|]);
    eexists; split; reflexivity.
Qed.

Lemma model_constructed_witness :
  exists self g',
    TorchMD_GN.new (gen := example_generator) (utils := example_utils)
      (pkgs := example_packages)
      (with_atomref (Some [[5]]) (example_config "gauss" "add" false)) tt = inr (self, g')
    /\ model_dims self
    /\ bias (TorchMD_GN.lin2 self) = Some [0]
    /\ TorchMD_GN.atomref self = Some (replicate 100 [5]).
Proof.
  destruct (TorchMD_GN.new (gen := example_generator) (utils := example_utils)
              (pkgs := example_packages)
              (with_atomref (Some [[5]]) (example_config "gauss" "add" false)) tt)
    as [e|[self g']] eqn:Hnew.
  - exfalso. vm_compute in Hnew. discriminate Hnew.
  - exists self, g'. split; [reflexivity|].
    pose proof (model_constructed (gen := example_generator) (utils := example_utils)
                  (pkgs := example_packages)
                  (with_atomref (Some [[5]]) (example_config "gauss" "add" false)) tt g'
                  self example_generator_lengths Hnew) as H.
    split; [exact (proj1 H)|].
    split; [exact (proj1 (proj2 (proj2 (proj2 (proj2 (proj2 (proj2 (proj2 H))))))))|].
    destruct H as (_ & _ & _ & _ & _ & _ & _ & _ & _ & w & -> & _ & _ & _ & _ & _ & _ & Hw).
    now rewrite (Hw 5 eq_refl).
Defined.

Lemma reset_parameters_keeps_shapes_witness :
  exists self self',
    TorchMD_GN.new (gen := example_generator) (utils := example_utils)
      (pkgs := example_packages)
      (with_atomref (Some [[5]]) (example_config "gauss" "add" false)) tt = inr (self, tt)
    /\ TorchMD_GN.reset_parameters (gen := example_generator) self tt = inr (self', tt)
    /\ model_dims self'
    /\ TorchMD_GN.atomref self' = Some (replicate 100 [5]).
Proof.
  destruct (TorchMD_GN.new (gen := example_generator) (utils := example_utils)
              (pkgs := example_packages)
              (with_atomref (Some [[5]]) (example_config "gauss" "add" false)) tt)
    as [e|[self []]] eqn:Hnew.
  - exfalso. vm_compute in Hnew. discriminate Hnew.
  - pose proof (new_dims (gen := example_generator) (utils := example_utils)
                  (pkgs := example_packages) example_generator_lengths _ _ _ _ Hnew)
      as (Hd & _).
    pose proof (new_attributes (gen := example_generator) (utils := example_utils)
                  (pkgs := example_packages) _ _ _ _ Hnew)
      as (_ & _ & _ & _ & _ & _ & _ & _ & _ & _ & _ & _ & Hinit & (w & Hw & Ha) & _).
    rewrite copy__one in Hw. injection Hw as <-.
    destruct (reset_parameters_keeps_shapes (gen := example_generator)
                (utils := example_utils) self tt example_generator_lengths Hd)
      as [Hshape Hreturns].
    destruct (proj2 Hreturns) as (self' & [] & Hr).
    { intros w Hw. rewrite Ha in Hw. injection Hw as <-.
      exists [[5]], (replicate 100 [5]). split; [exact Hinit|]. reflexivity. }
    exists self, self'. split; [reflexivity|]. split; [exact Hr|].
    destruct (Hshape self' tt Hr) as (Hd' & _ & _ & _ & _ & Haref).
    split; [exact Hd'|].
    rewrite Ha in Haref. destruct Haref as (src & w' & Hs & Hc & -> & _).
    rewrite Hinit in Hs. injection Hs as <-.
    change (copy_ 100 1 [[5]] = ok w') in Hc. rewrite copy__one in Hc.
    now injection Hc as <-.
Defined.

Lemma output_is_column_witness :
  exists self g' res,
    TorchMD_GN.new (gen := example_generator) (utils := example_utils)
      (pkgs := example_packages) (example_config "gauss" "mean" false) tt = inr (self, g')
    /\ TorchMD_GN.forward (pkgs := example_packages) self [1; 8]%Z
         [[0; 0; 0]; [1; 0; 0]] (Some [0; 1]%nat) = ok res
    /\ uniform 1 (out_of res).
Proof.
  destruct (TorchMD_GN.new (gen := example_generator) (utils := example_utils)
              (pkgs := example_packages) (example_config "gauss" "mean" false) tt)
    as [e|[self g']] eqn:Hnew.
  - exfalso. vm_compute in Hnew. discriminate Hnew.
  - destruct (TorchMD_GN.forward (pkgs := example_packages) self [1; 8]%Z
                [[0; 0; 0]; [1; 0; 0]] (Some [0; 1]%nat)) as [e|res] eqn:Hres.
    + exfalso.
      assert (Hs : self = (let r := TorchMD_GN.new (gen := example_generator)
                             (utils := example_utils) (pkgs := example_packages)
                             (example_config "gauss" "mean" false) tt in
                           match r with inr (s, _) => s | inl _ => self end))
        by (now rewrite Hnew).
      rewrite Hs in Hres. vm_compute in Hres. discriminate Hres.
    + exists self, g', res. split; [reflexivity|]. split; [exact Hres|].
      apply (output_is_column (gen := example_generator) (utils := example_utils)
               (pkgs := example_packages) (example_config "gauss" "mean" false) tt g'
               self [1; 8]%Z [[0; 0; 0]; [1; 0; 0]] (Some [0; 1]%nat) res
               example_generator_lengths Hnew); [|exact Hres].
      intros table Ht. discriminate Ht.
Defined.

(** ** [__repr__] *)

Section ReprProperties.
Context {gen : Generator} {utils : Utils} {pkgs : Packages} {fmt : Format}.
Import TorchMD_GN.

(** X13. The text of a constructed model lists the constructor's values of
    [hidden_channels], [num_filters], [num_interactions], [num_rbf],
    [rbf_type], [trainable_rbf], [activation], the cutoff window,
    [derivative] and [atom_filter]; for [neighbor_embedding] it shows not
    the flag that was passed but [None] when the flag was [False] and the
    text of the module otherwise; [readout], [dipole], [mean], [std] and
    [atomref] do not appear. *)
Theorem repr_of_constructed (cfg : Config) (g g' : rng) (self : t) :
  new cfg g = inr (self, g') ->
  exists shown,
    __repr__ self
    = ("TorchMD_GN(hidden_channels=" +:+ pretty (cfg_hidden_channels cfg)
       +:+ ", num_filters=" +:+ pretty (cfg_num_filters cfg)
       +:+ ", num_interactions=" +:+ pretty (cfg_num_interactions cfg)
       +:+ ", num_rbf=" +:+ pretty (cfg_num_rbf cfg)
       +:+ ", rbf_type=" +:+ cfg_rbf_type cfg
       +:+ ", trainable_rbf=" +:+ str_bool (cfg_trainable_rbf cfg)
       +:+ ", activation=" +:+ cfg_activation cfg
       +:+ ", neighbor_embedding=" +:+ shown
       +:+ ", cutoff_lower=" +:+ str_float (cfg_cutoff_lower cfg)
       +:+ ", cutoff_upper=" +:+ str_float (cfg_cutoff_upper cfg)
       +:+ ", derivative=" +:+ str_bool (cfg_derivative cfg)
       +:+ ", atom_filter=" +:+ pretty (cfg_atom_filter cfg) +:+ ")")%string
    /\ if cfg_neighbor_embedding cfg
       then exists ne, neighbor_embedding self = Some ne
                       /\ shown = NeighborEmbedding_repr ne
       else shown = "None"%string.
Proof.
  intros Hnew.
  destruct (new_attributes cfg g g' self Hnew)
    as (_ & Hh & Hf & Hi & Hr & Ht & Htr & Ha & Hl & Hu & _ & Hne & _).
  destruct (new_fields cfg g g' self Hnew) as (_ & _ & _ & _ & Hd & Hk).
  exists (match neighbor_embedding self with
          | Some ne => NeighborEmbedding_repr ne
          | None => "None"%string
          end).
  split.
  - unfold __repr__. rewrite Hh, Hf, Hi, Hr, Ht, Htr, Ha, Hl, Hu, Hd, Hk.
    simpl. rewrite ?append_assoc. reflexivity.
  - destruct (cfg_neighbor_embedding cfg).
    + destruct Hne as [ne Hne]. exists ne. now rewrite Hne.
    + now rewrite Hne.
Qed.
End ReprProperties.

Lemma repr_of_constructed_witness :
  exists self g',
    TorchMD_GN.new (gen := example_generator) (utils := example_utils)
      (pkgs := example_packages) (example_config "gauss" "mean" true) tt = inr (self, g')
    /\ TorchMD_GN.__repr__ (fmt := example_format) self
       = ("TorchMD_GN(hidden_channels=2, num_filters=2, num_interactions=1, num_rbf=1, "
          +:+ "rbf_type=gauss, trainable_rbf=True, activation=tanh, "
          +:+ "neighbor_embedding=NeighborEmbedding(), cutoff_lower=0.0, "
          +:+ "cutoff_upper=5.0, derivative=False, atom_filter=0)")%string.
Proof.
  destruct (TorchMD_GN.new (gen := example_generator) (utils := example_utils)
              (pkgs := example_packages) (example_config "gauss" "mean" true) tt)
    as [e|[self g']] eqn:Hnew.
  - exfalso. vm_compute in Hnew. discriminate Hnew.
  - exists self, g'. split; [reflexivity|].
    destruct (repr_of_constructed (gen := example_generator) (utils := example_utils)
                (pkgs := example_packages) (fmt := example_format)
                (example_config "gauss" "mean" true) tt g' self Hnew)
      as (shown & -> & ne & _ & ->).
    cbn [example_config TorchMD_GN.cfg_hidden_channels TorchMD_GN.cfg_num_filters
         TorchMD_GN.cfg_num_interactions TorchMD_GN.cfg_num_rbf TorchMD_GN.cfg_rbf_type
         TorchMD_GN.cfg_trainable_rbf TorchMD_GN.cfg_activation
         TorchMD_GN.cfg_cutoff_lower TorchMD_GN.cfg_cutoff_upper
         TorchMD_GN.cfg_derivative TorchMD_GN.cfg_atom_filter
         str_float NeighborEmbedding_repr example_format str_bool].
    destruct (decide (0 < 1)) as [_|H]; [|exfalso; lra].
    destruct (decide (5 < 1)) as [H|_]; [exfalso; lra|].
    reflexivity.
Defined.

(** ** Rigid motions in dipole mode *)

Ltac entries tac :=
  match goal with
  | |- [?x] = [?y] => f_equal; tac
  | |- ?x :: _ = ?y :: _ => f_equal; [tac|entries tac]
  | |- [] = [] => reflexivity
  end.

Section Rotation.
Variables (M : list vec) (t : vec).
Hypothesis HM : is_rotation M.
Hypothesis Ht : length t = 3%nat.

Lemma length_project3 (v : vec) : length (project M v) = 3%nat.
Proof.
  destruct HM as (a & b & c & d & e & f & g & h & i & -> & _). reflexivity.
Qed.

Lemma project_vadd (v w : vec) :
  length v = 3%nat -> length w = 3%nat ->
  project M (vadd v w) = vadd (project M v) (project M w).
Proof.
  destruct HM as (a & b & c & d & e & f & g & h & i & -> & _). intros Hv Hw.
  destruct (length3 v Hv) as (v1 & v2 & v3 & ->).
  destruct (length3 w Hw) as (w1 & w2 & w3 & ->).
  unfold project, vadd, dot, sum_vec. simpl. entries ltac:(ring).
Qed.

Lemma project_scale (s : R) (v : vec) :
  length v = 3%nat ->
  project M (map (Rmult s) v) = map (Rmult s) (project M v).
Proof.
  destruct HM as (a & b & c & d & e & f & g & h & i & -> & _). intros Hv.
  destruct (length3 v Hv) as (v1 & v2 & v3 & ->).
  unfold project, dot, sum_vec. simpl. entries ltac:(ring).
Qed.

Lemma project_zeros3 : project M (zeros 3) = zeros 3.
Proof.
  destruct HM as (a & b & c & d & e & f & g & h & i & -> & _).
  unfold project, dot, sum_vec, zeros. simpl. entries ltac:(ring).
Qed.

Lemma norm_project (v : vec) : length v = 3%nat -> norm (project M v) = norm v.
Proof.
  destruct HM as (a & b & c & d & e & f & g & h & i & -> & H1 & H2 & H3 & H4 & H5 & H6 & _).
  intros Hv. destruct (length3 v Hv) as (u1 & u2 & u3 & ->).
  unfold norm. f_equal. unfold project, dot, sum_vec. simpl.
  transitivity ((a * a + d * d + g * g) * (u1 * u1) + (b * b + e * e + h * h) * (u2 * u2)
                + (c * c + f * f + i * i) * (u3 * u3)
                + 2 * (a * b + d * e + g * h) * (u1 * u2)
                + 2 * (a * c + d * f + g * i) * (u1 * u3)
                + 2 * (b * c + e * f + h * i) * (u2 * u3)); [ring|].
  rewrite H1, H2, H3, H4, H5, H6. ring.
Qed.

(** The difference of two moved points is the rotated difference. *)
Lemma bsub_rigid (p q : vec) :
  length p = 3%nat -> length q = 3%nat ->
  bsub (rigid M t p) (rigid M t q) = project M (bsub p q).
Proof.
  destruct HM as (a & b & c & d & e & f & g & h & i & -> & _). intros Hp Hq.
  destruct (length3 t Ht) as (t1 & t2 & t3 & ->).
  destruct (length3 p Hp) as (p1 & p2 & p3 & ->).
  destruct (length3 q Hq) as (q1 & q2 & q3 & ->).
  unfold bsub, rigid, vadd, project, dot, sum_vec. simpl. entries ltac:(ring).
Qed.

(** A weighted point, moved. *)
Lemma scale_rigid (m : R) (p : vec) :
  length p = 3%nat ->
  bmul [m] (rigid M t p) = vadd (project M (bmul [m] p)) (map (Rmult m) t).
Proof.
  destruct HM as (a & b & c & d & e & f & g & h & i & -> & _). intros Hp.
  destruct (length3 t Ht) as (t1 & t2 & t3 & ->).
  destruct (length3 p Hp) as (p1 & p2 & p3 & ->).
  unfold bmul, rigid, vadd, project, dot, sum_vec. simpl. entries ltac:(ring).
Qed.

(** The quotient of a moved weighted sum by the total weight. *)
Lemma centre_rigid (d : R) (n : vec) :
  d <> 0 -> length n = 3%nat ->
  bdiv (vadd (project M n) (map (Rmult d) t)) [d] = rigid M t (bdiv n [d]).
Proof.
  destruct HM as (a & b & c & d0 & e & f & g & h & i & -> & _). intros Hd Hn.
  destruct (length3 t Ht) as (t1 & t2 & t3 & ->).
  destruct (length3 n Hn) as (n1 & n2 & n3 & ->).
  unfold bdiv, rigid, vadd, project, dot, sum_vec. simpl. entries ltac:(field; exact Hd).
Qed.

Lemma foldl_vadd_project (rows : list vec) (o : vec) :
  length o = 3%nat -> uniform 3 rows ->
  foldl vadd (project M o) (map (project M) rows) = project M (foldl vadd o rows)
  /\ length (foldl vadd o rows) = 3%nat.
Proof.
  clear t Ht. intros Ho Hu. revert o Ho.
  induction Hu as [|r rows Hr _ IH]; intros o Ho; simpl.
  - now split.
  - rewrite <- project_vadd by assumption. apply IH.
    unfold vadd. rewrite length_zip_with. lia.
Qed.
End Rotation.

Lemma incoming_map (f : vec -> vec) (k : nat) (index : list nat) (src : list vec) :
  incoming k index (map f src) = map f (incoming k index src).
Proof.
  unfold incoming. revert src. induction index as [|j index IH]; intros [|v src];
    csimpl; try reflexivity.
  destruct (decide (j = k)) as [Hj|Hj].
  - rewrite !filter_cons_True by exact Hj. csimpl. now rewrite IH.
  - rewrite !filter_cons_False by exact Hj. apply IH.
Qed.

Lemma incoming_cons (k j : nat) (index : list nat) (x : vec) (src : list vec) :
  incoming k (j :: index) (x :: src)
  = if decide (j = k) then x :: incoming k index src else incoming k index src.
Proof.
  unfold incoming. csimpl. destruct (decide (j = k)) as [Hj|Hj].
  - rewrite filter_cons_True by exact Hj. reflexivity.
  - rewrite filter_cons_False by exact Hj. reflexivity.
Qed.

Section CentreOfMass.
Variables (M : list vec) (t : vec).
Hypothesis HM : is_rotation M.
Hypothesis Ht : length t = 3%nat.

Lemma weighted_step (o p : vec) (d m : R) :
  length o = 3%nat -> length p = 3%nat ->
  vadd (vadd (project M o) (map (Rmult d) t)) (map (Rmult m) (rigid M t p))
  = vadd (project M (vadd o (map (Rmult m) p))) (map (Rmult (d + m)) t).
Proof.
  destruct HM as (a & b & c & d0 & e & f & g & h & i & -> & _). intros Ho Hp.
  destruct (length3 t Ht) as (t1 & t2 & t3 & ->).
  destruct (length3 o Ho) as (o1 & o2 & o3 & ->).
  destruct (length3 p Hp) as (p1 & p2 & p3 & ->).
  unfold bmul, rigid, vadd, project, dot, sum_vec. simpl. entries ltac:(ring).
Qed.

(** The weighted sums of one molecule, for the positions and for the moved
    positions, and its total weight. *)
Lemma weighted_sums (k : nat) (batch : list nat) :
  forall (ms : list R) (pos : list vec) (o : vec) (d0 : R),
    length ms = length batch -> length pos = length batch ->
    uniform 3 pos -> length o = 3%nat -> Forall (fun m => 0 < m) ms ->
    exists N d,
      foldl vadd o (incoming k batch (tmul (map (fun m => [m]) ms) pos)) = N
      /\ length N = 3%nat
      /\ foldl vadd [d0] (incoming k batch (map (fun m => [m]) ms)) = [d]
      /\ foldl vadd (vadd (project M o) (map (Rmult d0) t))
           (incoming k batch (tmul (map (fun m => [m]) ms) (map (rigid M t) pos)))
         = vadd (project M N) (map (Rmult d) t)
      /\ d0 <= d /\ (k ∈ batch -> d0 < d).
Proof.
  induction batch as [|j batch IH]; intros [|m ms] [|p pos] o d0 Hms Hpos Hu Ho Hm;
    try discriminate.
  - exists o, d0. simpl. split; [reflexivity|]. split; [exact Ho|].
    split; [reflexivity|]. split; [reflexivity|]. split; [lra|].
    intros Hk. inversion Hk.
  - simpl in Hms, Hpos. apply Forall_cons in Hu as [Hp Hu]. apply Forall_cons in Hm as [Hm0 Hm].
    csimpl. unfold tmul. csimpl. rewrite !incoming_cons.
    destruct (decide (j = k)) as [Hj|Hj].
    + cbn [foldl]. rewrite weighted_step by assumption.
      change (vadd [d0] [m]) with [d0 + m].
      destruct (IH ms pos (vadd o (map (Rmult m) p)) (d0 + m))
        as (N & d & H1 & H2 & H3 & H4 & H5 & H6);
        try assumption; try lia.
      { unfold vadd. rewrite length_zip_with, length_map. lia. }
      exists N, d. split; [exact H1|]. split; [exact H2|]. split; [exact H3|].
      split; [exact H4|]. split; [lra|]. intros _. lra.
    + destruct (IH ms pos o d0) as (N & d & H1 & H2 & H3 & H4 & H5 & H6);
        try assumption; try lia.
      exists N, d. split; [exact H1|]. split; [exact H2|]. split; [exact H3|].
      split; [exact H4|]. split; [exact H5|]. intros Hk. apply H6.
      apply elem_of_cons in Hk as [Hk|Hk]; [congruence|exact Hk].
Qed.
End CentreOfMass.

Section DipoleRows.
Variables (M : list vec) (t : vec).
Hypothesis HM : is_rotation M.
Hypothesis Ht : length t = 3%nat.

Lemma start_rigid : vadd (project M (zeros 3)) (map (Rmult 0) t) = zeros 3.
Proof.
  destruct HM as (a & b & c & d & e & f & g & h & i & -> & _).
  destruct (length3 t Ht) as (t1 & t2 & t3 & ->).
  unfold vadd, project, dot, sum_vec, zeros. simpl. entries ltac:(ring).
Qed.

(** The centres of mass of the moved positions are the moved centres. *)
Lemma centres_rigid (ms : list R) (pos : list vec) (batch : list nat) (b : nat) :
  length ms = length batch -> length pos = length batch ->
  uniform 3 pos -> Forall (fun m => 0 < m) ms -> b ∈ batch ->
  let mass := map (fun m => [m]) ms in
  let c := tdiv (scatter_sum (tmul mass pos) batch 3 None) (scatter_sum mass batch 1 None) in
  let c' := tdiv (scatter_sum (tmul mass (map (rigid M t) pos)) batch 3 None)
                 (scatter_sum mass batch 1 None) in
  c' !!! b = rigid M t (c !!! b) /\ length (c !!! b) = 3%nat.
Proof.
  intros Hms Hpos Hu Hm Hb mass c c'.
  assert (Hdim : (b < scatter_dim_size batch None)%nat).
  { simpl. pose proof (max_list_elem_of_le b batch Hb) as Hle.
    destruct batch; [inversion Hb|]. lia. }
  destruct (weighted_sums M t HM Ht b batch ms pos (zeros 3) 0 Hms Hpos Hu eq_refl Hm)
    as (N & d & H1 & H2 & H3 & H4 & _ & H6).
  specialize (H6 Hb). rewrite start_rigid in H4.
  assert (Hc : c !! b = Some (bdiv N [d])).
  { unfold c, tdiv, mass. rewrite lookup_zip_with, !scatter_sum_lookup by exact Hdim.
    rewrite H1. change (zeros 1) with [0]. rewrite H3. reflexivity. }
  assert (Hc' : c' !! b = Some (bdiv (vadd (project M N) (map (Rmult d) t)) [d])).
  { unfold c', tdiv, mass. rewrite lookup_zip_with, !scatter_sum_lookup by exact Hdim.
    rewrite H4. change (zeros 1) with [0]. rewrite H3. reflexivity. }
  rewrite (list_lookup_total_correct _ _ _ Hc), (list_lookup_total_correct _ _ _ Hc').
  split.
  - apply centre_rigid; [exact HM|exact Ht|lra|exact H2].
  - rewrite (list_lookup_total_correct _ _ _ Hc).
    unfold bdiv. now rewrite bop_scalar_r, length_map.
Qed.

Lemma dipole_rows (c c' : list vec) (batch : list nat) :
  forall (x pos : list vec),
    uniform 1 x -> uniform 3 pos ->
    Forall (fun b => c' !!! b = rigid M t (c !!! b) /\ length (c !!! b) = 3%nat) batch ->
    tmul x (tsub (map (rigid M t) pos) (index_select c' batch))
    = map (project M) (tmul x (tsub pos (index_select c batch)))
    /\ uniform 3 (tmul x (tsub pos (index_select c batch))).
Proof.
  unfold tmul, tsub, index_select.
  induction batch as [|b batch IH]; intros [|r x] [|p pos] Hx Hp Hc; csimpl;
    try (split; [reflexivity|constructor]).
  apply Forall_cons in Hx as [Hr Hx]. apply Forall_cons in Hp as [Hlp Hp].
  apply Forall_cons in Hc as [[Hb Hlb] Hc].
  destruct (IH x pos Hx Hp Hc) as [IH1 IH2].
  destruct r as [|a [|a' r]]; try discriminate Hr.
  assert (Hl : length (bsub p (c !!! b)) = 3%nat).
  { unfold bsub, vec in *. rewrite length_bop, Hlp, Hlb. reflexivity. }
  split.
  - f_equal; [|exact IH1].
    rewrite Hb, (bsub_rigid M t HM Ht) by assumption.
    change (map (Rmult a) (project M (bsub p (c !!! b)))
            = project M (map (Rmult a) (bsub p (c !!! b)))).
    symmetry. now apply project_scale.
  - constructor; [|exact IH2].
    change (length (map (Rmult a) (bsub p (c !!! b))) = 3%nat).
    now rewrite length_map.
Qed.

Lemma scatter_norm_rigid (D : list vec) (batch : list nat) :
  uniform 3 D ->
  map (fun v => [norm v]) (scatter_sum (map (project M) D) batch (width (map (project M) D))
                             None)
  = map (fun v => [norm v]) (scatter_sum D batch (width D) None).
Proof.
  intros HD. destruct D as [|row D]; [reflexivity|].
  assert (Hw : width (row :: D) = 3%nat) by (apply width_uniform; [exact HD|discriminate]).
  assert (Hw' : width (map (project M) (row :: D)) = 3%nat)
    by (unfold width; simpl; now apply length_project3).
  rewrite Hw, Hw'. remember (row :: D) as D0 eqn:HD0. clear HD0.
  apply list_eq. intros k. rewrite !list_lookup_fmap.
  destruct (decide (k < scatter_dim_size batch None)%nat) as [Hk|Hk].
  - rewrite !scatter_sum_lookup by exact Hk. simpl. do 2 f_equal.
    rewrite incoming_map.
    destruct (foldl_vadd_project M HM (incoming k batch D0) (zeros 3) eq_refl)
      as [Hsum Hlen]; [now apply uniform_incoming|].
    rewrite (project_zeros3 M HM) in Hsum. rewrite Hsum.
    now apply norm_project.
  - rewrite !lookup_ge_None_2 by (rewrite scatter_sum_length; lia). reflexivity.
Qed.
End DipoleRows.

Section DipoleRigid.
Context {gen : Generator} {utils : Utils} {pkgs : Packages}.
Import TorchMD_GN.
Variables (M : list vec) (t : vec).
Hypothesis HM : is_rotation M.
Hypothesis Ht : length t = 3%nat.

(** Lines 142-153 read the positions through the neighbour graph and the
    distances along its edges only. *)
Lemma forward_features_rigid (self : TorchMD_GN.t) (z : list Z) (pos : list vec)
    (b : list nat) :
  uniform 3 pos -> length pos = length z ->
  radius_graph_in_range -> radius_graph_rigid M t ->
  (forall ne, neighbor_embedding self = Some ne -> neighbor_embedding_equivariant ne) ->
  forward_features self z (map (rigid M t) pos) b = forward_features self z pos b.
Proof.
  intros Hu Hpos Hrange Hrg Hne.
  rewrite !forward_features_edges.
  set (ei' := radius_graph (map (rigid M t) pos) (cutoff_upper self) b).
  set (ei := radius_graph pos (cutoff_upper self) b).
  assert (Hr' : Forall (fun p => (p.1 < length pos)%nat /\ (p.2 < length pos)%nat) ei').
  { pose proof (Hrange (map (rigid M t) pos) (cutoff_upper self) b) as Hr.
    now rewrite length_map in Hr. }
  rewrite edges_of_rigid by assumption.
  assert (Hin : edges_in_range (length z) (edges_of (distance_expansion self) pos ei')).
  { apply edges_of_in_range. now rewrite <- Hpos. }
  destruct (features_equivariant self (seq 0 (length z)) z
              (edges_of (distance_expansion self) pos ei)
              (edges_of (distance_expansion self) pos ei')) as [Heq Hlen];
    [reflexivity|exact Hin| |exact Hne|].
  { rewrite relabel_id by exact Hin. unfold edges_of. apply fmap_Permutation.
    now apply Hrg. }
  rewrite index_select_seq in Heq. rewrite Heq.
  destruct (features_of_edges self z (edges_of (distance_expansion self) pos ei))
    as [e|h]; [reflexivity|]. simpl.
  rewrite <- (Hlen h eq_refl). now rewrite index_select_seq.
Qed.

(** The per-atom dipole vectors of the moved positions are the rotated
    per-atom dipole vectors. *)
Lemma dipole_branch_rigid (self : TorchMD_GN.t) (x : list vec) (z : list Z)
    (pos : list vec) (batch : list nat) :
  dipole self = true -> uniform 1 x -> uniform 3 pos ->
  length z = length batch -> length pos = length batch ->
  Forall (fun zi => 0 < atomic_mass self !!! Z.to_nat zi) z ->
  dipole_branch self x z (map (rigid M t) pos) batch
  = map (project M) (dipole_branch self x z pos batch)
  /\ uniform 3 (dipole_branch self x z pos batch).
Proof.
  intros Hd Hx Hu Hz Hpos Hmass. unfold dipole_branch. rewrite Hd.
  set (ms := index_select (atomic_mass self) (map Z.to_nat z)).
  assert (Hlms : length ms = length batch).
  { unfold ms. now rewrite length_index_select, length_map. }
  assert (Hms : Forall (fun m => 0 < m) ms).
  { unfold ms, index_select. rewrite !Forall_fmap.
    eapply Forall_impl; [exact Hmass|]. now intros zi Hzi. }
  apply (dipole_rows M t HM Ht).
  - exact Hx.
  - exact Hu.
  - apply Forall_forall. intros b Hb.
    assert (Hw : width (tmul (map (fun m => [m]) ms) pos) = 3%nat).
    { destruct batch as [|b0 batch]; [inversion Hb|].
      destruct ms as [|m ms'], pos as [|p pos']; try discriminate.
      apply Forall_cons in Hu as [Hp _].
      unfold width, tmul. simpl. now rewrite length_map. }
    assert (Hw' : width (tmul (map (fun m => [m]) ms) (map (rigid M t) pos)) = 3%nat).
    { destruct batch as [|b0 batch]; [inversion Hb|].
      destruct ms as [|m ms'], pos as [|p pos']; try discriminate.
      unfold width, tmul. simpl. rewrite length_map. now apply rigid_length. }
    rewrite Hw, Hw'.
    now apply (centres_rigid M t HM Ht ms pos batch b).
Qed.

Lemma forward_out_rigid (i : nat) (self : TorchMD_GN.t) (h : list vec) (z : list Z)
    (pos : list vec) (batch : list nat) :
  dipole self = true -> readout self = "add"%string ->
  Linear_shape i 1 true (lin2 self) -> uniform 3 pos ->
  length z = length batch -> length pos = length batch ->
  Forall (fun zi => 0 < atomic_mass self !!! Z.to_nat zi) z ->
  forward_out self h z (map (rigid M t) pos) batch = forward_out self h z pos batch.
Proof.
  intros Hd Hr H2 Hu Hz Hpos Hmass.
  assert (Hx : uniform 1 (output_network self h)).
  { unfold output_network, uniform. rewrite Forall_fmap. apply Forall_forall.
    intros row _. simpl. now apply (Linear_forward_column i). }
  destruct (dipole_branch_rigid self (output_network self h) z pos batch Hd Hx Hu Hz
              Hpos Hmass) as [HD HuD].
  unfold forward_out, forward_atoms, rescale, reference, forward_readout.
  rewrite HD, Hd, Hr. cbn [rbind ok].
  rewrite bool_decide_eq_true_2 by (rewrite !elem_of_cons; right; left; reflexivity).
  cbn [rbind ok]. unfold scatter. cbn [String.eqb Ascii.eqb Bool.eqb].
  now rewrite (scatter_norm_rigid M t HM).
Qed.

(** X14. In dipole mode (readout add, one output channel, positive masses)
    the returned [out] is the same after a rotation followed by a
    translation of all positions: the centres of mass move with the atoms,
    the per-atom dipole vectors rotate, and the norm of their sum stays. *)
Theorem dipole_rigid_invariance (self : TorchMD_GN.t) (z : list Z) (pos : list vec)
    (batch : option (list nat)) :
  dipole self = true -> readout self = "add"%string ->
  (exists i, Linear_shape i 1 true (lin2 self)) ->
  uniform 3 pos -> length pos = length z ->
  (forall b, batch = Some b -> length b = length z) ->
  Forall (fun zi => 0 < atomic_mass self !!! Z.to_nat zi) z ->
  radius_graph_in_range -> radius_graph_rigid M t ->
  (forall ne, neighbor_embedding self = Some ne -> neighbor_embedding_equivariant ne) ->
  rmap out_of (forward self z (map (rigid M t) pos) batch)
  = rmap out_of (forward self z pos batch).
Proof.
  intros Hd Hr [i H2] Hu Hpos Hb Hmass Hrange Hrg Hne. unfold forward.
  set (b := match batch with Some b => b | None => map (fun _ => O) z end).
  assert (Hlb : length b = length z).
  { unfold b. destruct batch as [b'|]; [now apply Hb|apply length_map]. }
  rewrite forward_features_rigid by assumption.
  destruct (forward_features self z pos b) as [e|h]; [reflexivity|]. simpl.
  unfold forward_filter.
  set (mask := map (fun zi => (atom_filter self <? zi)%Z) z).
  destruct (mask_select h mask) as [e|h1]; [reflexivity|]. simpl.
  destruct (mask_select z mask) as [e|z1] eqn:E2; [reflexivity|]. simpl.
  unfold mask_select at 1 3. rewrite !length_map.
  destruct (Nat.eqb_spec (length mask) (length pos)) as [_|Hn];
    [|exfalso; apply Hn; unfold mask; rewrite length_map; unfold vec in *; lia].
  simpl. destruct (mask_select b mask) as [e|b1] eqn:E4; [reflexivity|]. simpl.
  apply mask_select_inv in E2 as [_ ->], E4 as [_ ->].
  rewrite !forward_result_cases, mask_filter_map.
  rewrite (forward_out_rigid i) by
    (first [ assumption
           | now apply mask_filter_Forall
           | apply mask_filter_length; unfold vec in *; lia ]).
  destruct (forward_out self h1 _ _ _) as [e|out]; [reflexivity|]. simpl.
  rewrite Hd. destruct (derivative self); reflexivity.
Qed.
End DipoleRigid.

Lemma dipole_rigid_invariance_witness :
  let self := example_model true false None None 0 in
  let pos := [[0; 0; 0]; [1; 0; 0]] in
  rmap out_of (TorchMD_GN.forward (pkgs := example_packages) self [1; 8]%Z
                 (map (rigid turn_z [1; 2; 3]) pos) None)
  = rmap out_of (TorchMD_GN.forward (pkgs := example_packages) self [1; 8]%Z pos None).
Proof.
  apply (dipole_rigid_invariance (pkgs := example_packages) turn_z [1; 2; 3]
           turn_z_rotation eq_refl (example_model true false None None 0) [1; 8]%Z
           [[0; 0; 0]; [1; 0; 0]] None).
  - reflexivity.
  - reflexivity.
  - exists 1%nat. unfold Linear_shape, uniform. simpl.
    split; [reflexivity|]. split; [repeat constructor|]. now exists [0].
  - repeat constructor.
  - reflexivity.
  - intros b Hb. discriminate Hb.
  - repeat (apply Forall_cons_2; [simpl; unfold Z.to_nat, Pos.to_nat; simpl; lra|]).
    apply Forall_nil_2.
  - exact example_radius_graph_in_range.
  - exact (example_radius_graph_rigid turn_z [1; 2; 3] turn_z_rotation eq_refl).
  - intros ne _. apply example_neighbor_embedding_equivariant.
Defined.

(** ** More on the interaction block *)

(** X15. An interaction block commutes with a relabelling of the atoms:
    on the relabelled features and the relabelled edges (in any order) it
    returns the relabelled update. *)
Theorem interaction_block_equivariant (b : InteractionBlock.t) (sigma : list nat)
    (x : list vec) (edges edges' : list Edge) :
  sigma ≡ₚ seq 0 (length x) ->
  edges_in_range (length x) edges' ->
  map (relabel sigma) edges' ≡ₚ edges ->
  InteractionBlock.forward b (index_select x sigma) (edge_index_of edges')
    (edge_weight_of edges') (edge_attr_of edges')
  = index_select
      (InteractionBlock.forward b x (edge_index_of edges) (edge_weight_of edges)
         (edge_attr_of edges)) sigma.
Proof.
  intros Hp Hr Hrel.
  now apply (block_equivariant sigma (length x) Hp b x edges edges').
Qed.

(** The two atoms of the example, exchanged. *)
Lemma interaction_block_equivariant_witness :
  InteractionBlock.forward example_block [[3; 4]; [1; 2]] [(1, 0); (0, 1)]%nat
    [1; 1] [[1]; [1]]
  = index_select
      (InteractionBlock.forward example_block [[1; 2]; [3; 4]] [(0, 1); (1, 0)]%nat
         [1; 1] [[1]; [1]]) [1; 0]%nat.
Proof.
  apply (interaction_block_equivariant example_block [1; 0]%nat [[1; 2]; [3; 4]]
           (map (relabel [1; 0]%nat) example_edges) example_edges).
  - apply Permutation_swap.
  - repeat (apply Forall_cons_2; [simpl; lia|]). apply Forall_nil_2.
  - reflexivity.
Defined.

Lemma block_dims_shape (hidden num_rbf F : nat) (b : InteractionBlock.t) :
  block_dims hidden num_rbf F b -> block_zero_biases hidden F b ->
  exists b2, block_shape F hidden b (zeros F) b2 (zeros hidden).
Proof.
  intros ((L0 & _ & _) & (L2 & _ & b2 & B2 & LB2) & (L1 & _ & B1) & (Lo & _ & _) & _)
         (Z0 & Zo & _).
  exists b2. unfold block_shape, zeros. rewrite !length_replicate.
  repeat split; assumption.
Qed.

(** X16. In a block as [__init__] leaves it, with an activation that
    vanishes at zero (silu, tanh), an atom that receives no edge gets the
    zero update: all biases on its path are zero. *)
Theorem isolated_atom_fresh_block {gen : Generator} (hidden_channels num_rbf
    num_filters : nat) (activation cutoff : R -> R) (g : rng) (x : list vec)
    (edges : list Edge) (i : nat) :
  generator_lengths ->
  activation 0 = 0 ->
  (i < length x)%nat ->
  Forall (fun e => receiver e <> i) edges ->
  InteractionBlock.forward
    (InteractionBlock.new hidden_channels num_rbf num_filters activation cutoff g).1
    x (edge_index_of edges) (edge_weight_of edges) (edge_attr_of edges) !! i
  = Some (zeros hidden_channels).
Proof.
  intros Hgen Hact Hi Hno.
  destruct (block_new_dims Hgen hidden_channels num_rbf num_filters activation cutoff g)
    as (Hd & Hz & _ & Ha & _).
  set (b := (InteractionBlock.new hidden_channels num_rbf num_filters activation
               cutoff g).1) in *.
  destruct (block_dims_shape _ _ _ b Hd Hz) as (b2 & Hshape).
  pose proof Hshape as (_ & _ & _ & _ & _ & _ & H1 & L1 & Ho & Lo & LWo).
  destruct Hd as (_ & _ & _ & _ & (Ll & _ & _)). destruct Hz as (_ & _ & Zl).
  unfold InteractionBlock.forward. rewrite cfconv_forward_rows.
  rewrite !list_lookup_fmap, lookup_seq_lt by exact Hi. simpl. f_equal.
  unfold cfconv_row.
  replace (filter (fun e => receiver e = i) edges) with (@nil Edge).
  2:{ symmetry. induction Hno as [|e edges He _ IH]; [reflexivity|].
      now rewrite filter_cons_False. }
  cbn [map foldl].
  rewrite (Linear_forward_bias (CFConv.lin2 (InteractionBlock.conv b))
             (zeros hidden_channels)) by (auto; lia).
  rewrite project_bias_zeros by lia.
  replace (map (InteractionBlock.act b) (zeros hidden_channels))
    with (zeros hidden_channels).
  2:{ rewrite Ha. unfold zeros. clear -Hact.
      induction hidden_channels as [|n IH]; simpl; [reflexivity|].
      now rewrite Hact, <- IH. }
  rewrite (Linear_forward_bias (InteractionBlock.lin b) (zeros hidden_channels));
    [|exact Zl|unfold zeros; rewrite length_replicate; lia].
  apply project_bias_zeros. unfold zeros. rewrite length_replicate. lia.
Qed.

Lemma tanh_zero : tanh 0 = 0.
Proof. unfold tanh. rewrite sinh_0. unfold Rdiv. apply Rmult_0_l. Qed.

Lemma isolated_atom_fresh_block_witness :
  InteractionBlock.forward
    (InteractionBlock.new (gen := example_generator) 2 1 2 tanh (example_cutoff 0 5) tt).1
    [[1; 2]; [3; 4]; [5; 6]] [(1, 0); (0, 1)]%nat [1; 1] [[1]; [1]] !! 2%nat
  = Some [0; 0].
Proof.
  apply (isolated_atom_fresh_block (gen := example_generator) 2 1 2 tanh
           (example_cutoff 0 5) tt [[1; 2]; [3; 4]; [5; 6]] example_edges 2
           example_generator_lengths).
  - exact tanh_zero.
  - simpl. lia.
  - repeat (apply Forall_cons_2; [simpl; lia|]). apply Forall_nil_2.
Defined.

(** ** Molecule ids that no atom carries *)

Lemma incoming_none (k : nat) (index : list nat) (src : list vec) :
  k ∉ index -> incoming k index src = [].
Proof.
  unfold incoming. revert src. induction index as [|j index IH]; intros [|v src] Hk;
    csimpl; try reflexivity.
  rewrite filter_cons_False by (simpl; intros ->; apply Hk; apply list_elem_of_here).
  apply IH. intros Hin. apply Hk. now apply list_elem_of_further.
Qed.

Lemma norm_zeros (w : nat) : norm (zeros w) = 0.
Proof. unfold norm. rewrite dot_zeros_r. apply sqrt_0. Qed.

Lemma scatter_sum_missing (src : list vec) (index : list nat) (w k : nat) (d : option nat) :
  k ∉ index -> (k < scatter_dim_size index d)%nat ->
  scatter_sum src index w d !! k = Some (zeros w).
Proof.
  intros Hk Hlt. rewrite scatter_sum_lookup by exact Hlt.
  now rewrite incoming_none.
Qed.

Lemma scatter_missing (src : list vec) (index : list nat) (k : nat) (reduce : string) :
  k ∉ index -> (k < scatter_dim_size index None)%nat ->
  scatter src index 1 None reduce !! k = Some [0].
Proof.
  intros Hk Hlt. unfold scatter. destruct (String.eqb reduce "mean").
  - unfold scatter_mean, tdiv. rewrite lookup_zip_with.
    rewrite scatter_sum_missing by assumption.
    rewrite list_lookup_fmap, scatter_sum_missing;
      [|exact Hk|simpl; now rewrite scatter_sum_length].
    simpl. do 2 f_equal. unfold Rdiv. apply Rmult_0_l.
  - now rewrite scatter_sum_missing.
Qed.

Section Missing.
Context {gen : Generator} {utils : Utils} {pkgs : Packages}.
Import TorchMD_GN.

Lemma forward_out_missing (i : nat) (self : t) (h : list vec) (z : list Z)
    (pos : list vec) (batch : list nat) (out : list vec) (k : nat) :
  Linear_shape i 1 true (lin2 self) -> atomref_uniform self ->
  (dipole self = true -> readout self = "add"%string) ->
  length h = length batch -> length z = length batch ->
  forward_out self h z pos batch = ok out ->
  k ∉ batch -> (k < length out)%nat -> out !! k = Some [0].
Proof.
  intros H2 Href Hadd Hh Hz Hout Hk Hlt.
  assert (Hdim : (k < scatter_dim_size batch None)%nat).
  { unfold forward_out in Hout.
    destruct (forward_atoms self h z pos batch) as [e|c]; [discriminate|].
    simpl in Hout. apply forward_readout_length in Hout. now rewrite <- Hout. }
  clear Hlt. revert Hout.
  unfold forward_out, forward_atoms, forward_readout.
  set (x0 := output_network self h).
  assert (H0 : uniform 1 x0).
  { unfold x0, output_network, uniform. rewrite Forall_fmap. apply Forall_forall.
    intros row _. simpl. now apply (Linear_forward_column i). }
  assert (Hl0 : length x0 = length batch).
  { unfold x0, output_network. now rewrite !length_map. }
  unfold dipole_branch, rescale, reference.
  destruct (dipole self).
  { rewrite (Hadd eq_refl). cbn [rbind ok].
    rewrite bool_decide_eq_true_2 by (rewrite !elem_of_cons; right; left; reflexivity).
    cbn [rbind ok]. intros Hout. injection Hout as <-.
    unfold scatter. cbn [String.eqb Ascii.eqb Bool.eqb].
    rewrite list_lookup_fmap, scatter_sum_missing by assumption.
    simpl. now rewrite norm_zeros. }
  set (x1 := match mean self with
             | Some mean0 => match std self with
                             | Some std0 => map (map (fun x => x * std0 + mean0)) x0
                             | None => x0
                             end
             | None => x0
             end).
  assert (H1 : uniform 1 x1 /\ length x1 = length batch).
  { unfold x1. destruct (mean self), (std self); try (now split).
    split; [|now rewrite length_map].
    eapply uniform_map; [|exact H0]. intros row Hrow. now rewrite length_map. }
  destruct H1 as [H1 Hl1].
  assert (Hread : forall c, uniform 1 c -> length c = length batch ->
            rbind (rbind (if bool_decide (readout self ∈ ["sum"; "add"; "mean"]%string)
                          then ok (scatter c batch (width c) None (readout self))
                          else raise (Raise "ValueError" EmptyString))
                         (fun out0 => ok out0)) (fun o => ok o) = ok out ->
            out !! k = Some [0]).
  { intros c Hc Hlc. destruct (bool_decide _); simpl; [|discriminate].
    intros Hout. injection Hout as <-.
    destruct c as [|row c].
    - destruct batch; [simpl in Hdim; lia|discriminate Hlc].
    - rewrite (width_uniform 1 (row :: c)) by (assumption || discriminate).
      now apply scatter_missing. }
  destruct (atomref self) as [table|] eqn:Htab.
  - destruct (Embedding_forward table z) as [e|ref] eqn:Hemb; simpl; [discriminate|].
    intros Hout. apply (Hread (tadd x1 ref)).
    + unfold tadd. apply (uniform_zip_with_bop Rplus 1 1); [exact H1|].
      eapply Embedding_forward_uniform; [|exact Hemb]. now apply Href.
    + unfold tadd. rewrite length_zip_with. apply rmapM_length in Hemb.
      unfold vec in *. lia.
    + destruct (bool_decide _); simpl in *; exact Hout.
  - simpl. intros Hout. apply (Hread x1 H1 Hl1).
    destruct (bool_decide _); simpl in *; exact Hout.
Qed.

(** X17. When the molecule ids leave gaps, the rows of the gaps are zero:
    a constructed model returns the row [[0]] for every molecule id below
    the largest that none of the atoms left by the filter carries. *)
Theorem missing_molecule_is_zero (cfg : Config) (g g' : rng) (self : t) (z : list Z)
    (pos : list vec) (batch : option (list nat)) (res : output) (k : nat) :
  generator_lengths ->
  new cfg g = inr (self, g') ->
  (forall table, cfg_atomref cfg = Some table -> uniform 1 table) ->
  forward self z pos batch = ok res ->
  k ∉ remaining_ids (atom_filter self) z batch ->
  (k < length (out_of res))%nat ->
  out_of res !! k = Some [0].
Proof.
  intros Hgen Hnew Href Hres Hk Hlt.
  destruct (new_dims Hgen cfg g g' self Hnew) as ((_ & _ & _ & _ & _ & H2) & _).
  destruct (new_fields cfg g g' self Hnew) as (Hr & Hdip & _).
  assert (Hadd : dipole self = true -> readout self = "add"%string).
  { intros Hd. rewrite Hr. rewrite Hdip in Hd. now rewrite Hd. }
  assert (Href' : atomref_uniform self).
  { intros table Htab. exact (proj2 (new_atomref_shape cfg g g' self table Hnew Htab)). }
  revert Hres Hk Hlt. unfold forward, remaining_ids.
  set (b := match batch with Some b => b | None => map (fun _ => O) z end).
  destruct (forward_features self z pos b) as [e|h]; [discriminate|]. simpl.
  unfold forward_filter.
  set (mask := map (fun zi => (atom_filter self <? zi)%Z) z).
  destruct (mask_select h mask) as [e|h1] eqn:E1; [discriminate|]. simpl.
  destruct (mask_select z mask) as [e|z1] eqn:E2; [discriminate|]. simpl.
  destruct (mask_select pos mask) as [e|pos1] eqn:E3; [discriminate|]. simpl.
  destruct (mask_select b mask) as [e|b1] eqn:E4; [discriminate|]. simpl.
  apply mask_select_inv in E1 as [L1 ->], E2 as [L2 ->], E4 as [L4 ->].
  rewrite forward_result_cases.
  destruct (forward_out self _ _ _ _) as [e|out] eqn:Hout; [discriminate|]. simpl.
  intros Hres Hk Hlt.
  assert (Hgoal : (k < length out)%nat -> out !! k = Some [0]).
  { intros Hlt'.
    apply (forward_out_missing (hidden_channels self / 2) self _ _ _ _ out k H2 Href'
             Hadd) in Hout; try assumption;
      apply mask_filter_length; unfold vec in *; lia. }
  destruct (derivative self); [destruct (dipole self); [|discriminate]|];
    injection Hres as <-; now apply Hgoal.
Qed.
End Missing.

(** Two atoms in the molecules 0 and 2: the row of molecule 1 is zero. *)
Lemma missing_molecule_is_zero_witness :
  exists self g' res,
    TorchMD_GN.new (gen := example_generator) (utils := example_utils)
      (pkgs := example_packages) (example_config "gauss" "mean" false) tt = inr (self, g')
    /\ TorchMD_GN.forward (pkgs := example_packages) self [1; 8]%Z
         [[0; 0; 0]; [1; 0; 0]] (Some [0; 2]%nat) = ok res
    /\ out_of res !! 1%nat = Some [0].
Proof.
  destruct (TorchMD_GN.new (gen := example_generator) (utils := example_utils)
              (pkgs := example_packages) (example_config "gauss" "mean" false) tt)
    as [e|[self g']] eqn:Hnew.
  - exfalso. vm_compute in Hnew. discriminate Hnew.
  - assert (Hs : self = (let r := TorchMD_GN.new (gen := example_generator)
                           (utils := example_utils) (pkgs := example_packages)
                           (example_config "gauss" "mean" false) tt in
                         match r with inr (s, _) => s | inl _ => self end))
      by (now rewrite Hnew).
    destruct (TorchMD_GN.forward (pkgs := example_packages) self [1; 8]%Z
                [[0; 0; 0]; [1; 0; 0]] (Some [0; 2]%nat)) as [e|res] eqn:Hres.
    + exfalso. rewrite Hs in Hres. vm_compute in Hres. discriminate Hres.
    + exists self, g', res. split; [reflexivity|]. split; [exact Hres|].
      apply (missing_molecule_is_zero (gen := example_generator) (utils := example_utils)
               (pkgs := example_packages) (example_config "gauss" "mean" false) tt g'
               self [1; 8]%Z [[0; 0; 0]; [1; 0; 0]] (Some [0; 2]%nat) res 1
               example_generator_lengths Hnew).
      * intros table Htab. discriminate Htab.
      * exact Hres.
      * destruct (new_fields (gen := example_generator) (utils := example_utils)
                    (pkgs := example_packages) (example_config "gauss" "mean" false)
                    tt g' self Hnew)
          as (_ & _ & _ & _ & _ & ->).
        change (1%nat ∉ [0; 2]%nat).
        rewrite !elem_of_cons, elem_of_nil. intros [H|[H|[]]]; discriminate H.
      * rewrite (forward_rows (pkgs := example_packages) self [1; 8]%Z
                   [[0; 0; 0]; [1; 0; 0]] (Some [0; 2]%nat) res Hres).
        destruct (new_fields (gen := example_generator) (utils := example_utils)
                    (pkgs := example_packages) (example_config "gauss" "mean" false)
                    tt g' self Hnew)
          as (_ & _ & _ & _ & _ & ->).
        change (1 < 3)%nat. lia.
Defined.
